(** * exo-drive: the car data-access service (carServiceSupabase)

    A shallow embedding of [carServiceSupabase] and of [generateSlug]
    (lib/services/car-service-supabase.ts), with the hosted relational store
    and the image bucket modelled as an explicit world that is threaded
    through every call. *)

From Stdlib Require Import String Ascii DecimalString.
From Stdlib Require Import ZArith List Bool Lia.
From Stdlib Require Import Sorting.Sorted Sorting.Permutation.
Import ListNotations.
Open Scope Z_scope.

(** ** JavaScript strings

    A JavaScript string is a sequence of UTF-16 code units. *)

Definition jsstring := list Z.

Definition lit (s : string) : jsstring :=
  map (fun a => Z.of_nat (nat_of_ascii a)) (list_ascii_of_string s).

Arguments lit : simpl never.

Definition jsstring_eqb (a b : jsstring) : bool :=
  if list_eq_dec Z.eq_dec a b then true else false.

Definition in_range (lo hi c : Z) : bool := (lo <=? c) && (c <=? hi).

Definition is_upper (c : Z) : bool := in_range 65 90 c.
Definition is_lower (c : Z) : bool := in_range 97 122 c.
Definition is_digit (c : Z) : bool := in_range 48 57 c.
Definition is_hyphen (c : Z) : bool := c =? 45.
Definition is_ascii (c : Z) : bool := in_range 0 127 c.

(** The class [\w] of a regular expression without the [i] and [u] flags. *)
Definition is_word (c : Z) : bool :=
  is_upper c || is_lower c || is_digit c || (c =? 95).

(** The class [\s]: WhiteSpace and LineTerminator code units. *)
Definition is_space (c : Z) : bool :=
  in_range 9 13 c || (c =? 32) || (c =? 160) || (c =? 5760) ||
  in_range 8192 8202 c || (c =? 8232) || (c =? 8233) || (c =? 8239) ||
  (c =? 8287) || (c =? 12288) || (c =? 65279).

(** The class [[^\w-]]. *)
Definition is_junk (c : Z) : bool := negb (is_word c || is_hyphen c).

(** What a slug may contain: a lowercase word character or a hyphen. *)
Definition is_slug_char (c : Z) : bool :=
  is_lower c || is_digit c || (c =? 95) || is_hyphen c.

Definition ascii_lower (c : Z) : Z := if is_upper c then c + 32 else c.

(** [String.prototype.replace] with a global pattern [[cls]{n,}]: every
    maximal run of [cls] code units that is at least [n] long is replaced with
    [sub]; a shorter run stays. [run] is the run read so far. *)
Definition flush_run (n : nat) (sub run : jsstring) : jsstring :=
  match run with
  | [] => []
  | _ :: _ => if (n <=? length run)%nat then sub else run
  end.

Fixpoint replace_runs_from (cls : Z -> bool) (n : nat) (sub run s : jsstring)
  : jsstring :=
  match s with
  | [] => flush_run n sub run
  | c :: s' =>
      if cls c then replace_runs_from cls n sub (run ++ [c]) s'
      else flush_run n sub run ++ c :: replace_runs_from cls n sub [] s'
  end.

Definition replace_runs (cls : Z -> bool) (n : nat) (sub s : jsstring) : jsstring :=
  replace_runs_from cls n sub [] s.

(** [replace(/^c+/, '')]. *)
Fixpoint trim_start (cls : Z -> bool) (s : jsstring) : jsstring :=
  match s with
  | [] => []
  | c :: s' => if cls c then trim_start cls s' else s
  end.

(** [replace(/c+$/, '')]. *)
Fixpoint trim_end (cls : Z -> bool) (s : jsstring) : jsstring :=
  match s with
  | [] => []
  | c :: s' =>
      match trim_end cls s' with
      | [] => if cls c then [] else [c]
      | t => c :: t
      end
  end.

Definition starts_with_hyphen (s : jsstring) : bool :=
  match s with
  | c :: _ => is_hyphen c
  | [] => false
  end.

Fixpoint ends_with_hyphen (s : jsstring) : bool :=
  match s with
  | [] => false
  | [c] => is_hyphen c
  | _ :: s' => ends_with_hyphen s'
  end.

Fixpoint has_double_hyphen (s : jsstring) : bool :=
  match s with
  | [] => false
  | a :: s' => (is_hyphen a && starts_with_hyphen s') || has_double_hyphen s'
  end.

Section Slug.

(** [String.prototype.toLowerCase], the Unicode case mapping of the host. *)
Variable toLowerCase : jsstring -> jsstring.

Definition generateSlug (name : jsstring) : jsstring :=
  let s1 := toLowerCase name in
  let s2 := replace_runs is_space 1 (lit "-") s1 in
  let s3 := replace_runs is_junk 1 (lit "") s2 in
  let s4 := replace_runs is_hyphen 2 (lit "-") s3 in
  let s5 := trim_start is_hyphen s4 in
  trim_end is_hyphen s5.

End Slug.

(** ** JavaScript values *)

(** An optional, nullable property of an input object. *)
Inductive field (A : Type) : Type :=
| Undefined
| Null
| Val (a : A).
Arguments Undefined {A}.
Arguments Null {A}.
Arguments Val {A} a.

(** [x ?? d] on a property, and on a nullable column. *)
Definition nullish {A} (x : field A) (d : A) : A :=
  match x with
  | Val a => a
  | _ => d
  end.

Definition or_default {A} (x : option A) (d : A) : A :=
  match x with
  | Some a => a
  | None => d
  end.

(** A nullable column as it arrives from a property. *)
Definition to_column {A} (x : field A) : option A :=
  match x with
  | Val a => Some a
  | _ => None
  end.

(** Truthiness of a nullable string: [null] and [""] are falsy. *)
Definition truthy_string (x : option jsstring) : bool :=
  match x with
  | Some (_ :: _) => true
  | _ => false
  end.

(** Stable sort with a consistent comparator ([Array.prototype.sort]), and
    the ordering of a query. *)
Fixpoint insert_by {A} (le : A -> A -> bool) (x : A) (l : list A) : list A :=
  match l with
  | [] => [x]
  | y :: l' => if le x y then x :: l else y :: insert_by le x l'
  end.

Definition sort_by {A} (le : A -> A -> bool) (l : list A) : list A :=
  fold_right (insert_by le) [] l.

(** ** Data model *)

(** Row identifiers are uuids; only their equality matters, so a number
    stands for one and its numeral for its text. *)
Definition ID := Z.

Definition id_text (i : ID) : jsstring :=
  lit (NilZero.string_of_int (Z.to_int i)).
Arguments id_text : simpl never.

(** An attribute bag of a feature or a specification. *)
Definition Attrs := list (jsstring * jsstring).

Module Car.
Record Row := {
  id : ID;
  slug : jsstring;
  name : jsstring;
  category : option jsstring;
  description : option jsstring;
  short_description : option jsstring;
  available : option bool;
  featured : option bool;
  hidden : option bool;
  created_at : Z;
  created_by : option ID
}.
End Car.

(** [CarInsertData & { slug; created_by? }], the payload of the root insert. *)
Module CarInsert.
Record t := {
  name : jsstring;
  slug : jsstring;
  category : jsstring;
  description : jsstring;
  short_description : field jsstring;
  available : bool;
  featured : bool;
  hidden : bool;
  created_by : option ID
}.
End CarInsert.

(** [Partial<cars.Update>]: [None] is a key that was never assigned,
    [Some Undefined] a key that holds [undefined]. *)
Module CarUpdate.
Record t := {
  name : option (field jsstring);
  slug : option (field jsstring);
  category : option (field jsstring);
  description : option (field jsstring);
  short_description : option (field jsstring);
  available : option (field bool);
  featured : option (field bool);
  hidden : option (field bool)
}.
Definition empty : t :=
  {| name := None; slug := None; category := None; description := None;
     short_description := None; available := None; featured := None;
     hidden := None |}.
End CarUpdate.

Module Pricing.
Record Insert := { base_price : Z; attrs : Attrs }.
Record Row := { id : ID; car_id : ID; payload : Insert }.
End Pricing.

Module Image.
Record Insert := {
  url : jsstring;
  path : option jsstring;
  is_primary : option bool;
  sort_order : option Z
}.
Record Row := { id : ID; car_id : ID; payload : Insert }.
End Image.

Module Feature.
Record Row := { id : ID; car_id : ID; payload : Attrs }.
End Feature.

Module Specification.
Record Row := { id : ID; car_id : ID; payload : Attrs }.
End Specification.

(** A joined child collection arrives as an array, or as a bare object when
    the relation is one-to-one. *)
Inductive Embedded (A : Type) : Type :=
| AsArray (rows : list A)
| AsObject (row : option A).
Arguments AsArray {A} rows.
Arguments AsObject {A} row.

(** A car row with its joined children, as a nested select returns it.
    The rows are kept whole, whichever columns the select names. *)
Record Joined := {
  j_car : Car.Row;
  j_pricing : Embedded Pricing.Row;
  j_images : list Image.Row;
  j_features : list Feature.Row;
  j_specifications : list Specification.Row
}.

(** [AppCar]. *)
Record AppCar := {
  base : Car.Row;
  pricing : option Pricing.Row;
  images : list Image.Row;
  features : list Feature.Row;
  specifications : list Specification.Row
}.

(** [AppCarUpsert], the input of a create. *)
Module Upsert.
Record t := {
  name : jsstring;
  category : jsstring;
  description : field jsstring;
  short_description : field jsstring;
  available : field bool;
  featured : field bool;
  hidden : field bool;
  pricing : option Pricing.Insert;
  images : list Image.Insert;
  features : list Attrs;
  specifications : list Attrs
}.
End Upsert.

(** [Partial<AppCarUpsert>], the input of an update. *)
Module Patch.
Record t := {
  name : option jsstring;
  category : option jsstring;
  description : field jsstring;
  short_description : field jsstring;
  available : field bool;
  featured : field bool;
  hidden : field bool;
  pricing : option Pricing.Insert;
  images : option (list Image.Insert);
  features : option (list Attrs);
  specifications : option (list Attrs)
}.
End Patch.

(** Rows of the public listings. *)
Record FleetCar := {
  fc_id : ID;
  fc_slug : jsstring;
  fc_name : jsstring;
  fc_category : option jsstring;
  fc_shortDescription : option jsstring;
  fc_isFeatured : option bool;
  fc_primaryImageUrl : option jsstring;
  fc_pricePerDay : option Z
}.

Record RelatedCar := {
  rc_id : ID;
  rc_slug : jsstring;
  rc_name : jsstring;
  rc_category : option jsstring;
  rc_primaryImageUrl : option jsstring;
  rc_pricePerDay : option Z
}.

(** ** Errors *)

(** The [error] a store call resolves with. Whether it is an [Error]
    instance depends on the client library. *)
Record StoreError := { message : jsstring; is_Error_instance : bool }.

Inductive Exn :=
| JsError (msg : jsstring)
| StoreExn (e : StoreError).

Definition instanceof_Error (e : Exn) : bool :=
  match e with
  | JsError _ => true
  | StoreExn e => is_Error_instance e
  end.

(** The value a store call resolves to: [{ data, error }]. *)
Record Reply (A : Type) := { data : option A; error : option StoreError }.
Arguments data {A} r.
Arguments error {A} r.

Definition ok {A} (a : A) : Reply A := {| data := Some a; error := None |}.
Definition null_reply {A} : Reply A := {| data := None; error := None |}.
Definition failed {A} (e : StoreError) : Reply A :=
  {| data := None; error := Some e |}.

(** ** The store: five tables and the image bucket *)

Inductive Table := TCars | TPricing | TImages | TFeatures | TSpecifications.

Record Db := {
  cars : list Car.Row;
  car_pricing : list Pricing.Row;
  car_images : list Image.Row;
  car_features : list Feature.Row;
  car_specifications : list Specification.Row;
  next_id : ID;
  clock : Z;
  pricing_one_to_one : bool
}.

(** The calls the service makes to its collaborators. *)
Inductive Request :=
| ReqSelect (t : Table)
| ReqInsertCar (p : CarInsert.t)
| ReqInsertPricing (car : ID) (p : Pricing.Insert)
| ReqInsertImages (car : ID) (ps : list Image.Insert)
| ReqInsertFeatures (car : ID) (ps : list Attrs)
| ReqInsertSpecifications (car : ID) (ps : list Attrs)
| ReqUpdateCar (car : ID) (p : CarUpdate.t)
| ReqUpsertPricing (car : ID) (p : Pricing.Insert)
| ReqUpsertImages (car : ID) (ps : list Image.Insert)
| ReqDeleteCar (car : ID)
| ReqDeleteOf (t : Table) (car : ID)
| ReqDeleteImagesIn (ids : list ID)
| ReqStorageRemove (paths : list jsstring).

(** One line of [console.error]. *)
Record LogEntry := { log_text : jsstring; log_cause : option Exn }.

(** The world a call runs in. [faults] scripts the collaborators: the n-th
    call to come resolves with the n-th entry as its [error] and changes
    nothing, or goes through when the entry is [None] or the script is
    over. *)
Record World := {
  db : Db;
  bucket : list jsstring;
  console : list LogEntry;
  calls : list Request;
  faults : list (option StoreError)
}.

Definition set_db (d : Db) (w : World) : World :=
  {| db := d; bucket := bucket w; console := console w; calls := calls w;
     faults := faults w |}.

Definition set_bucket (b : list jsstring) (w : World) : World :=
  {| db := db w; bucket := b; console := console w; calls := calls w;
     faults := faults w |}.

Definition set_faults (f : list (option StoreError)) (w : World) : World :=
  {| db := db w; bucket := bucket w; console := console w; calls := calls w;
     faults := f |}.

Definition record_call (r : Request) (w : World) : World :=
  {| db := db w; bucket := bucket w; console := console w;
     calls := calls w ++ [r]; faults := faults w |}.

Definition record_log (l : LogEntry) (w : World) : World :=
  {| db := db w; bucket := bucket w; console := console w ++ [l];
     calls := calls w; faults := faults w |}.

Definition set_cars (l : list Car.Row) (d : Db) : Db :=
  {| cars := l; car_pricing := car_pricing d; car_images := car_images d;
     car_features := car_features d;
     car_specifications := car_specifications d; next_id := next_id d;
     clock := clock d; pricing_one_to_one := pricing_one_to_one d |}.

Definition set_pricing (l : list Pricing.Row) (d : Db) : Db :=
  {| cars := cars d; car_pricing := l; car_images := car_images d;
     car_features := car_features d;
     car_specifications := car_specifications d; next_id := next_id d;
     clock := clock d; pricing_one_to_one := pricing_one_to_one d |}.

Definition set_images (l : list Image.Row) (d : Db) : Db :=
  {| cars := cars d; car_pricing := car_pricing d; car_images := l;
     car_features := car_features d;
     car_specifications := car_specifications d; next_id := next_id d;
     clock := clock d; pricing_one_to_one := pricing_one_to_one d |}.

Definition set_features (l : list Feature.Row) (d : Db) : Db :=
  {| cars := cars d; car_pricing := car_pricing d; car_images := car_images d;
     car_features := l;
     car_specifications := car_specifications d; next_id := next_id d;
     clock := clock d; pricing_one_to_one := pricing_one_to_one d |}.

Definition set_specifications (l : list Specification.Row) (d : Db) : Db :=
  {| cars := cars d; car_pricing := car_pricing d; car_images := car_images d;
     car_features := car_features d;
     car_specifications := l; next_id := next_id d;
     clock := clock d; pricing_one_to_one := pricing_one_to_one d |}.

(** The store hands out fresh identifiers and stamps the creation time. *)
Definition advance (n : Z) (d : Db) : Db :=
  {| cars := cars d; car_pricing := car_pricing d; car_images := car_images d;
     car_features := car_features d;
     car_specifications := car_specifications d; next_id := next_id d + n;
     clock := clock d + 1; pricing_one_to_one := pricing_one_to_one d |}.

Fixpoint number_from {A} (n : ID) (l : list A) : list (ID * A) :=
  match l with
  | [] => []
  | a :: l' => (n, a) :: number_from (n + 1) l'
  end.

(** *** Writes *)

Definition new_car (d : Db) (p : CarInsert.t) : Car.Row :=
  {| Car.id := next_id d;
     Car.slug := CarInsert.slug p;
     Car.name := CarInsert.name p;
     Car.category := Some (CarInsert.category p);
     Car.description := Some (CarInsert.description p);
     Car.short_description := to_column (CarInsert.short_description p);
     Car.available := Some (CarInsert.available p);
     Car.featured := Some (CarInsert.featured p);
     Car.hidden := Some (CarInsert.hidden p);
     Car.created_at := clock d;
     Car.created_by := CarInsert.created_by p |}.

Definition insert_car (p : CarInsert.t) (d : Db) : Car.Row * Db :=
  let r := new_car d p in
  (r, advance 1 (set_cars (cars d ++ [r]) d)).

Definition insert_pricing (car : ID) (p : Pricing.Insert) (d : Db)
  : Pricing.Row * Db :=
  let r := {| Pricing.id := next_id d; Pricing.car_id := car;
              Pricing.payload := p |} in
  (r, advance 1 (set_pricing (car_pricing d ++ [r]) d)).

Definition insert_images (car : ID) (ps : list Image.Insert) (d : Db)
  : list Image.Row * Db :=
  let rs := map (fun '(i, p) => {| Image.id := i; Image.car_id := car;
                                    Image.payload := p |})
                (number_from (next_id d) ps) in
  (rs, advance (Z.of_nat (List.length ps)) (set_images (car_images d ++ rs) d)).

Definition insert_features (car : ID) (ps : list Attrs) (d : Db)
  : list Feature.Row * Db :=
  let rs := map (fun '(i, p) => {| Feature.id := i; Feature.car_id := car;
                                    Feature.payload := p |})
                (number_from (next_id d) ps) in
  (rs, advance (Z.of_nat (List.length ps))
               (set_features (car_features d ++ rs) d)).

Definition insert_specifications (car : ID) (ps : list Attrs) (d : Db)
  : list Specification.Row * Db :=
  let rs := map (fun '(i, p) => {| Specification.id := i;
                                    Specification.car_id := car;
                                    Specification.payload := p |})
                (number_from (next_id d) ps) in
  (rs, advance (Z.of_nat (List.length ps))
               (set_specifications (car_specifications d ++ rs) d)).

(** What the request body of an update carries for a key: [JSON.stringify]
    drops a key that holds [undefined], so the column stays as it is;
    [null] clears a nullable column. *)
Definition patch_column {A} (k : option (field A)) (old : option A) : option A :=
  match k with
  | Some (Val v) => Some v
  | Some Null => None
  | Some Undefined => old
  | None => old
  end.

Definition patch_required {A} (k : option (field A)) (old : A) : A :=
  match k with
  | Some (Val v) => v
  | _ => old
  end.

Definition apply_update (p : CarUpdate.t) (r : Car.Row) : Car.Row :=
  {| Car.id := Car.id r;
     Car.slug := patch_required (CarUpdate.slug p) (Car.slug r);
     Car.name := patch_required (CarUpdate.name p) (Car.name r);
     Car.category := patch_column (CarUpdate.category p) (Car.category r);
     Car.description :=
       patch_column (CarUpdate.description p) (Car.description r);
     Car.short_description :=
       patch_column (CarUpdate.short_description p) (Car.short_description r);
     Car.available := patch_column (CarUpdate.available p) (Car.available r);
     Car.featured := patch_column (CarUpdate.featured p) (Car.featured r);
     Car.hidden := patch_column (CarUpdate.hidden p) (Car.hidden r);
     Car.created_at := Car.created_at r;
     Car.created_by := Car.created_by r |}.

Definition update_car (car : ID) (p : CarUpdate.t) (d : Db) : unit * Db :=
  (tt, set_cars (map (fun r => if Car.id r =? car then apply_update p r else r)
                     (cars d)) d).

(** Upsert on the conflict key [car_id]. *)
Definition upsert_pricing (car : ID) (p : Pricing.Insert) (d : Db) : unit * Db :=
  if existsb (fun r => Pricing.car_id r =? car) (car_pricing d)
  then (tt, set_pricing
              (map (fun r => if Pricing.car_id r =? car
                             then {| Pricing.id := Pricing.id r;
                                     Pricing.car_id := car;
                                     Pricing.payload := p |}
                             else r) (car_pricing d)) d)
  else (tt, snd (insert_pricing car p d)).

Definition same_path (a b : option jsstring) : bool :=
  match a, b with
  | Some x, Some y => jsstring_eqb x y
  | _, _ => false
  end.

(** Upsert on the conflict key [(car_id, path)], one incoming row after the
    other; a [null] path never conflicts. *)
Definition upsert_image (car : ID) (d : Db) (p : Image.Insert) : Db :=
  let hit r := (Image.car_id r =? car) &&
               same_path (Image.path (Image.payload r)) (Image.path p) in
  if existsb hit (car_images d)
  then set_images
         (map (fun r => if hit r
                        then {| Image.id := Image.id r; Image.car_id := car;
                                Image.payload := p |}
                        else r) (car_images d)) d
  else snd (insert_images car [p] d).

Definition upsert_images (car : ID) (ps : list Image.Insert) (d : Db)
  : unit * Db :=
  (tt, fold_left (upsert_image car) ps d).

Definition delete_car (car : ID) (d : Db) : unit * Db :=
  (tt, set_cars (filter (fun r => negb (Car.id r =? car)) (cars d)) d).

Definition delete_of (t : Table) (car : ID) (d : Db) : unit * Db :=
  match t with
  | TCars => (tt, d)
  | TPricing =>
      (tt, set_pricing
             (filter (fun r => negb (Pricing.car_id r =? car)) (car_pricing d)) d)
  | TImages =>
      (tt, set_images
             (filter (fun r => negb (Image.car_id r =? car)) (car_images d)) d)
  | TFeatures =>
      (tt, set_features
             (filter (fun r => negb (Feature.car_id r =? car))
                     (car_features d)) d)
  | TSpecifications =>
      (tt, set_specifications
             (filter (fun r => negb (Specification.car_id r =? car))
                     (car_specifications d)) d)
  end.

Definition mem_id (x : ID) (l : list ID) : bool := existsb (Z.eqb x) l.

Definition delete_images_in (ids : list ID) (d : Db) : unit * Db :=
  (tt, set_images
         (filter (fun r => negb (mem_id (Image.id r) ids)) (car_images d)) d).

Definition mem_path (p : jsstring) (l : list jsstring) : bool :=
  existsb (jsstring_eqb p) l.

Definition storage_remove (paths : list jsstring) (b : list jsstring)
  : list jsstring :=
  filter (fun p => negb (mem_path p paths)) b.

(** *** Reads *)

Definition embed_pricing (d : Db) (rows : list Pricing.Row)
  : Embedded Pricing.Row :=
  if pricing_one_to_one d then AsObject (hd_error rows) else AsArray rows.

Definition join (d : Db) (c : Car.Row) : Joined :=
  {| j_car := c;
     j_pricing :=
       embed_pricing d
         (filter (fun r => Pricing.car_id r =? Car.id c) (car_pricing d));
     j_images := filter (fun r => Image.car_id r =? Car.id c) (car_images d);
     j_features :=
       filter (fun r => Feature.car_id r =? Car.id c) (car_features d);
     j_specifications :=
       filter (fun r => Specification.car_id r =? Car.id c)
              (car_specifications d) |}.

Definition multiple_rows : StoreError :=
  {| message := lit "JSON object requested, multiple (or no) rows returned";
     is_Error_instance := false |}.

(** [.maybeSingle()]: no row is [null], several rows are an error. *)
Definition maybe_single {A} (rows : list A) : Reply A :=
  match rows with
  | [] => null_reply
  | [r] => ok r
  | _ => failed multiple_rows
  end.

Definition is_true (b : option bool) : bool :=
  match b with
  | Some true => true
  | _ => false
  end.

Definition is_false (b : option bool) : bool :=
  match b with
  | Some false => true
  | _ => false
  end.

(** [.eq("available", true).eq("hidden", false)]. *)
Definition visible (c : Car.Row) : bool :=
  is_true (Car.available c) && is_false (Car.hidden c).

(** Rank of a nullable boolean under [ORDER BY ... DESC]: nulls first, then
    [true], then [false]. *)
Definition desc_rank (b : option bool) : Z :=
  match b with
  | None => 0
  | Some true => 1
  | Some false => 2
  end.

(** [.order("featured", desc).order("created_at", desc)]. *)
Definition fleet_order (a b : Car.Row) : bool :=
  (desc_rank (Car.featured a) <? desc_rank (Car.featured b)) ||
  ((desc_rank (Car.featured a) =? desc_rank (Car.featured b)) &&
   (Car.created_at b <=? Car.created_at a)).

Definition select_by_id (x : ID) (d : Db) : list Joined :=
  map (join d) (filter (fun c => Car.id c =? x) (cars d)).

Definition select_by_slug (s : jsstring) (d : Db) : list Joined :=
  map (join d) (filter (fun c => jsstring_eqb (Car.slug c) s) (cars d)).

Definition select_fleet (d : Db) : list Joined :=
  map (join d) (sort_by fleet_order (filter visible (cars d))).

Definition same_category (cat : jsstring) (c : Car.Row) : bool :=
  match Car.category c with
  | Some x => jsstring_eqb x cat
  | None => false
  end.

Definition select_related (cat : jsstring) (car : ID) (limit : nat) (d : Db)
  : list Joined :=
  map (join d)
      (firstn limit
         (filter (fun c => same_category cat c && negb (Car.id c =? car) &&
                           visible c)
                 (cars d))).

Definition select_images_of (car : ID) (d : Db) : list Image.Row :=
  filter (fun r => Image.car_id r =? car) (car_images d).

(** ** The service monad: state, and exceptions *)

Inductive Outcome (A : Type) : Type :=
| Return (a : A)
| Throw (e : Exn).
Arguments Return {A} a.
Arguments Throw {A} e.

Definition M (A : Type) : Type := World -> Outcome A * World.

Definition ret {A} (a : A) : M A := fun w => (Return a, w).

Definition throw {A} (e : Exn) : M A := fun w => (Throw e, w).

Definition bind {A B} (m : M A) (f : A -> M B) : M B :=
  fun w =>
    match m w with
    | (Return a, w') => f a w'
    | (Throw e, w') => (Throw e, w')
    end.

Definition try_catch {A} (m : M A) (handler : Exn -> M A) : M A :=
  fun w =>
    match m w with
    | (Return a, w') => (Return a, w')
    | (Throw e, w') => handler e w'
    end.

Declare Scope service_scope.
Delimit Scope service_scope with service.
Notation "x <- m ;; k" := (bind m (fun x => k))
  (at level 61, m at next level, right associativity) : service_scope.
Notation "m ;; k" := (bind m (fun _ => k))
  (at level 61, right associativity) : service_scope.
Open Scope service_scope.

Definition console_error_text (text : jsstring) (cause : option Exn) : M unit :=
  fun w => (Return tt,
            record_log {| log_text := text; log_cause := cause |} w).

Definition console_error (text : string) (cause : option Exn) : M unit :=
  console_error_text (lit text) cause.

Definition when (b : bool) (m : M unit) : M unit := if b then m else ret tt.

(** A call to a collaborator. It never rejects: it resolves with
    [{ data, error }], as every call site of the service reads it. *)
Definition next_fault (w : World) : option StoreError * World :=
  match faults w with
  | [] => (None, w)
  | f :: rest => (f, set_faults rest w)
  end.

Definition request {A} (req : Request) (run : World -> Reply A * World)
  : M (Reply A) :=
  fun w =>
    match next_fault (record_call req w) with
    | (Some e, w') => (Return (failed e), w')
    | (None, w') => let (r, w'') := run w' in (Return r, w'')
    end.

Definition query {A} (f : Db -> Reply A) : World -> Reply A * World :=
  fun w => (f (db w), w).

Definition write {A} (f : Db -> A * Db) : World -> Reply A * World :=
  fun w => let (a, d) := f (db w) in (ok a, set_db d w).

Definition remove_objects (paths : list jsstring) : World -> Reply unit * World :=
  fun w => (ok tt, set_bucket (storage_remove paths (bucket w)) w).

(** [Promise.all]: the first rejection wins. *)
Fixpoint promise_all {A} (ms : list (M A)) : M (list A) :=
  match ms with
  | [] => ret []
  | m :: ms' => a <- m ;; l <- promise_all ms' ;; ret (a :: l)
  end.

(** ** Shared derivations *)

Definition sort_key (i : Image.Row) : Z :=
  or_default (Image.sort_order (Image.payload i)) 0.

(** [(a, b) => (a.sort_order ?? 0) - (b.sort_order ?? 0)]. *)
Definition by_sort_order (a b : Image.Row) : bool := sort_key a <=? sort_key b.

(** ['sort_order' in img]: a row of [car_images] carries every column. *)
Definition has_sort_order (i : Image.Row) : bool := true.

Definition sort_images (imgs : list Image.Row) : list Image.Row :=
  match imgs with
  | [] => imgs
  | i :: _ => if has_sort_order i then sort_by by_sort_order imgs else imgs
  end.

Definition first_or_null {A} (e : Embedded A) : option A :=
  match e with
  | AsArray rows => hd_error rows
  | AsObject row => row
  end.

Definition resolve_flags (c : Car.Row) : Car.Row :=
  {| Car.id := Car.id c; Car.slug := Car.slug c; Car.name := Car.name c;
     Car.category := Car.category c; Car.description := Car.description c;
     Car.short_description := Car.short_description c;
     Car.available := Some (or_default (Car.available c) true);
     Car.featured := Some (or_default (Car.featured c) false);
     Car.hidden := Some (or_default (Car.hidden c) false);
     Car.created_at := Car.created_at c; Car.created_by := Car.created_by c |}.

Definition assemble (j : Joined) : AppCar :=
  {| base := resolve_flags (j_car j);
     pricing := first_or_null (j_pricing j);
     images := sort_images (j_images j);
     features := j_features j;
     specifications := j_specifications j |}.

(** [images?.sort(...).find(img => img.is_primary) || images?.[0]]. *)
Definition primary_image (imgs : list Image.Row) : option Image.Row :=
  let sorted := sort_by by_sort_order imgs in
  match find (fun i => is_true (Image.is_primary (Image.payload i))) sorted with
  | Some i => Some i
  | None => hd_error sorted
  end.

Definition primary_image_url (imgs : list Image.Row) : option jsstring :=
  option_map (fun i => Image.url (Image.payload i)) (primary_image imgs).

(** [pricing?.[0]?.base_price ?? pricing?.base_price]. *)
Definition price_per_day (e : Embedded Pricing.Row) : option Z :=
  option_map (fun r => Pricing.base_price (Pricing.payload r)) (first_or_null e).

Definition fleet_row (j : Joined) : FleetCar :=
  {| fc_id := Car.id (j_car j);
     fc_slug := Car.slug (j_car j);
     fc_name := Car.name (j_car j);
     fc_category := Car.category (j_car j);
     fc_shortDescription := Car.short_description (j_car j);
     fc_isFeatured := Car.featured (j_car j);
     fc_primaryImageUrl := primary_image_url (j_images j);
     fc_pricePerDay := price_per_day (j_pricing j) |}.

Definition related_row (j : Joined) : RelatedCar :=
  {| rc_id := Car.id (j_car j);
     rc_slug := Car.slug (j_car j);
     rc_name := Car.name (j_car j);
     rc_category := Car.category (j_car j);
     rc_primaryImageUrl := primary_image_url (j_images j);
     rc_pricePerDay := price_per_day (j_pricing j) |}.

(** ** carServiceSupabase *)

Section Service.

Variable toLowerCase : jsstring -> jsstring.

(** [handleSupabaseError] of lib/supabase/client, the error translator. *)
Variable handleSupabaseError : Exn -> jsstring.

(** The [catch] at the boundary of every public operation. *)
Definition translate {A} (fallback : string) (e : Exn) : M A :=
  if instanceof_Error e then throw (JsError (handleSupabaseError e))
  else throw (JsError (lit fallback)).

Definition getCarById (id : ID) : M (option AppCar) :=
  try_catch
    (r <- request (ReqSelect TCars)
                  (query (fun d => maybe_single (select_by_id id d))) ;;
     match error r with
     | Some carError => throw (StoreExn carError)
     | None =>
         match data r with
         | None => ret None
         | Some carData => ret (Some (assemble carData))
         end
     end)
    (fun e =>
       console_error "Error in getCarById:" (Some e) ;;
       translate "An unexpected error occurred fetching car by ID" e).

Definition getCarBySlug (slug : jsstring) : M (option AppCar) :=
  try_catch
    (r <- request (ReqSelect TCars)
                  (query (fun d => maybe_single (select_by_slug slug d))) ;;
     match error r with
     | Some carError => throw (StoreExn carError)
     | None =>
         match data r with
         | None => ret None
         | Some carData => ret (Some (assemble carData))
         end
     end)
    (fun e =>
       console_error "Error in getCarBySlug:" (Some e) ;;
       translate "An unexpected error occurred fetching car by slug" e).

Definition getVisibleCarsForFleet : M (list FleetCar) :=
  try_catch
    (r <- request (ReqSelect TCars) (query (fun d => ok (select_fleet d))) ;;
     match error r with
     | Some e =>
         console_error "Error in getVisibleCarsForFleet Query:"
                       (Some (StoreExn e)) ;;
         throw (StoreExn e)
     | None =>
         match data r with
         | Some rows => ret (map fleet_row rows)
         | None =>
             throw (JsError (lit "Cannot read properties of null (reading 'map')"))
         end
     end)
    (fun e =>
       console_error "Error in getVisibleCarsForFleet:" (Some e) ;;
       translate "An unexpected error occurred fetching visible cars for fleet"
                 e).

Definition baseCarPayload (carData : Upsert.t) (userId : field ID)
  : CarInsert.t :=
  {| CarInsert.name := Upsert.name carData;
     CarInsert.slug := generateSlug toLowerCase (Upsert.name carData);
     CarInsert.category := Upsert.category carData;
     CarInsert.description := nullish (Upsert.description carData) (lit "");
     CarInsert.short_description := Upsert.short_description carData;
     CarInsert.available := nullish (Upsert.available carData) true;
     CarInsert.featured := nullish (Upsert.featured carData) false;
     CarInsert.hidden := nullish (Upsert.hidden carData) false;
     CarInsert.created_by := to_column userId |}.

Definition is_empty {A} (l : list A) : bool :=
  match l with
  | [] => true
  | _ :: _ => false
  end.

(** The [try] block of [createCar]: the four related inserts in sequence. *)
Definition insertRelated (newCar : Car.Row) (carData : Upsert.t) : M AppCar :=
  let carId := Car.id newCar in
  pricingResult <-
    match Upsert.pricing carData with
    | Some p =>
        r <- request (ReqInsertPricing carId p) (write (insert_pricing carId p)) ;;
        match error r with
        | Some e =>
            throw (JsError (lit "Pricing insert failed: " ++ message e))
        | None => ret (data r)
        end
    | None => ret None
    end ;;
  imagesResult <-
    (if is_empty (Upsert.images carData) then ret []
     else
       r <- request (ReqInsertImages carId (Upsert.images carData))
                    (write (insert_images carId (Upsert.images carData))) ;;
       match error r with
       | Some e => throw (JsError (lit "Images insert failed: " ++ message e))
       | None => ret (or_default (data r) [])
       end) ;;
  featuresResult <-
    (if is_empty (Upsert.features carData) then ret []
     else
       r <- request (ReqInsertFeatures carId (Upsert.features carData))
                    (write (insert_features carId (Upsert.features carData))) ;;
       match error r with
       | Some e => throw (JsError (lit "Features insert failed: " ++ message e))
       | None => ret (or_default (data r) [])
       end) ;;
  specsResult <-
    (if is_empty (Upsert.specifications carData) then ret []
     else
       r <- request (ReqInsertSpecifications carId
                                             (Upsert.specifications carData))
                    (write (insert_specifications carId
                                           (Upsert.specifications carData))) ;;
       match error r with
       | Some e =>
           throw (JsError (lit "Specifications insert failed: " ++ message e))
       | None => ret (or_default (data r) [])
       end) ;;
  ret {| base := newCar;
         pricing := pricingResult;
         images := sort_images imagesResult;
         features := featuresResult;
         specifications := specsResult |}.

(** The [catch] block of [createCar]. *)
Definition createCarCleanup (carId : ID) (e : Exn) : M AppCar :=
  console_error "Error inserting related data, attempting cleanup for car:"
                (Some e) ;;
  _ <- request (ReqDeleteCar carId) (write (delete_car carId)) ;;
  translate "An unexpected error occurred creating related car data." e.

Definition createCar (carData : Upsert.t) (userId : field ID) : M AppCar :=
  if is_empty (Upsert.name carData)
  then throw (JsError (lit "Car name is required to create a car."))
  else
    r <- request (ReqInsertCar (baseCarPayload carData userId))
                 (write (insert_car (baseCarPayload carData userId))) ;;
    match error r, data r with
    | None, Some newCar =>
        try_catch (insertRelated newCar carData)
                  (createCarCleanup (Car.id newCar))
    | carError, _ =>
        console_error "Error creating base car:"
                      (option_map StoreExn carError) ;;
        match carError with
        | Some e => throw (StoreExn e)
        | None => throw (JsError (lit "Failed to create car: No data returned."))
        end
    end.

(** A nullable field of an update: [null] is turned into [undefined], and
    the key is assigned either way. *)
Definition assigned {A} (x : field A) : option (field A) :=
  match x with
  | Undefined => None
  | Null => Some Undefined
  | Val v => Some (Val v)
  end.

Definition baseCarUpdatePayload (updates : Patch.t) : CarUpdate.t :=
  {| CarUpdate.name := option_map Val (Patch.name updates);
     CarUpdate.slug :=
       option_map (fun n => Val (generateSlug toLowerCase n))
                  (Patch.name updates);
     CarUpdate.category := option_map Val (Patch.category updates);
     CarUpdate.description := assigned (Patch.description updates);
     CarUpdate.short_description := assigned (Patch.short_description updates);
     CarUpdate.available := assigned (Patch.available updates);
     CarUpdate.featured := assigned (Patch.featured updates);
     CarUpdate.hidden := assigned (Patch.hidden updates) |}.

Definition key {A} (k : option A) : nat :=
  match k with
  | Some _ => 1
  | None => 0
  end.

(** [Object.keys(payload).length]. *)
Definition keys_length (p : CarUpdate.t) : nat :=
  (key (CarUpdate.name p) + key (CarUpdate.slug p) + key (CarUpdate.category p) +
   key (CarUpdate.description p) + key (CarUpdate.short_description p) +
   key (CarUpdate.available p) + key (CarUpdate.featured p) +
   key (CarUpdate.hidden p))%nat.

Definition has_path (paths : list (option jsstring)) (p : option jsstring)
  : bool :=
  existsb (fun q => same_path q p) paths.

(** [.map(img => img.path).filter(Boolean)]. *)
Definition truthy_paths (imgs : list Image.Row) : list jsstring :=
  flat_map (fun i => match Image.path (Image.payload i) with
                     | Some (c :: s) => [c :: s]
                     | _ => []
                     end) imgs.

(** Step 3 of an update: reconcile the image rows by [path]. *)
Definition reconcileImages (carId : ID) (incoming : list Image.Insert) : M unit :=
  r <- request (ReqSelect TImages)
               (query (fun d => ok (select_images_of carId d))) ;;
  match error r with
  | Some fetchErr =>
      throw (JsError (lit "Failed to fetch existing images: " ++ message fetchErr))
  | None =>
      let existingImages := or_default (data r) [] in
      let incomingImagePaths := map Image.path incoming in
      let imagesToDelete :=
        filter (fun img =>
                  truthy_string (Image.path (Image.payload img)) &&
                  negb (has_path incomingImagePaths
                                 (Image.path (Image.payload img))))
               existingImages in
      (if is_empty imagesToDelete then ret tt
       else
         let pathsToDelete := truthy_paths imagesToDelete in
         let idsToDelete := map Image.id imagesToDelete in
         (if is_empty pathsToDelete then ret tt
          else
            s <- request (ReqStorageRemove pathsToDelete)
                         (remove_objects pathsToDelete) ;;
            match error s with
            | Some storageError =>
                console_error "Error deleting images from storage:"
                              (Some (StoreExn storageError))
            | None => ret tt
            end) ;;
         x <- request (ReqDeleteImagesIn idsToDelete)
                      (write (delete_images_in idsToDelete)) ;;
         match error x with
         | Some dbDeleteError =>
             throw (JsError (lit "Failed to delete images from DB: "
                             ++ message dbDeleteError))
         | None => ret tt
         end) ;;
      (if is_empty incoming then ret tt
       else
         u <- request (ReqUpsertImages carId incoming)
                      (write (upsert_images carId incoming)) ;;
         match error u with
         | Some upsertError =>
             throw (JsError (lit "Failed to upsert images: "
                             ++ message upsertError))
         | None => ret tt
         end)
  end.

Definition replaceFeatures (carId : ID) (incoming : list Attrs) : M unit :=
  r <- request (ReqDeleteOf TFeatures carId) (write (delete_of TFeatures carId)) ;;
  match error r with
  | Some deleteError =>
      throw (JsError (lit "Failed to delete old features: " ++ message deleteError))
  | None =>
      if is_empty incoming then ret tt
      else
        i <- request (ReqInsertFeatures carId incoming)
                     (write (insert_features carId incoming)) ;;
        match error i with
        | Some insertError =>
            throw (JsError (lit "Failed to insert new features: "
                            ++ message insertError))
        | None => ret tt
        end
  end.

Definition replaceSpecifications (carId : ID) (incoming : list Attrs) : M unit :=
  r <- request (ReqDeleteOf TSpecifications carId)
               (write (delete_of TSpecifications carId)) ;;
  match error r with
  | Some deleteError =>
      throw (JsError (lit "Failed to delete old specifications: "
                      ++ message deleteError))
  | None =>
      if is_empty incoming then ret tt
      else
        i <- request (ReqInsertSpecifications carId incoming)
                     (write (insert_specifications carId incoming)) ;;
        match error i with
        | Some insertError =>
            throw (JsError (lit "Failed to insert new specifications: "
                            ++ message insertError))
        | None => ret tt
        end
  end.

Definition upsertPricing (carId : ID) (p : Pricing.Insert) : M unit :=
  r <- request (ReqUpsertPricing carId p) (write (upsert_pricing carId p)) ;;
  match error r with
  | Some e => throw (JsError (lit "Pricing update/insert failed: " ++ message e))
  | None => ret tt
  end.

Definition if_present {A} (x : option A) (f : A -> M unit) : M unit :=
  match x with
  | Some a => f a
  | None => ret tt
  end.

(** The [try] block of [updateCar]. *)
Definition updateRelated (carId : ID) (updates : Patch.t) : M unit :=
  if_present (Patch.pricing updates) (upsertPricing carId) ;;
  if_present (Patch.images updates) (reconcileImages carId) ;;
  if_present (Patch.features updates) (replaceFeatures carId) ;;
  if_present (Patch.specifications updates) (replaceSpecifications carId).

Definition updateBase (carId : ID) (updates : Patch.t) : M unit :=
  let payload := baseCarUpdatePayload updates in
  if (0 <? keys_length payload)%nat
  then
    r <- request (ReqUpdateCar carId payload) (write (update_car carId payload)) ;;
    match error r with
    | Some updateError =>
        console_error "Error updating base car:" (Some (StoreExn updateError)) ;;
        throw (StoreExn updateError)
    | None => ret tt
    end
  else ret tt.

Definition updateCar (carId : ID) (updates : Patch.t) : M AppCar :=
  updateBase carId updates ;;
  try_catch
    (updateRelated carId updates)
    (fun e =>
       console_error "Error updating related car data:" (Some e) ;;
       translate "An unexpected error occurred updating related car data." e) ;;
  updatedCar <- getCarById carId ;;
  match updatedCar with
  | Some car => ret car
  | None =>
      throw (JsError (lit "Failed to fetch updated car " ++ id_text carId
                      ++ lit " after update."))
  end.

(** Step 2 of a delete: the four deletes of the related rows, joined. *)
Definition deleteRelated (carId : ID) : M (list (Reply unit)) :=
  try_catch
    (promise_all
       [ request (ReqDeleteOf TPricing carId) (write (delete_of TPricing carId));
         request (ReqDeleteOf TFeatures carId)
                 (write (delete_of TFeatures carId));
         request (ReqDeleteOf TSpecifications carId)
                 (write (delete_of TSpecifications carId));
         request (ReqDeleteOf TImages carId) (write (delete_of TImages carId)) ])
    (fun e =>
       console_error "Error deleting related car data:" (Some e) ;;
       throw e).

(** Step 4 of a delete: the stored objects, best effort. *)
Definition deleteStoredImages (imagePathsToDelete : list jsstring) : M unit :=
  if is_empty imagePathsToDelete then ret tt
  else
    s <- request (ReqStorageRemove imagePathsToDelete)
                 (remove_objects imagePathsToDelete) ;;
    match error s with
    | Some storageError =>
        console_error "Error deleting images from storage after DB deletion:"
                      (Some (StoreExn storageError))
    | None => ret tt
    end.

Definition deleteCar (carId : ID) : M bool :=
  try_catch
    (r <- request (ReqSelect TImages)
                  (query (fun d => ok (select_images_of carId d))) ;;
     match error r with
     | Some imgError =>
         console_error "Failed to fetch images for deletion:"
                       (Some (StoreExn imgError)) ;;
         throw (StoreExn imgError)
     | None =>
         let imagesToDelete := or_default (data r) [] in
         let imagePathsToDelete := truthy_paths imagesToDelete in
         _ <- deleteRelated carId ;;
         c <- request (ReqDeleteCar carId) (write (delete_car carId)) ;;
         match error c with
         | Some carDeleteError =>
             console_error "Error deleting main car record:"
                           (Some (StoreExn carDeleteError)) ;;
             throw (StoreExn carDeleteError)
         | None =>
             deleteStoredImages imagePathsToDelete ;;
             ret true
         end
     end)
    (fun e =>
       console_error_text (lit "Error deleting car " ++ id_text carId ++ lit ":")
                          (Some e) ;;
       translate "An unexpected error occurred deleting car" e).

Definition select_category (car : ID) (d : Db) : list (option jsstring) :=
  map Car.category (filter (fun c => Car.id c =? car) (cars d)).

Definition getRelatedCars (carId : ID) (limit : option nat)
  : M (list RelatedCar) :=
  let limit := or_default limit 3%nat in
  try_catch
    (r <- request (ReqSelect TCars)
                  (query (fun d => maybe_single (select_category carId d))) ;;
     match error r with
     | Some carError =>
         console_error "Error fetching current car category for related cars:"
                       (Some (StoreExn carError)) ;;
         throw (StoreExn carError)
     | None =>
         let category := match data r with
                         | Some (Some cat) => cat
                         | _ => []
                         end in
         if is_empty category then ret []
         else
           q <- request (ReqSelect TCars)
                        (query (fun d =>
                                  ok (select_related category carId limit d))) ;;
           match error q with
           | Some relatedError =>
               console_error "Error fetching related car details:"
                             (Some (StoreExn relatedError)) ;;
               throw (StoreExn relatedError)
           | None =>
               match data q with
               | Some relatedCars => ret (map related_row relatedCars)
               | None => ret []
               end
           end
     end)
    (fun e =>
       console_error "Error fetching related cars:" (Some e) ;;
       translate "An unexpected error occurred fetching related cars" e).

End Service.

(** ** carServiceSupabase: the base accessors and the other listings *)

(** A row of the admin list. *)
Record AdminCar := {
  ac_id : ID;
  ac_slug : jsstring;
  ac_name : jsstring;
  ac_category : option jsstring;
  ac_available : option bool;
  ac_featured : option bool;
  ac_hidden : option bool;
  ac_created_at : Z;
  ac_primary_image_url : option jsstring;
  ac_price_per_day : option Z
}.

Definition select_base_by_id (x : ID) (d : Db) : list Car.Row :=
  filter (fun c => Car.id c =? x) (cars d).

Definition select_base_by_slug (s : jsstring) (d : Db) : list Car.Row :=
  filter (fun c => jsstring_eqb (Car.slug c) s) (cars d).

(** [.order("created_at", { ascending: false })]. *)
Definition newest_first (a b : Car.Row) : bool :=
  Car.created_at b <=? Car.created_at a.

Definition select_admin (d : Db) : list Joined :=
  map (join d) (sort_by newest_first (cars d)).

Definition select_visible_categories (d : Db) : list (option jsstring) :=
  map Car.category (filter visible (cars d)).

Definition admin_row (j : Joined) : AdminCar :=
  {| ac_id := Car.id (j_car j);
     ac_slug := Car.slug (j_car j);
     ac_name := Car.name (j_car j);
     ac_category := Car.category (j_car j);
     ac_available := Car.available (j_car j);
     ac_featured := Car.featured (j_car j);
     ac_hidden := Car.hidden (j_car j);
     ac_created_at := Car.created_at (j_car j);
     ac_primary_image_url := primary_image_url (j_images j);
     ac_price_per_day := price_per_day (j_pricing j) |}.

(** [categories.filter(Boolean)]: [null] and [""] go. *)
Definition truthy_strings (l : list (option jsstring)) : list jsstring :=
  flat_map (fun x => match x with
                     | Some (c :: s) => [c :: s]
                     | _ => []
                     end) l.

(** [Array.from(new Set(l))]: the first occurrence of each value, in the
    order of insertion. *)
Fixpoint unique_from (seen l : list jsstring) : list jsstring :=
  match l with
  | [] => []
  | x :: l' =>
      if existsb (jsstring_eqb x) seen then unique_from seen l'
      else x :: unique_from (x :: seen) l'
  end.

Definition unique (l : list jsstring) : list jsstring := unique_from [] l.

(** The order of [Array.prototype.sort] without a comparator: strings by
    their code units, a proper prefix first. *)
Fixpoint jsstring_leb (a b : jsstring) : bool :=
  match a, b with
  | [], _ => true
  | _ :: _, [] => false
  | x :: a', y :: b' => (x <? y) || ((x =? y) && jsstring_leb a' b')
  end.

Section ServiceListings.

Variable handleSupabaseError : Exn -> jsstring.

(** The [catch] of the base accessors: it translates and does not log. *)
Definition _getBaseCarById (id : ID) : M (option Car.Row) :=
  try_catch
    (r <- request (ReqSelect TCars)
                  (query (fun d => maybe_single (select_base_by_id id d))) ;;
     match error r with
     | Some e => throw (StoreExn e)
     | None => ret (data r)
     end)
    (translate handleSupabaseError
               "An unexpected error occurred fetching base car by ID").

Definition _getBaseCarBySlug (slug : jsstring) : M (option Car.Row) :=
  try_catch
    (r <- request (ReqSelect TCars)
                  (query (fun d => maybe_single (select_base_by_slug slug d))) ;;
     match error r with
     | Some e => throw (StoreExn e)
     | None => ret (data r)
     end)
    (translate handleSupabaseError
               "An unexpected error occurred fetching base car by slug").

Definition getAllCarsForAdminList : M (list AdminCar) :=
  try_catch
    (r <- request (ReqSelect TCars) (query (fun d => ok (select_admin d))) ;;
     match error r with
     | Some e =>
         console_error "Error in getAllCarsForAdminList Query:"
                       (Some (StoreExn e)) ;;
         throw (StoreExn e)
     | None =>
         match data r with
         | Some rows => ret (map admin_row rows)
         | None =>
             throw (JsError (lit "Cannot read properties of null (reading 'map')"))
         end
     end)
    (fun e =>
       console_error "Error in getAllCarsForAdminList:" (Some e) ;;
       translate handleSupabaseError
                 "An unexpected error occurred fetching cars for admin list" e).

Definition getCategories : M (list jsstring) :=
  try_catch
    (r <- request (ReqSelect TCars)
                  (query (fun d => ok (select_visible_categories d))) ;;
     match error r with
     | Some e => throw (StoreExn e)
     | None =>
         match data r with
         | None => ret []
         | Some rows =>
             ret (sort_by jsstring_leb (unique (truthy_strings rows)))
         end
     end)
    (fun e =>
       console_error "Error fetching categories:" (Some e) ;;
       translate handleSupabaseError
                 "An unexpected error occurred fetching categories" e).

End ServiceListings.

(** ** Sample data *)

(** A host whose case mapping only touches the ASCII letters. *)
Definition ascii_toLowerCase (s : jsstring) : jsstring := map ascii_lower s.

(** An error translator that passes the message through. *)
Definition plain_message (e : Exn) : jsstring :=
  match e with
  | JsError m => m
  | StoreExn e => message e
  end.

Definition empty_db : Db :=
  {| cars := []; car_pricing := []; car_images := []; car_features := [];
     car_specifications := []; next_id := 1; clock := 100;
     pricing_one_to_one := false |}.

Definition world_of (d : Db) (script : list (option StoreError)) : World :=
  {| db := d; bucket := []; console := []; calls := []; faults := script |}.

Definition refused (text : string) : StoreError :=
  {| message := lit text; is_Error_instance := false |}.

Definition tesla : Upsert.t :=
  {| Upsert.name := lit "Tesla Model S!!";
     Upsert.category := lit "electric";
     Upsert.description := Null;
     Upsert.short_description := Undefined;
     Upsert.available := Undefined;
     Upsert.featured := Val true;
     Upsert.hidden := Null;
     Upsert.pricing := Some {| Pricing.base_price := 900; Pricing.attrs := [] |};
     Upsert.images := [];
     Upsert.features := [[(lit "seats", lit "5")]];
     Upsert.specifications := [] |}.

Definition nameless : Upsert.t :=
  {| Upsert.name := lit "";
     Upsert.category := lit "electric";
     Upsert.description := Val (lit "no name");
     Upsert.short_description := Undefined;
     Upsert.available := Undefined;
     Upsert.featured := Undefined;
     Upsert.hidden := Undefined;
     Upsert.pricing := None;
     Upsert.images := [];
     Upsert.features := [];
     Upsert.specifications := [] |}.

(** The root insert and the pricing insert go through, the features insert
    is refused, and so is the clean-up that follows. *)
Definition features_then_cleanup_refused : list (option StoreError) :=
  [None; None; Some (refused "features table is read-only");
   Some (refused "cars table is locked")].

(** The labels of the four related inserts of a create. *)
Definition related_labels : list string :=
  ["Pricing insert failed: "; "Images insert failed: ";
   "Features insert failed: "; "Specifications insert failed: "]%string.

Definition tesla_world : World := world_of empty_db features_then_cleanup_refused.

(** A small garage. *)
Definition car_row (i : ID) (nm sl cat : string) (av ft hd : option bool)
  (at_ : Z) : Car.Row :=
  {| Car.id := i; Car.slug := lit sl; Car.name := lit nm;
     Car.category := Some (lit cat); Car.description := Some (lit "A car.");
     Car.short_description := Some (lit "Car");
     Car.available := av; Car.featured := ft; Car.hidden := hd;
     Car.created_at := at_; Car.created_by := None |}.

Definition image_row (i car : ID) (p : option string) (primary : option bool)
  (order : option Z) : Image.Row :=
  {| Image.id := i; Image.car_id := car;
     Image.payload :=
       {| Image.url := lit "https://img.example/" ++ id_text i;
          Image.path := option_map lit p;
          Image.is_primary := primary;
          Image.sort_order := order |} |}.

Definition model_s : Car.Row :=
  car_row 1 "Tesla Model S" "tesla-model-s" "electric"
          (Some true) (Some false) (Some false) 10.
Definition r1t : Car.Row :=
  car_row 2 "Rivian R1T" "rivian-r1t" "electric"
          (Some true) (Some true) (Some false) 5.
Definition roadster : Car.Row :=
  car_row 3 "Roadster" "roadster" "electric"
          (Some true) (Some true) (Some false) 7.
Definition prototype : Car.Row :=
  car_row 4 "Prototype" "prototype" "electric"
          (Some true) (Some true) (Some true) 8.
Definition in_repair : Car.Row :=
  car_row 5 "In Repair" "in-repair" "electric"
          (Some false) (Some false) (Some false) 9.
Definition f150 : Car.Row :=
  car_row 6 "F-150" "f-150" "truck" (Some true) None (Some false) 1.

Definition garage : Db :=
  {| cars := [model_s; r1t; roadster; prototype; in_repair; f150];
     car_pricing :=
       [{| Pricing.id := 10; Pricing.car_id := 1;
           Pricing.payload := {| Pricing.base_price := 900;
                                 Pricing.attrs := [] |} |}];
     car_images :=
       [image_row 20 1 (Some "cars/1/a.png"%string) None (Some 2);
        image_row 21 1 (Some "cars/1/b.png"%string) None (Some 0);
        image_row 22 1 (Some "cars/1/c.png"%string) (Some true) (Some 1);
        image_row 30 2 (Some "cars/2/a.png"%string) None None;
        image_row 31 2 None None (Some 1)];
     car_features :=
       [{| Feature.id := 40; Feature.car_id := 1;
           Feature.payload := [(lit "seats", lit "5")] |}];
     car_specifications :=
       [{| Specification.id := 50; Specification.car_id := 1;
           Specification.payload := [(lit "range", lit "600 km")] |}];
     next_id := 100; clock := 1000; pricing_one_to_one := false |}.

Definition garage_world (script : list (option StoreError)) : World :=
  {| db := garage;
     bucket := [lit "cars/1/a.png"; lit "cars/1/b.png"; lit "cars/1/c.png";
                lit "cars/2/a.png"];
     console := []; calls := []; faults := script |}.

(** The image rows are read, then the delete of the pricing rows is
    refused; every other call goes through. *)
Definition pricing_delete_refused : list (option StoreError) :=
  [None; Some (refused "car_pricing is locked")].

(** [{ short_description: null, featured: true }]. *)
Definition clear_short_description : Patch.t :=
  {| Patch.name := None; Patch.category := None;
     Patch.description := Undefined; Patch.short_description := Null;
     Patch.available := Undefined; Patch.featured := Val true;
     Patch.hidden := Undefined; Patch.pricing := None; Patch.images := None;
     Patch.features := None; Patch.specifications := None |}.

(** [{ images: [] }]. *)
Definition no_images : Patch.t :=
  {| Patch.name := None; Patch.category := None;
     Patch.description := Undefined; Patch.short_description := Undefined;
     Patch.available := Undefined; Patch.featured := Undefined;
     Patch.hidden := Undefined; Patch.pricing := None; Patch.images := Some [];
     Patch.features := None; Patch.specifications := None |}.

(** A field of a patch that is omitted or [null]. *)
Definition not_given {A} (x : field A) : Prop := x = Undefined \/ x = Null.

Definition returned {A} (o : Outcome A) : bool :=
  match o with
  | Return _ => true
  | Throw _ => false
  end.

(** The image rows are read, the bucket refuses the removal, the rows are
    removed. *)
Definition bucket_offline : list (option StoreError) :=
  [None; Some (refused "bucket offline"); None].

(** ** Vocabulary of the properties *)

(** A relation between the world before and after that every step of a
    computation respects. *)
Class Frame (R : World -> World -> Prop) := {
  frame_refl : forall w, R w w;
  frame_trans : forall a b c, R a b -> R b c -> R a c;
  frame_log : forall l w, R w (record_log l w);
  frame_call : forall r w, R w (record_call r w);
  frame_faults : forall f w, R w (set_faults f w)
}.

Definition respects {A} (R : World -> World -> Prop) (m : M A) : Prop :=
  forall w, R w (snd (m w)).

(** The frames in use: a table that stays as it is, and the trace of calls,
    which only grows. *)
Definition same {X} (proj : Db -> X) (w w' : World) : Prop :=
  proj (db w') = proj (db w).

Definition grows (w w' : World) : Prop :=
  exists l, calls w' = calls w ++ l.

(** A table that only loses rows. *)
Definition within {X} (proj : Db -> list X) (w w' : World) : Prop :=
  incl (proj (db w')) (proj (db w)).

(** The script between two worlds held no refusal, or held [e] as its
    first one. *)
Definition quiet (w w' : World) : Prop :=
  exists pre, faults w = pre ++ faults w' /\ Forall (eq None) pre.

Definition first_refusal (w w' : World) (e : StoreError) : Prop :=
  exists pre, faults w = pre ++ Some e :: faults w' /\ Forall (eq None) pre.

(** What the steps of an update after the images leave alone: the image
    rows stay, the trace and the console only grow. *)
Definition after_images (w w' : World) : Prop :=
  car_images (db w') = car_images (db w) /\
  (exists l, calls w' = calls w ++ l) /\
  (exists l, console w' = console w ++ l).

(** What one of the related inserts of a create does with the script. *)
Definition related_insert_spec {A} (m : M A) : Prop :=
  forall w,
    match m w with
    | (Return _, w') => quiet w w'
    | (Throw err, w') =>
        exists e label,
          first_refusal w w' e /\ In label related_labels /\
          err = JsError (lit label ++ message e)
    end.

(** A computation that resolves after [n] calls and leaves the cars alone. *)
Definition resolves_in {A} (n : nat) (m : M A) : Prop :=
  forall w, exists a w',
    m w = (Return a, w') /\ faults w' = skipn n (faults w) /\
    cars (db w') = cars (db w).

(** What an update leaves of the cars table: the table as it was, or the
    table with the patch applied to the rows of the car. *)
Definition patched (toLowerCase : jsstring -> jsstring) (carId : ID)
  (updates : Patch.t) (l : list Car.Row)
  : list Car.Row :=
  map (fun r => if Car.id r =? carId
                then apply_update (baseCarUpdatePayload toLowerCase updates) r
                else r) l.

(** The image rows of a car that hold a stored path: what an empty images
    patch removes. *)
Definition has_stored_path (img : Image.Row) : bool :=
  truthy_string (Image.path (Image.payload img)).

Definition stale_images (carId : ID) (d : Db) : list Image.Row :=
  filter has_stored_path (select_images_of carId d).

(** Featured cars come before the others, and among cars with the same
    flag the newer one comes first. *)
Definition fleet_precedes (a b : Car.Row) : Prop :=
  ~ (Car.featured a = Some false /\ Car.featured b = Some true) /\
  (Car.featured a = Car.featured b -> Car.created_at b <= Car.created_at a).

(** An image flagged as the primary one. *)
Definition flagged (i : Image.Row) : bool :=
  is_true (Image.is_primary (Image.payload i)).

(** A call that writes nothing: tables and bucket are as before. *)
Definition untouched (w w' : World) : Prop :=
  db w' = db w /\ bucket w' = bucket w.

(** What a failed store call turns into at the boundary of an operation. *)
Definition surfaced (h : Exn -> jsstring) (fallback : string) (e : StoreError)
  : Exn :=
  JsError (if is_Error_instance e then h (StoreExn e) else lit fallback).

(** A world whose script holds no refusal: every call to come goes through. *)
Definition calm (w : World) : Prop := Forall (eq None) (faults w).

(** What the four related inserts of a create write and return when they go
    through, one table after the other. *)
Definition pricing_inserted (carId : ID) (carData : Upsert.t) (d : Db)
  : option Pricing.Row * Db :=
  match Upsert.pricing carData with
  | Some p => (Some (fst (insert_pricing carId p d)), snd (insert_pricing carId p d))
  | None => (None, d)
  end.

Definition images_inserted (carId : ID) (carData : Upsert.t) (d : Db)
  : list Image.Row * Db :=
  if is_empty (Upsert.images carData) then ([], d)
  else insert_images carId (Upsert.images carData) d.

Definition features_inserted (carId : ID) (carData : Upsert.t) (d : Db)
  : list Feature.Row * Db :=
  if is_empty (Upsert.features carData) then ([], d)
  else insert_features carId (Upsert.features carData) d.

Definition specifications_inserted (carId : ID) (carData : Upsert.t) (d : Db)
  : list Specification.Row * Db :=
  if is_empty (Upsert.specifications carData) then ([], d)
  else insert_specifications carId (Upsert.specifications carData) d.

Definition related_inserted (newCar : Car.Row) (carData : Upsert.t) (d : Db)
  : AppCar * Db :=
  let carId := Car.id newCar in
  let '(p, d1) := pricing_inserted carId carData d in
  let '(i, d2) := images_inserted carId carData d1 in
  let '(f, d3) := features_inserted carId carData d2 in
  let '(s, d4) := specifications_inserted carId carData d3 in
  ({| base := newCar; pricing := p; images := sort_images i; features := f;
      specifications := s |}, d4).

(** The identifier the store hands out next is above every identifier in
    use: that of a car, and that a related row refers to. *)
Definition fresh (d : Db) : Prop :=
  Forall (fun c => Car.id c < next_id d) (cars d) /\
  Forall (fun r => Pricing.car_id r < next_id d) (car_pricing d) /\
  Forall (fun r => Image.car_id r < next_id d) (car_images d) /\
  Forall (fun r => Feature.car_id r < next_id d) (car_features d) /\
  Forall (fun r => Specification.car_id r < next_id d) (car_specifications d).

Definition option_list {A} (x : option A) : list A :=
  match x with
  | Some a => [a]
  | None => []
  end.

(** A computation that only ever throws [Error] instances. *)
Definition throws_errors {A} (m : M A) : Prop :=
  forall w e w', m w = (Throw e, w') -> instanceof_Error e = true.

(** [{ name: "Model S Plaid" }]. *)
Definition rename_plaid : Patch.t :=
  {| Patch.name := Some (lit "Model S Plaid"); Patch.category := None;
     Patch.description := Undefined; Patch.short_description := Undefined;
     Patch.available := Undefined; Patch.featured := Undefined;
     Patch.hidden := Undefined; Patch.pricing := None; Patch.images := None;
     Patch.features := None; Patch.specifications := None |}.

(** [{ featured: true, features: [...] }]. *)
Definition feature_and_promote : Patch.t :=
  {| Patch.name := None; Patch.category := None;
     Patch.description := Undefined; Patch.short_description := Undefined;
     Patch.available := Undefined; Patch.featured := Val true;
     Patch.hidden := Undefined; Patch.pricing := None; Patch.images := None;
     Patch.features := Some [[(lit "autopilot", lit "yes")]];
     Patch.specifications := None |}.

(** The next [n] calls go through. *)
Definition passes (n : nat) (w : World) : Prop :=
  Forall (eq None) (firstn n (faults w)).

(** The tables after the four deletes of the related rows of a car. *)
Definition related_deleted (carId : ID) (d : Db) : Db :=
  snd (delete_of TImages carId
         (snd (delete_of TSpecifications carId
                 (snd (delete_of TFeatures carId
                         (snd (delete_of TPricing carId d))))))).

(** The stored paths of the image rows of a car. *)
Definition stored_paths (carId : ID) (d : Db) : list jsstring :=
  truthy_paths (select_images_of carId d).

(** No row of any table is, or refers to, the car. *)
Definition unknown_car (carId : ID) (d : Db) : Prop :=
  Forall (fun r => Car.id r <> carId) (cars d) /\
  Forall (fun r => Pricing.car_id r <> carId) (car_pricing d) /\
  Forall (fun r => Image.car_id r <> carId) (car_images d) /\
  Forall (fun r => Feature.car_id r <> carId) (car_features d) /\
  Forall (fun r => Specification.car_id r <> carId) (car_specifications d).

(** The bucket gains no object, and loses none that satisfies [P]. *)
Definition keeps (P : jsstring -> Prop) (w w' : World) : Prop :=
  incl (bucket w') (bucket w) /\
  forall p, In p (bucket w) -> P p -> In p (bucket w').

(** The paths an update may not remove: all of them when the patch has no
    images, those of the images it lists otherwise. *)
Definition listed (updates : Patch.t) (p : jsstring) : Prop :=
  match Patch.images updates with
  | None => True
  | Some incoming => In (Some p) (map Image.path incoming)
  end.

(** A reply without an error. *)
Definition answered {A} (r : Reply A) : Prop := error r = None.

(** A computation that, while the store refuses nothing, returns a value
    that satisfies [Q], meets no refusal, and respects [R]. *)
Definition calmly {A} (R : World -> World -> Prop) (Q : A -> Prop) (m : M A)
  : Prop :=
  forall w, calm w ->
    exists a w', m w = (Return a, w') /\ Q a /\ calm w' /\ R w w'.

(** The feature rows of a car, those of the other cars, and the rows a
    list of features is inserted as. *)
Definition features_of (carId : ID) (d : Db) : list Feature.Row :=
  filter (fun r => Feature.car_id r =? carId) (car_features d).

Definition features_of_others (carId : ID) (d : Db) : list Feature.Row :=
  filter (fun r => negb (Feature.car_id r =? carId)) (car_features d).

Definition specifications_of (carId : ID) (d : Db) : list Specification.Row :=
  filter (fun r => Specification.car_id r =? carId) (car_specifications d).

Definition specifications_of_others (carId : ID) (d : Db)
  : list Specification.Row :=
  filter (fun r => negb (Specification.car_id r =? carId))
         (car_specifications d).

(** [{ images: [{ path: 'cars/1/a.png', ... }] }]. *)
Definition keep_first_image : Patch.t :=
  {| Patch.name := None; Patch.category := None;
     Patch.description := Undefined; Patch.short_description := Undefined;
     Patch.available := Undefined; Patch.featured := Undefined;
     Patch.hidden := Undefined; Patch.pricing := None;
     Patch.images :=
       Some [{| Image.url := lit "https://img.example/20";
                Image.path := Some (lit "cars/1/a.png");
                Image.is_primary := Some true;
                Image.sort_order := Some 0 |}];
     Patch.features := None; Patch.specifications := None |}.

(** [{ specifications: [...] }]. *)
Definition respecify : Patch.t :=
  {| Patch.name := None; Patch.category := None;
     Patch.description := Undefined; Patch.short_description := Undefined;
     Patch.available := Undefined; Patch.featured := Undefined;
     Patch.hidden := Undefined; Patch.pricing := None; Patch.images := None;
     Patch.features := None;
     Patch.specifications := Some [[(lit "range", lit "400")]] |}.

(** What the store answers to the [n]-th of the next calls: a call beyond
    the end of the script goes through. *)
Definition answer (n : nat) (w : World) : option StoreError :=
  nth n (faults w) None.

(** What a listing row shows of the images of its car: nothing when the car
    has none; otherwise the url of one of them, the flagged one with the
    least sort order when one is flagged, and the one with the least sort
    order of all when none is. *)
Definition shows_primary_of (imgs : list Image.Row) (url : option jsstring)
  : Prop :=
  (url = None <-> imgs = []) /\
  (imgs <> [] ->
   exists i,
     In i imgs /\ url = Some (Image.url (Image.payload i)) /\
     (forall j, In j imgs -> flagged j = true ->
                flagged i = true /\ sort_key i <= sort_key j) /\
     ((forall j, In j imgs -> flagged j = false) ->
      forall j, In j imgs -> sort_key i <= sort_key j)).

(** * Properties *)

(** ** generateSlug *)

Lemma is_hyphen_eq (c : Z) : is_hyphen c = true -> c = 45.
Proof. unfold is_hyphen. apply Z.eqb_eq. Qed.

Lemma flush_run_Forall (Q : Z -> Prop) (n : nat) (sub run : jsstring) :
  Forall Q run -> Forall Q sub -> Forall Q (flush_run n sub run).
Proof.
  intros Hrun Hsub. unfold flush_run.
  destruct run as [|c run']; [constructor|].
  destruct (n <=? List.length (c :: run'))%nat; assumption.
Qed.

Lemma replace_runs_from_Forall (Q : Z -> Prop) cls n sub :
  Forall Q sub ->
  forall s run, Forall Q run -> Forall Q s ->
  Forall Q (replace_runs_from cls n sub run s).
Proof.
  intros Hsub s. induction s as [|c s IH]; intros run Hrun Hs; simpl.
  - now apply flush_run_Forall.
  - inversion Hs as [|? ? Hc Hs']; subst.
    destruct (cls c).
    + apply IH; [|assumption]. apply Forall_app. split; [assumption|].
      now constructor.
    + apply Forall_app. split; [now apply flush_run_Forall|].
      constructor; [assumption|]. apply IH; [constructor|assumption].
Qed.

Lemma flush_one_empty (run : jsstring) : flush_run 1 [] run = [].
Proof. destruct run; reflexivity. Qed.

Lemma strip_junk_from (s run : jsstring) :
  Forall (fun c => is_junk c = false) (replace_runs_from is_junk 1 [] run s).
Proof.
  revert run. induction s as [|c s IH]; intros run; simpl.
  - rewrite flush_one_empty. constructor.
  - destruct (is_junk c) eqn:Hc.
    + apply IH.
    + rewrite flush_one_empty. simpl. constructor; [assumption|apply IH].
Qed.

Lemma flush_hyphens (run : jsstring) :
  Forall (fun c => is_hyphen c = true) run ->
  flush_run 2 [45] run = [] \/ flush_run 2 [45] run = [45].
Proof.
  intros H. destruct run as [|a [|b run']]; simpl; auto.
  inversion H as [|? ? Ha _]; subst. right. f_equal. now apply is_hyphen_eq.
Qed.

Lemma double_hyphen_app (h t : jsstring) :
  h = [] \/ h = [45] ->
  starts_with_hyphen t = false ->
  has_double_hyphen t = false ->
  has_double_hyphen (h ++ t) = false.
Proof.
  intros [->| ->] Hs Hd; simpl; [assumption|].
  rewrite Hs, Hd. reflexivity.
Qed.

Lemma collapse_hyphens_from (s run : jsstring) :
  Forall (fun c => is_hyphen c = true) run ->
  exists h t,
    replace_runs_from is_hyphen 2 [45] run s = h ++ t /\
    (h = [] \/ h = [45]) /\
    starts_with_hyphen t = false /\
    has_double_hyphen t = false.
Proof.
  revert run. induction s as [|c s IH]; intros run Hrun; simpl.
  - exists (flush_run 2 [45] run), []. rewrite app_nil_r.
    repeat split; auto using flush_hyphens.
  - destruct (is_hyphen c) eqn:Hc.
    + apply IH. apply Forall_app. split; [assumption|]. now constructor.
    + destruct (IH [] (Forall_nil _)) as (h & t & Heq & Hh & Hs & Hd).
      exists (flush_run 2 [45] run), (c :: h ++ t). rewrite Heq.
      repeat split; auto using flush_hyphens.
      simpl. rewrite Hc. simpl. now apply double_hyphen_app.
Qed.

Lemma collapse_hyphens_no_double (s : jsstring) :
  has_double_hyphen (replace_runs is_hyphen 2 (lit "-") s) = false.
Proof.
  unfold replace_runs.
  destruct (collapse_hyphens_from s [] (Forall_nil _)) as (h & t & Heq & Hh & Hs & Hd).
  change (lit "-") with [45]. rewrite Heq. now apply double_hyphen_app.
Qed.

Lemma trim_start_head (s : jsstring) :
  starts_with_hyphen (trim_start is_hyphen s) = false.
Proof.
  induction s as [|c s IH]; simpl; [reflexivity|].
  destruct (is_hyphen c) eqn:Hc; [assumption|]. simpl. assumption.
Qed.

Lemma trim_start_no_double (s : jsstring) :
  has_double_hyphen s = false ->
  has_double_hyphen (trim_start is_hyphen s) = false.
Proof.
  induction s as [|c s IH]; simpl; [reflexivity|]. intros H.
  destruct (is_hyphen c) eqn:Hc.
  - apply IH. apply orb_false_iff in H. tauto.
  - simpl. rewrite Hc. assumption.
Qed.

Lemma trim_start_Forall (Q : Z -> Prop) cls (s : jsstring) :
  Forall Q s -> Forall Q (trim_start cls s).
Proof.
  induction s as [|c s IH]; simpl; intros H; [constructor|].
  destruct (cls c); [|assumption]. inversion H; auto.
Qed.

Lemma trim_end_cons (cls : Z -> bool) (s : jsstring) (z : Z) (l : jsstring) :
  trim_end cls s = z :: l -> exists s', s = z :: s'.
Proof.
  destruct s as [|a s']; simpl; [discriminate|]. intros H. exists s'.
  destruct (trim_end cls s'); [destruct (cls a)|]; congruence.
Qed.

Lemma trim_end_tail (s : jsstring) :
  ends_with_hyphen (trim_end is_hyphen s) = false.
Proof.
  induction s as [|c s IH]; [reflexivity|]. simpl.
  destruct (trim_end is_hyphen s) as [|z l] eqn:Ht.
  - destruct (is_hyphen c) eqn:Hc; simpl; auto.
  - exact IH.
Qed.

Lemma trim_end_head (s : jsstring) :
  starts_with_hyphen s = false ->
  starts_with_hyphen (trim_end is_hyphen s) = false.
Proof.
  destruct s as [|c s]; [reflexivity|]. simpl. intros Hc.
  destruct (trim_end is_hyphen s); [rewrite Hc|]; simpl; auto.
Qed.

Lemma trim_end_no_double (s : jsstring) :
  has_double_hyphen s = false ->
  has_double_hyphen (trim_end is_hyphen s) = false.
Proof.
  induction s as [|c s IH]; [reflexivity|]. simpl. intros H.
  apply orb_false_iff in H. destruct H as [Hcs Hs].
  destruct (trim_end is_hyphen s) as [|z l] eqn:Ht.
  - destruct (is_hyphen c); simpl; auto using andb_false_r.
    now rewrite andb_false_r.
  - destruct (trim_end_cons _ _ _ _ Ht) as [s' ->].
    change (has_double_hyphen (c :: z :: l))
      with ((is_hyphen c && is_hyphen z) || has_double_hyphen (z :: l)).
    simpl in Hcs. rewrite Hcs. simpl. now apply IH.
Qed.

Lemma trim_end_Forall (Q : Z -> Prop) cls (s : jsstring) :
  Forall Q s -> Forall Q (trim_end cls s).
Proof.
  induction s as [|c s IH]; simpl; intros H; [constructor|].
  inversion H as [|? ? Hc Hs]; subst.
  destruct (trim_end cls s) as [|z l].
  - destruct (cls c); repeat constructor; assumption.
  - constructor; auto.
Qed.

Lemma slug_char_of (c : Z) :
  is_upper c = false -> is_junk c = false -> is_slug_char c = true.
Proof.
  unfold is_junk, is_word, is_slug_char. intros Hu Hj. rewrite Hu in Hj.
  apply negb_false_iff in Hj. exact Hj.
Qed.

Lemma ascii_toLowerCase_no_upper (s : jsstring) :
  forallb (fun c => negb (is_upper c)) (ascii_toLowerCase s) = true.
Proof.
  unfold ascii_toLowerCase. induction s as [|c s IH]; simpl; [reflexivity|].
  rewrite IH, andb_true_r. unfold ascii_lower.
  destruct (is_upper c) eqn:Hc; [|now rewrite Hc].
  unfold is_upper, in_range in *.
  apply andb_true_iff in Hc. destruct Hc as [H1 H2].
  apply Z.leb_le in H1. apply Z.leb_le in H2.
  apply negb_true_iff, andb_false_iff. right. apply Z.leb_gt. lia.
Qed.

Section SlugProperties.

Variable toLowerCase : jsstring -> jsstring.

(** The case mapping never yields an ASCII capital, and on ASCII text it is
    the ASCII mapping. *)
Hypothesis toLowerCase_no_upper :
  forall s, forallb (fun c => negb (is_upper c)) (toLowerCase s) = true.
Hypothesis toLowerCase_ascii :
  forall s, forallb is_ascii s = true -> toLowerCase s = map ascii_lower s.

Lemma generateSlug_chars (s : jsstring) :
  Forall (fun c => is_slug_char c = true) (generateSlug toLowerCase s).
Proof.
  unfold generateSlug, replace_runs.
  apply trim_end_Forall, trim_start_Forall.
  apply replace_runs_from_Forall; [repeat constructor|constructor|].
  set (s2 := replace_runs_from is_space 1 (lit "-") [] (toLowerCase s)).
  assert (Hlow : Forall (fun c => is_upper c = false) s2).
  { apply replace_runs_from_Forall; [repeat constructor|constructor|].
    specialize (toLowerCase_no_upper s).
    rewrite forallb_forall in toLowerCase_no_upper.
    apply Forall_forall. intros c Hc.
    now apply negb_true_iff, toLowerCase_no_upper. }
  assert (Hw : Forall (fun c => is_junk c = false)
                      (replace_runs_from is_junk 1 [] [] s2))
    by apply strip_junk_from.
  assert (Hl : Forall (fun c => is_upper c = false)
                      (replace_runs_from is_junk 1 [] [] s2))
    by (apply replace_runs_from_Forall; [constructor|constructor|assumption]).
  change (lit "") with (@nil Z).
  rewrite Forall_forall in *. intros c Hc.
  apply slug_char_of; auto.
Qed.

(** C5: a slug contains only lowercase word characters and hyphens, neither
    starts nor ends with a hyphen, and has no two hyphens in a row; the slug
    of "Tesla Model S!!" is "tesla-model-s". *)
Theorem generateSlug_well_formed :
  (forall s : jsstring,
     forallb is_slug_char (generateSlug toLowerCase s) = true /\
     starts_with_hyphen (generateSlug toLowerCase s) = false /\
     ends_with_hyphen (generateSlug toLowerCase s) = false /\
     has_double_hyphen (generateSlug toLowerCase s) = false) /\
  generateSlug toLowerCase (lit "Tesla Model S!!") = lit "tesla-model-s".
Proof.
  split.
  - intros s. repeat split.
    + apply forallb_forall. apply Forall_forall. apply generateSlug_chars.
    + unfold generateSlug. apply trim_end_head, trim_start_head.
    + unfold generateSlug. apply trim_end_tail.
    + unfold generateSlug.
      apply trim_end_no_double, trim_start_no_double, collapse_hyphens_no_double.
  - unfold generateSlug. rewrite toLowerCase_ascii by reflexivity.
    vm_compute. reflexivity.
Qed.

End SlugProperties.

Lemma generateSlug_well_formed_witness :
  (forall s : jsstring,
     forallb is_slug_char (generateSlug ascii_toLowerCase s) = true /\
     starts_with_hyphen (generateSlug ascii_toLowerCase s) = false /\
     ends_with_hyphen (generateSlug ascii_toLowerCase s) = false /\
     has_double_hyphen (generateSlug ascii_toLowerCase s) = false) /\
  generateSlug ascii_toLowerCase (lit "Tesla Model S!!") = lit "tesla-model-s".
Proof.
  apply (generateSlug_well_formed ascii_toLowerCase).
  - exact ascii_toLowerCase_no_upper.
  - intros s _. reflexivity.
Defined.

(** ** Reasoning about calls *)

Lemma request_failing {A} req (run : World -> Reply A * World) w e rest :
  faults w = Some e :: rest ->
  request req run w = (Return (failed e), set_faults rest (record_call req w)).
Proof. intros H. unfold request, next_fault. simpl. now rewrite H. Qed.

Lemma request_passing {A} req (run : World -> Reply A * World) w rest :
  faults w = None :: rest ->
  request req run w =
  (Return (fst (run (set_faults rest (record_call req w)))),
   snd (run (set_faults rest (record_call req w)))).
Proof.
  intros H. unfold request, next_fault. simpl. rewrite H.
  now destruct (run _).
Qed.

Lemma request_unscripted {A} req (run : World -> Reply A * World) w :
  faults w = [] ->
  request req run w =
  (Return (fst (run (record_call req w))), snd (run (record_call req w))).
Proof.
  intros H. unfold request, next_fault. simpl. rewrite H.
  now destruct (run _).
Qed.

Lemma write_eq {A} (f : Db -> A * Db) w :
  write f w = (ok (fst (f (db w))), set_db (snd (f (db w))) w).
Proof. unfold write. now destruct (f (db w)). Qed.

Lemma request_query {A} req (f : Db -> Reply A) w rest :
  faults w = None :: rest \/ (faults w = [] /\ rest = []) ->
  request req (query f) w =
  (Return (f (db w)), set_faults rest (record_call req w)).
Proof.
  intros [Hf|[Hf ->]].
  - now rewrite (request_passing _ _ _ _ Hf).
  - rewrite request_unscripted by assumption. unfold query. simpl.
    f_equal. destruct w. simpl in *. now subst.
Qed.

Lemma request_write {A} req (f : Db -> A * Db) w rest :
  faults w = None :: rest \/ (faults w = [] /\ rest = []) ->
  request req (write f) w =
  (Return (ok (fst (f (db w)))),
   set_db (snd (f (db w))) (set_faults rest (record_call req w))).
Proof.
  intros [Hf|[Hf ->]].
  - now rewrite (request_passing _ _ _ _ Hf), write_eq.
  - rewrite request_unscripted, write_eq by assumption. simpl.
    f_equal. destruct w. simpl in *. now subst.
Qed.

Lemma bind_return {A B} (m : M A) (f : A -> M B) w a w1 :
  m w = (Return a, w1) -> bind m f w = f a w1.
Proof. intros H. unfold bind. now rewrite H. Qed.

Lemma bind_world {A B} (P : World -> Prop) (m : M A) (k : A -> M B) w :
  (forall a w1, m w = (Return a, w1) -> P (snd (k a w1))) ->
  (forall e w1, m w = (Throw e, w1) -> P w1) ->
  P (snd (bind m k w)).
Proof.
  intros Hr Ht. unfold bind. destruct (m w) as [[a|e] w1].
  - now apply Hr.
  - now apply (Ht e).
Qed.

Lemma try_catch_world {A} (P : World -> Prop) (m : M A) h w :
  (forall a w1, m w = (Return a, w1) -> P w1) ->
  (forall e w1, m w = (Throw e, w1) -> P (snd (h e w1))) ->
  P (snd (try_catch m h w)).
Proof.
  intros Hr Ht. unfold try_catch. destruct (m w) as [[a|e] w1].
  - now apply (Hr a).
  - now apply Ht.
Qed.

Lemma try_catch_return {A} (m : M A) h w a w1 :
  m w = (Return a, w1) -> try_catch m h w = (Return a, w1).
Proof. intros H. unfold try_catch. now rewrite H. Qed.

Lemma try_catch_throw {A} (m : M A) h w e w1 :
  m w = (Throw e, w1) -> try_catch m h w = h e w1.
Proof. intros H. unfold try_catch. now rewrite H. Qed.

Section Frames.

Context (R : World -> World -> Prop) `{Frame R}.

Lemma respects_ret {A} (a : A) : respects R (ret a).
Proof. intros w. apply frame_refl. Qed.

Lemma respects_throw {A} (e : Exn) : respects R (@throw A e).
Proof. intros w. apply frame_refl. Qed.

Lemma respects_bind {A B} (m : M A) (f : A -> M B) :
  respects R m -> (forall a, respects R (f a)) -> respects R (bind m f).
Proof.
  intros Hm Hf w. unfold bind. specialize (Hm w).
  destruct (m w) as [[a|e] w1]; simpl in *; [|assumption].
  eapply frame_trans; [eassumption|apply Hf].
Qed.

Lemma respects_try_catch {A} (m : M A) (h : Exn -> M A) :
  respects R m -> (forall e, respects R (h e)) -> respects R (try_catch m h).
Proof.
  intros Hm Hh w. unfold try_catch. specialize (Hm w).
  destruct (m w) as [[a|e] w1]; simpl in *; [assumption|].
  eapply frame_trans; [eassumption|apply Hh].
Qed.

Lemma respects_console_error_text text cause :
  respects R (console_error_text text cause).
Proof. intros w. apply frame_log. Qed.

Lemma respects_console_error text cause : respects R (console_error text cause).
Proof. apply respects_console_error_text. Qed.

Lemma respects_translate {A} h text e : respects R (@translate h A text e).
Proof.
  unfold translate. destruct (instanceof_Error e); apply respects_throw.
Qed.

Lemma respects_request {A} req (run : World -> Reply A * World) :
  (forall w, R w (snd (run w))) -> respects R (request req run).
Proof.
  intros Hrun w. unfold request, next_fault. simpl.
  destruct (faults w) as [|[e|] rest]; simpl.
  - specialize (Hrun (record_call req w)).
    destruct (run _) as [r w']. simpl in *.
    eapply frame_trans; [apply frame_call|eassumption].
  - eapply frame_trans; [apply frame_call|apply frame_faults].
  - specialize (Hrun (set_faults rest (record_call req w))).
    destruct (run _) as [r w']. simpl in *.
    eapply frame_trans; [apply frame_call|].
    eapply frame_trans; [apply frame_faults|eassumption].
Qed.

Lemma respects_query {A} req (f : Db -> Reply A) :
  respects R (request req (query f)).
Proof. apply respects_request. intros w. apply frame_refl. Qed.

End Frames.

Ltac frame_apply lem :=
  apply lem; try (match goal with |- Frame _ => exact _ end).

#[export] Instance same_Frame {X} (proj : Db -> X) : Frame (same proj).
Proof.
  split; unfold same; intros; simpl; try reflexivity.
  etransitivity; eassumption.
Qed.

#[export] Instance grows_Frame : Frame grows.
Proof.
  split; unfold grows; intros; simpl.
  - exists []. now rewrite app_nil_r.
  - destruct H as [l1 H1], H0 as [l2 H2]. exists (l1 ++ l2).
    now rewrite H2, H1, app_assoc.
  - exists []. now rewrite app_nil_r.
  - now exists [r].
  - exists []. now rewrite app_nil_r.
Qed.

Lemma grows_request {A} req (run : World -> Reply A * World) :
  (forall w, calls (snd (run w)) = calls w) -> respects grows (request req run).
Proof.
  intros Hrun. frame_apply respects_request. intros w. exists [].
  now rewrite app_nil_r, Hrun.
Qed.

Lemma write_calls {A} (f : Db -> A * Db) w : calls (snd (write f w)) = calls w.
Proof. unfold write. now destruct (f (db w)). Qed.

Lemma grows_write {A} req (f : Db -> A * Db) :
  respects grows (request req (write f)).
Proof. apply grows_request. intros w. apply write_calls. Qed.

Lemma grows_remove_objects req paths :
  respects grows (request req (remove_objects paths)).
Proof. apply grows_request. intros w. reflexivity. Qed.

Lemma same_write {X A} (proj : Db -> X) req (f : Db -> A * Db) :
  (forall d, proj (snd (f d)) = proj d) ->
  respects (same proj) (request req (write f)).
Proof.
  intros Hf. frame_apply respects_request. intros w. unfold same, write.
  specialize (Hf (db w)). now destruct (f (db w)).
Qed.

Lemma same_remove_objects {X} (proj : Db -> X) req paths :
  respects (same proj) (request req (remove_objects paths)).
Proof. frame_apply respects_request. intros w. reflexivity. Qed.

(** Breaks a computation into its steps, down to the writes. *)
Ltac frame_steps :=
  repeat first
    [ frame_apply @respects_ret
    | frame_apply @respects_throw
    | frame_apply @respects_console_error
    | frame_apply @respects_console_error_text
    | frame_apply @respects_translate
    | frame_apply @respects_query
    | apply grows_write
    | apply grows_remove_objects
    | apply same_remove_objects
    | frame_apply @respects_bind; [|intros ?]
    | frame_apply @respects_try_catch; [|intros ?]
    | match goal with
      | |- respects _ (match ?x with _ => _ end) => destruct x
      | |- respects _ (if_present ?x _) => destruct x; simpl
      end ].

#[export] Instance within_Frame {X} (proj : Db -> list X) : Frame (within proj).
Proof.
  split; unfold within; intros; simpl; try apply incl_refl.
  eapply incl_tran; eassumption.
Qed.

Lemma within_write {X A} (proj : Db -> list X) req (f : Db -> A * Db) :
  (forall d, incl (proj (snd (f d))) (proj d)) ->
  respects (within proj) (request req (write f)).
Proof.
  intros Hf. frame_apply respects_request. intros w. unfold within, write.
  specialize (Hf (db w)). now destruct (f (db w)).
Qed.

Lemma same_within {X A} (proj : Db -> list X) (m : M A) :
  respects (same proj) m -> respects (within proj) m.
Proof. intros Hm w. unfold within. rewrite (Hm w). apply incl_refl. Qed.

Lemma quiet_refl w : quiet w w.
Proof. now exists []. Qed.

Lemma quiet_trans a b c : quiet a b -> quiet b c -> quiet a c.
Proof.
  intros (p1 & H1 & F1) (p2 & H2 & F2). exists (p1 ++ p2). split.
  - now rewrite H1, H2, app_assoc.
  - apply Forall_app. now split.
Qed.

Lemma quiet_then_refusal a b c e :
  quiet a b -> first_refusal b c e -> first_refusal a c e.
Proof.
  intros (p1 & H1 & F1) (p2 & H2 & F2). exists (p1 ++ p2). split.
  - now rewrite H1, H2, app_assoc.
  - apply Forall_app. now split.
Qed.

#[export] Instance after_images_Frame : Frame after_images.
Proof.
  split; unfold after_images; intros; simpl.
  - repeat split; exists []; now rewrite app_nil_r.
  - destruct H as (Hi & [l1 Hc] & [m1 Hl]), H0 as (Hi' & [l2 Hc'] & [m2 Hl']).
    split; [congruence|]. split.
    + exists (l1 ++ l2). now rewrite Hc', Hc, app_assoc.
    + exists (m1 ++ m2). now rewrite Hl', Hl, app_assoc.
  - repeat split; [exists []; now rewrite app_nil_r|now exists [l]].
  - repeat split; [now exists [r]|exists []; now rewrite app_nil_r].
  - repeat split; exists []; now rewrite app_nil_r.
Qed.

Lemma after_images_write {A} req (f : Db -> A * Db) :
  (forall d, car_images (snd (f d)) = car_images d) ->
  respects after_images (request req (write f)).
Proof.
  intros Hf. frame_apply respects_request. intros w. rewrite write_eq. simpl.
  split; [apply Hf|]. split; exists []; now rewrite app_nil_r.
Qed.

(** ** createCar *)

Section CreateProperties.

Variable toLowerCase : jsstring -> jsstring.
Variable handleSupabaseError : Exn -> jsstring.

Lemma insertRelated_grows newCar carData :
  respects grows (insertRelated newCar carData).
Proof. unfold insertRelated. frame_steps. Qed.

Lemma insertRelated_same_cars newCar carData :
  respects (same cars) (insertRelated newCar carData).
Proof.
  unfold insertRelated. frame_steps; apply same_write; intros d; reflexivity.
Qed.

(** C7: a create whose payload has an empty name fails with the validation
    error and leaves the world as it was: no call reaches the store. *)
Theorem createCar_requires_name (carData : Upsert.t) (userId : field ID)
  (w : World) :
  Upsert.name carData = [] ->
  createCar toLowerCase handleSupabaseError carData userId w =
  (Throw (JsError (lit "Car name is required to create a car.")), w).
Proof. intros Hname. unfold createCar. rewrite Hname. reflexivity. Qed.

Lemma related_insert_ret {A} (a : A) : related_insert_spec (ret a).
Proof. intros w. apply quiet_refl. Qed.

Lemma related_insert_bind {A B} (m : M A) (f : A -> M B) :
  related_insert_spec m -> (forall a, related_insert_spec (f a)) ->
  related_insert_spec (bind m f).
Proof.
  intros Hm Hf w. unfold bind. specialize (Hm w).
  destruct (m w) as [[a|err] w1]; [|assumption].
  specialize (Hf a w1). destruct (f a w1) as [[b|err] w2].
  - eapply quiet_trans; eassumption.
  - destruct Hf as (e & label & Hr & Hl & He). exists e, label.
    eauto using quiet_then_refusal.
Qed.

Lemma related_insert_step {A B} req (f : Db -> A * Db) label (k : Reply A -> B) :
  In label related_labels ->
  related_insert_spec
    (r <- request req (write f) ;;
     match error r with
     | Some e => throw (JsError (lit label ++ message e))
     | None => ret (k r)
     end).
Proof.
  intros Hl w. unfold bind.
  destruct (faults w) as [|[e|] rest] eqn:Hf.
  - rewrite request_unscripted by assumption. unfold write. simpl.
    destruct (f (db w)) as [a d]. simpl. exists []. simpl. now rewrite Hf.
  - rewrite (request_failing _ _ _ _ _ Hf). simpl. exists e, label.
    repeat split; auto. exists []. simpl. now rewrite Hf.
  - rewrite (request_passing _ _ _ _ Hf). unfold write. simpl.
    destruct (f (db w)) as [a d]. simpl. exists [None]. simpl.
    rewrite Hf. auto.
Qed.

Lemma insertRelated_spec newCar carData :
  related_insert_spec (insertRelated newCar carData).
Proof.
  unfold insertRelated.
  apply related_insert_bind.
  { destruct (Upsert.pricing carData); [|apply related_insert_ret].
    apply related_insert_step. simpl. auto. }
  intros pricingResult. apply related_insert_bind.
  { destruct (is_empty (Upsert.images carData)); [apply related_insert_ret|].
    apply related_insert_step. simpl. auto. }
  intros imagesResult. apply related_insert_bind.
  { destruct (is_empty (Upsert.features carData)); [apply related_insert_ret|].
    apply related_insert_step. simpl. auto. }
  intros featuresResult. apply related_insert_bind.
  { destruct (is_empty (Upsert.specifications carData));
      [apply related_insert_ret|].
    apply related_insert_step. simpl. auto 6. }
  intros specsResult. apply related_insert_ret.
Qed.

Lemma root_insert_succeeded p w newCar w1 :
  request (ReqInsertCar p) (write (insert_car p)) w = (Return (ok newCar), w1) ->
  newCar = new_car (db w) p /\
  cars (db w1) = cars (db w) ++ [newCar] /\
  calls w1 = calls w ++ [ReqInsertCar p] /\
  console w1 = console w.
Proof.
  destruct (faults w) as [|[e|] rest] eqn:Hf.
  - rewrite request_unscripted by assumption. simpl. intros H.
    injection H as <- <-. simpl. auto.
  - rewrite (request_failing _ _ _ _ _ Hf). discriminate.
  - rewrite (request_passing _ _ _ _ Hf). simpl. intros H.
    injection H as <- <-. simpl. auto.
Qed.

Lemma delete_car_removes car d r :
  In r (cars (snd (delete_car car d))) -> Car.id r <> car.
Proof.
  simpl. rewrite filter_In. intros [_ H]. apply negb_true_iff in H.
  now apply Z.eqb_neq.
Qed.

(** C1, as the code has it: when the root insert succeeds and a related
    insert is refused, the clean-up deletes the root record, the refusal of
    that related insert is what reaches the caller (translated), and a
    refusal of the clean-up itself is dropped: it is neither thrown nor
    written to the console, and the root record then stays. *)
Theorem createCar_compensates (carData : Upsert.t) (userId : field ID)
  (w w1 w2 : World) (newCar : Car.Row) (err : Exn) :
  Upsert.name carData <> [] ->
  request (ReqInsertCar (baseCarPayload toLowerCase carData userId))
          (write (insert_car (baseCarPayload toLowerCase carData userId))) w =
    (Return (ok newCar), w1) ->
  insertRelated newCar carData w1 = (Throw err, w2) ->
  exists w3,
    createCar toLowerCase handleSupabaseError carData userId w =
      (Throw (JsError (handleSupabaseError err)), w3) /\
    (exists e label,
       first_refusal w1 w2 e /\ In label related_labels /\
       err = JsError (lit label ++ message e)) /\
    calls w3 = calls w2 ++ [ReqDeleteCar (Car.id newCar)] /\
    console w3 =
      console w2 ++
      [{| log_text :=
            lit "Error inserting related data, attempting cleanup for car:";
          log_cause := Some err |}] /\
    match faults w2 with
    | Some _ :: _ => cars (db w3) = cars (db w2) /\ In newCar (cars (db w3))
    | _ => forall r, In r (cars (db w3)) -> Car.id r <> Car.id newCar
    end.
Proof.
  intros Hname Hroot Hrel.
  pose proof (insertRelated_spec newCar carData w1) as Hspec.
  rewrite Hrel in Hspec. destruct Hspec as (e & label & Href & Hl & ->).
  pose proof (insertRelated_same_cars newCar carData w1) as Hcars.
  rewrite Hrel in Hcars. unfold same in Hcars. simpl in Hcars.
  destruct (root_insert_succeeded _ _ _ _ Hroot) as (_ & Hc1 & _ & _).
  assert (Hne : is_empty (Upsert.name carData) = false)
    by (destruct (Upsert.name carData); easy).
  unfold createCar. rewrite Hne. unfold bind at 1. rewrite Hroot. simpl.
  unfold try_catch. rewrite Hrel. unfold createCarCleanup, console_error,
    console_error_text, bind.
  set (w2' := record_log _ w2).
  destruct (faults w2) as [|[e'|] rest] eqn:Hf.
  - rewrite request_unscripted by assumption. simpl.
    eexists. split; [reflexivity|]. split; [now exists e, label|].
    split; [reflexivity|]. split; [reflexivity|].
    intros r Hr. now apply (delete_car_removes _ _ _ Hr).
  - rewrite (request_failing _ _ w2' e' rest) by assumption. simpl.
    eexists. split; [reflexivity|]. split; [now exists e, label|].
    split; [reflexivity|]. split; [reflexivity|]. simpl. split; [reflexivity|].
    rewrite Hcars, Hc1. apply in_or_app. right. now left.
  - rewrite (request_passing _ _ w2' rest) by assumption. simpl.
    eexists. split; [reflexivity|]. split; [now exists e, label|].
    split; [reflexivity|]. split; [reflexivity|].
    intros r Hr. now apply (delete_car_removes _ _ _ Hr).
Qed.

Lemma createCar_tail_grows newCar carData :
  respects grows
    (try_catch (insertRelated newCar carData)
               (createCarCleanup handleSupabaseError (Car.id newCar))).
Proof.
  frame_apply @respects_try_catch; [apply insertRelated_grows|].
  intros e. unfold createCarCleanup. frame_steps.
Qed.

Lemma createCar_tail_within newCar carData :
  respects (within cars)
    (try_catch (insertRelated newCar carData)
               (createCarCleanup handleSupabaseError (Car.id newCar))).
Proof.
  frame_apply @respects_try_catch.
  - apply same_within, insertRelated_same_cars.
  - intros e. unfold createCarCleanup. frame_steps.
    apply within_write. intros d. simpl. apply incl_filter.
Qed.

(** C10: a create whose payload has a null or absent description sends the
    root insert with the empty string as description, and any car row the
    call leaves behind has that description, never null. *)
Theorem createCar_description_default (carData : Upsert.t) (userId : field ID)
  (w : World) :
  Upsert.name carData <> [] ->
  Upsert.description carData = Null \/ Upsert.description carData = Undefined ->
  exists p rest,
    calls (snd (createCar toLowerCase handleSupabaseError carData userId w)) =
      calls w ++ ReqInsertCar p :: rest /\
    CarInsert.description p = lit "" /\
    forall r,
      In r (cars (db (snd (createCar toLowerCase handleSupabaseError
                                     carData userId w)))) ->
      In r (cars (db w)) \/ Car.description r = Some (lit "").
Proof.
  intros Hname Hdesc.
  assert (Hne : is_empty (Upsert.name carData) = false)
    by (destruct (Upsert.name carData); easy).
  assert (Hp : CarInsert.description (baseCarPayload toLowerCase carData userId)
               = lit "")
    by (simpl; destruct Hdesc as [-> | ->]; reflexivity).
  exists (baseCarPayload toLowerCase carData userId).
  set (out := createCar toLowerCase handleSupabaseError carData userId w).
  assert (Hout : out = createCar toLowerCase handleSupabaseError carData userId w)
    by reflexivity.
  clearbody out. unfold createCar in Hout. rewrite Hne in Hout.
  unfold bind at 1 in Hout.
  set (p := baseCarPayload toLowerCase carData userId) in *.
  assert (Htail : forall w1 : World,
            calls w1 = calls w ++ [ReqInsertCar p] ->
            cars (db w1) = cars (db w) ++ [new_car (db w) p] ->
            let w' := snd (try_catch
                             (insertRelated (new_car (db w) p) carData)
                             (createCarCleanup handleSupabaseError
                                (Car.id (new_car (db w) p))) w1) in
            exists rest,
              calls w' = calls w ++ ReqInsertCar p :: rest /\
              CarInsert.description p = lit "" /\
              forall r, In r (cars (db w')) ->
                        In r (cars (db w)) \/ Car.description r = Some (lit "")).
  { intros w1 Hcalls Hcars w'.
    destruct (createCar_tail_grows (new_car (db w) p) carData w1) as [l Hl].
    pose proof (createCar_tail_within (new_car (db w) p) carData w1) as Hin.
    fold w' in Hl, Hin. unfold within in Hin. exists l.
    split; [now rewrite Hl, Hcalls, <- app_assoc|]. split; [assumption|].
    intros r Hr. apply Hin in Hr. rewrite Hcars in Hr.
    apply in_app_or in Hr. destruct Hr as [Hr|[<-|[]]]; [now left|right].
    change (Some (CarInsert.description p) = Some (lit "")). now rewrite Hp. }
  destruct (faults w) as [|[e|] rest] eqn:Hf.
  - rewrite request_unscripted in Hout by assumption. simpl in Hout.
    rewrite Hout. apply Htail; reflexivity.
  - rewrite (request_failing _ _ _ _ _ Hf) in Hout. simpl in Hout.
    rewrite Hout. exists []. simpl.
    split; [reflexivity|]. split; [assumption|]. now left.
  - rewrite (request_passing _ _ _ _ Hf) in Hout. simpl in Hout.
    rewrite Hout. apply Htail; reflexivity.
Qed.

End CreateProperties.

Lemma createCar_requires_name_witness :
  Upsert.name nameless = [] /\
  createCar ascii_toLowerCase plain_message nameless Undefined
            (world_of empty_db []) =
  (Throw (JsError (lit "Car name is required to create a car.")),
   world_of empty_db []).
Proof.
  split; [reflexivity|].
  apply (createCar_requires_name ascii_toLowerCase plain_message).
  reflexivity.
Defined.

Lemma createCar_description_default_witness :
  exists p rest,
    calls (snd (createCar ascii_toLowerCase plain_message tesla Undefined
                          (world_of empty_db []))) =
      calls (world_of empty_db []) ++ ReqInsertCar p :: rest /\
    CarInsert.description p = lit "" /\
    forall r,
      In r (cars (db (snd (createCar ascii_toLowerCase plain_message tesla
                                     Undefined (world_of empty_db []))))) ->
      In r (cars (db (world_of empty_db []))) \/
      Car.description r = Some (lit "").
Proof.
  apply (createCar_description_default ascii_toLowerCase plain_message tesla
           Undefined (world_of empty_db [])).
  - discriminate.
  - left. reflexivity.
Defined.

Lemma createCar_compensates_witness :
  exists w3,
    createCar ascii_toLowerCase plain_message tesla Undefined tesla_world =
      (Throw (JsError (lit "Features insert failed: features table is read-only")),
       w3) /\
    calls w3 =
      [ReqInsertCar (baseCarPayload ascii_toLowerCase tesla Undefined);
       ReqInsertPricing 1 {| Pricing.base_price := 900; Pricing.attrs := [] |};
       ReqInsertFeatures 1 [[(lit "seats", lit "5")]];
       ReqDeleteCar 1] /\
    List.length (console w3) = 1%nat /\
    cars (db w3) = [new_car empty_db (baseCarPayload ascii_toLowerCase tesla Undefined)].
Proof.
  pose (p := baseCarPayload ascii_toLowerCase tesla Undefined).
  pose (w1 := snd (request (ReqInsertCar p) (write (insert_car p)) tesla_world)).
  pose (w2 := snd (insertRelated (new_car empty_db p) tesla w1)).
  destruct (createCar_compensates ascii_toLowerCase plain_message tesla Undefined
              tesla_world w1 w2 (new_car empty_db p)
              (JsError (lit "Features insert failed: features table is read-only")))
    as (w3 & Hrun & _ & Hcalls & Hlog & Hcars).
  - discriminate.
  - reflexivity.
  - reflexivity.
  - exists w3. split; [exact Hrun|]. split; [exact Hcalls|].
    split; [now rewrite Hlog|]. simpl in Hcars. destruct Hcars as [Hcars _].
    exact Hcars.
Defined.

(** C1, the part that fails: with the features insert and then the clean-up
    both refused, the console holds the line about the features insert and
    nothing about the clean-up. *)
Lemma createCar_cleanup_refusal_not_logged :
  ~ (exists l,
       In l (console (snd (createCar ascii_toLowerCase plain_message tesla
                                     Undefined tesla_world))) /\
       log_cause l = Some (StoreExn (refused "cars table is locked"))).
Proof.
  intros (l & Hin & Hcause). simpl in Hin. destruct Hin as [<-|[]].
  discriminate Hcause.
Qed.

(** ** deleteCar *)

Lemma request_returns {A} req (run : World -> Reply A * World) w :
  exists r w', request req run w = (Return r, w').
Proof.
  unfold request. destruct (next_fault _) as [[e|] w1]; [eauto|].
  destruct (run w1); eauto.
Qed.

(** A join over calls that all resolve resolves: its [catch] never runs. *)
Lemma promise_all_returns {A} (ms : list (M A)) :
  Forall (fun m => forall w, exists a w', m w = (Return a, w')) ms ->
  forall w, exists l w', promise_all ms w = (Return l, w').
Proof.
  induction 1 as [|m ms Hm _ IH]; intros w; simpl.
  - unfold ret. eauto.
  - unfold bind. destruct (Hm w) as (a & w1 & ->).
    destruct (IH w1) as (l & w2 & ->). unfold ret. eauto.
Qed.

Lemma resolves_in_ret {A} (a : A) : resolves_in 0 (ret a).
Proof. intros w. exists a, w. auto. Qed.

Lemma resolves_in_bind {A B} n k (m : M A) (f : A -> M B) :
  resolves_in n m -> (forall a, resolves_in k (f a)) ->
  resolves_in (n + k) (bind m f).
Proof.
  intros Hm Hf w. unfold bind.
  destruct (Hm w) as (a & w1 & -> & Hf1 & Hc1).
  destruct (Hf a w1) as (b & w2 & -> & Hf2 & Hc2).
  exists b, w2. split; [reflexivity|]. split.
  - rewrite Hf2, Hf1, skipn_skipn. f_equal. apply Nat.add_comm.
  - now rewrite Hc2.
Qed.

Lemma resolves_in_delete_of t carId :
  resolves_in 1 (request (ReqDeleteOf t carId) (write (delete_of t carId))).
Proof.
  intros w.
  assert (Hc : forall d, cars (snd (delete_of t carId d)) = cars d)
    by (intros d; now destruct t).
  destruct (faults w) as [|[e|] rest] eqn:Hf.
  - rewrite request_unscripted by assumption. rewrite write_eq.
    do 2 eexists. split; [reflexivity|]. simpl. rewrite Hf, Hc. auto.
  - rewrite (request_failing _ _ _ _ _ Hf). do 2 eexists.
    split; [reflexivity|]. simpl. auto.
  - rewrite (request_passing _ _ _ _ Hf). rewrite write_eq.
    do 2 eexists. split; [reflexivity|]. simpl. rewrite Hc. auto.
Qed.

Lemma resolves_in_promise_all {A} (ms : list (M A)) :
  Forall (resolves_in 1) ms -> resolves_in (List.length ms) (promise_all ms).
Proof.
  induction 1 as [|m ms Hm _ IH]; simpl.
  - apply resolves_in_ret.
  - replace (S (List.length ms)) with (1 + (List.length ms + 0))%nat by lia.
    apply resolves_in_bind; [assumption|]. intros a.
    apply resolves_in_bind; [assumption|]. intros l. apply resolves_in_ret.
Qed.

(** The join of the four deletes always resolves, so its [catch] never
    runs: a refused delete does not stop what follows. *)
Lemma deleteRelated_resolves carId : resolves_in 4 (deleteRelated carId).
Proof.
  intros w. unfold deleteRelated, try_catch.
  match goal with
  | |- context [promise_all ?ms w] =>
      destruct (resolves_in_promise_all ms
                  ltac:(repeat constructor; apply resolves_in_delete_of) w)
        as (l & w' & -> & Hf & Hc)
  end.
  exists l, w'. auto.
Qed.

Lemma deleteStoredImages_resolves paths w :
  exists w', deleteStoredImages paths w = (Return tt, w') /\ db w' = db w.
Proof.
  unfold deleteStoredImages. destruct (is_empty paths).
  - exists w. auto.
  - unfold bind. destruct (faults w) as [|[e|] rest] eqn:Hf.
    + rewrite request_unscripted by assumption. simpl.
      eexists. split; reflexivity.
    + rewrite (request_failing _ _ _ _ _ Hf). simpl.
      eexists. split; reflexivity.
    + rewrite (request_passing _ _ _ _ Hf). simpl.
      eexists. split; reflexivity.
Qed.

(** Whatever the four deletes of the related rows resolve with, the root
    record is deleted next and the call reports success. *)
Lemma deleteCar_goes_on (h : Exn -> jsstring) (carId : ID) (w : World)
  (f1 f2 f3 f4 : option StoreError) (rest : list (option StoreError)) :
  faults w = None :: f1 :: f2 :: f3 :: f4 :: None :: rest ->
  exists w',
    deleteCar h carId w = (Return true, w') /\
    forall r, In r (cars (db w')) -> Car.id r <> carId.
Proof.
  intros Hf. unfold deleteCar.
  match goal with
  | |- context [try_catch ?body ?handler w] =>
      assert (Hbody : exists w', body w = (Return true, w') /\
                forall r, In r (cars (db w')) -> Car.id r <> carId)
  end.
  { rewrite (bind_return _ _ _ _ _ (request_query _ _ _ _ (or_introl Hf))).
    cbn [error data ok or_default].
    match goal with
    | |- context [bind (deleteRelated carId) _ ?w1] =>
        destruct (deleteRelated_resolves carId w1) as (l & w2 & Hrel & Hf2 & _)
    end.
    rewrite (bind_return _ _ _ _ _ Hrel). simpl in Hf2.
    rewrite (bind_return _ _ _ _ _ (request_write _ _ _ _ (or_introl Hf2))).
    cbn [error data ok].
    match goal with
    | |- context [bind (deleteStoredImages ?p) _ ?w3] =>
        destruct (deleteStoredImages_resolves p w3) as (w4 & Hsto & Hdb)
    end.
    rewrite (bind_return _ _ _ _ _ Hsto). eexists. split; [reflexivity|].
    rewrite Hdb. intros r Hr. apply (delete_car_removes carId (db w2) r).
    exact Hr. }
  destruct Hbody as (w' & Hbody & Hcars). exists w'.
  split; [|assumption]. now apply try_catch_return.
Qed.

(** C2, at the failing input: the delete of the pricing rows is refused, and
    yet the root record is deleted and the call returns [true]; the pricing
    row is left behind and nothing is written to the console. *)
Theorem deleteCar_ignores_refused_delete :
  fst (deleteCar plain_message 1 (garage_world pricing_delete_refused)) =
    Return true /\
  calls (snd (deleteCar plain_message 1 (garage_world pricing_delete_refused))) =
    [ReqSelect TImages; ReqDeleteOf TPricing 1; ReqDeleteOf TFeatures 1;
     ReqDeleteOf TSpecifications 1; ReqDeleteOf TImages 1; ReqDeleteCar 1;
     ReqStorageRemove [lit "cars/1/a.png"; lit "cars/1/b.png";
                       lit "cars/1/c.png"]] /\
  existsb (fun r => Car.id r =? 1)
          (cars (db (snd (deleteCar plain_message 1
                                    (garage_world pricing_delete_refused))))) =
    false /\
  car_pricing (db (snd (deleteCar plain_message 1
                                  (garage_world pricing_delete_refused)))) =
    car_pricing garage /\
  console (snd (deleteCar plain_message 1
                          (garage_world pricing_delete_refused))) = [].
Proof. repeat split; vm_compute; reflexivity. Qed.

(** ** updateCar *)

Section UpdateProperties.

Variable toLowerCase : jsstring -> jsstring.
Variable handleSupabaseError : Exn -> jsstring.

Lemma upsert_images_cars car ps d : cars (snd (upsert_images car ps d)) = cars d.
Proof.
  simpl. revert d. induction ps as [|p ps IH]; intros d; simpl; [reflexivity|].
  rewrite IH. unfold upsert_image. now destruct (existsb _ _).
Qed.

Lemma upsert_pricing_cars car p d : cars (snd (upsert_pricing car p d)) = cars d.
Proof. unfold upsert_pricing. now destruct (existsb _ _). Qed.

Lemma getCarById_respects R `{Frame R} id :
  respects R (getCarById handleSupabaseError id).
Proof. unfold getCarById. frame_steps. Qed.

Lemma updateRelated_same_cars carId updates :
  respects (same cars) (updateRelated carId updates).
Proof.
  unfold updateRelated, upsertPricing, reconcileImages, replaceFeatures,
    replaceSpecifications.
  frame_steps;
    try (apply same_write; intros d;
         first [reflexivity|apply upsert_pricing_cars|apply upsert_images_cars]).
Qed.

Lemma updateBase_cars carId updates w :
  cars (db (snd (updateBase toLowerCase carId updates w))) = cars (db w) \/
  cars (db (snd (updateBase toLowerCase carId updates w))) =
    patched toLowerCase carId updates (cars (db w)).
Proof.
  unfold updateBase. destruct (0 <? keys_length _)%nat; [|now left].
  unfold bind. destruct (faults w) as [|[e|] rest] eqn:Hf.
  - rewrite (request_write _ _ _ [] (or_intror (conj Hf eq_refl))). now right.
  - rewrite (request_failing _ _ _ _ _ Hf). now left.
  - rewrite (request_write _ _ _ rest (or_introl Hf)). now right.
Qed.

Lemma updateCar_cars carId updates w :
  let w' := snd (updateCar toLowerCase handleSupabaseError carId updates w) in
  cars (db w') = cars (db w) \/
  cars (db w') = patched toLowerCase carId updates (cars (db w)).
Proof.
  intros w'. subst w'. unfold updateCar.
  pose proof (updateBase_cars carId updates w) as Hbase.
  match goal with
  | |- context [snd (bind ?m ?k w)] =>
      pattern (snd (bind m k w)); apply bind_world
  end.
  - intros u w1 Hrun. rewrite Hrun in Hbase. simpl in Hbase.
    match goal with
    | |- context [bind ?m ?k w1] =>
        assert (Hrest : respects (same cars) (bind m k))
    end.
    { frame_apply @respects_bind;
        [frame_apply @respects_try_catch;
           [apply updateRelated_same_cars|intros; frame_steps]
        |intros; frame_steps]. }
    rewrite (Hrest w1). exact Hbase.
  - intros e w1 Hrun. rewrite Hrun in Hbase. exact Hbase.
Qed.

Lemma patched_nth carId updates l i r :
  nth_error l i = Some r ->
  nth_error (patched toLowerCase carId updates l) i =
  Some (if Car.id r =? carId
        then apply_update (baseCarUpdatePayload toLowerCase updates) r
        else r).
Proof. intros H. unfold patched. now rewrite nth_error_map, H. Qed.

(** C3, as the code has it: whatever an update does, a row of the cars
    table stays in place with its identifier, and a field that the patch
    omits, or gives as [null], keeps its stored value. *)
Theorem updateCar_keeps_omitted_and_null (carId : ID) (updates : Patch.t)
  (w : World) (i : nat) (r : Car.Row) :
  nth_error (cars (db w)) i = Some r ->
  exists r',
    nth_error
      (cars (db (snd (updateCar toLowerCase handleSupabaseError carId updates w))))
      i = Some r' /\
    Car.id r' = Car.id r /\
    (Patch.name updates = None ->
     Car.name r' = Car.name r /\ Car.slug r' = Car.slug r) /\
    (Patch.category updates = None -> Car.category r' = Car.category r) /\
    (not_given (Patch.description updates) ->
     Car.description r' = Car.description r) /\
    (not_given (Patch.short_description updates) ->
     Car.short_description r' = Car.short_description r) /\
    (not_given (Patch.available updates) ->
     Car.available r' = Car.available r) /\
    (not_given (Patch.featured updates) -> Car.featured r' = Car.featured r) /\
    (not_given (Patch.hidden updates) -> Car.hidden r' = Car.hidden r).
Proof.
  intros Hr.
  destruct (updateCar_cars carId updates w) as [-> | ->].
  - exists r. split; [assumption|]. repeat split; reflexivity.
  - rewrite (patched_nth _ _ _ _ _ Hr). eexists. split; [reflexivity|].
    destruct (Car.id r =? carId); [|repeat split; reflexivity].
    simpl. split; [reflexivity|].
    split; [intros ->; split; reflexivity|].
    split; [intros ->; reflexivity|].
    repeat split; intros [-> | ->]; reflexivity.
Qed.

(** *** The images patch *)

Lemma stale_images_as_coded carId d :
  filter (fun img =>
            truthy_string (Image.path (Image.payload img)) &&
            negb (has_path (map Image.path []) (Image.path (Image.payload img))))
         (select_images_of carId d) =
  stale_images carId d.
Proof. apply filter_ext. intros img. simpl. apply andb_true_r. Qed.

Lemma truthy_paths_In (l : list Image.Row) img p :
  In img l -> Image.path (Image.payload img) = Some p -> p <> [] ->
  In p (truthy_paths l).
Proof.
  intros Hin Hp Hne. unfold truthy_paths. apply in_flat_map. exists img.
  split; [assumption|]. rewrite Hp. destruct p; [easy|now left].
Qed.

Lemma stale_paths_nonempty carId d :
  stale_images carId d <> [] ->
  is_empty (truthy_paths (stale_images carId d)) = false.
Proof.
  intros Hne. destruct (stale_images carId d) as [|img l] eqn:Hs; [easy|].
  assert (Hin : In img (stale_images carId d)) by (rewrite Hs; now left).
  apply filter_In in Hin. destruct Hin as [_ Hp]. unfold has_stored_path in Hp.
  simpl. destruct (Image.path (Image.payload img)) as [[|c p]|]; easy.
Qed.

Lemma delete_images_in_clears carId d r :
  In r (car_images
          (snd (delete_images_in (map Image.id (stale_images carId d)) d))) ->
  Image.car_id r = carId -> has_stored_path r = false.
Proof.
  simpl. rewrite filter_In. intros [Hin Hid] Hcar.
  destruct (has_stored_path r) eqn:Hp; [|reflexivity].
  apply negb_true_iff in Hid. unfold mem_id in Hid.
  assert (Hex : existsb (Z.eqb (Image.id r))
                        (map Image.id (stale_images carId d)) = true).
  { apply existsb_exists. exists (Image.id r). split; [|apply Z.eqb_refl].
    apply in_map. apply filter_In. split; [|assumption].
    apply filter_In. split; [assumption|]. now apply Z.eqb_eq. }
  congruence.
Qed.

Lemma answer_script w :
  answer 0 w = None ->
  faults w = None :: tl (faults w) \/ (faults w = [] /\ tl (faults w) = []).
Proof.
  unfold answer. destruct (faults w) as [|[e|] rest]; simpl; auto.
  discriminate.
Qed.

Lemma answer_next n w0 w :
  faults w0 = tl (faults w) -> answer n w0 = answer (S n) w.
Proof.
  unfold answer. intros ->. destruct (faults w); [now destruct n|reflexivity].
Qed.

Lemma request_remove req paths w rest :
  faults w = None :: rest \/ (faults w = [] /\ rest = []) ->
  request req (remove_objects paths) w =
  (Return (ok tt),
   set_bucket (storage_remove paths (bucket w))
              (set_faults rest (record_call req w))).
Proof.
  intros [Hf|[Hf ->]].
  - now rewrite (request_passing _ _ _ _ Hf).
  - rewrite request_unscripted by assumption. unfold remove_objects. simpl.
    f_equal. destruct w. simpl in *. now subst.
Qed.

Lemma same_key_same_row {A} (key : A -> ID) (l : list A) (a b : A) :
  NoDup (map key l) -> In a l -> In b l -> key a = key b -> a = b.
Proof.
  induction l as [|x l IH]; simpl; [easy|].
  intros Hnd Ha Hb Hk. inversion Hnd as [|? ? Hx Hl]; subst.
  destruct Ha as [->|Ha], Hb as [->|Hb]; auto.
  - destruct Hx. rewrite Hk. now apply in_map.
  - destruct Hx. rewrite <- Hk. now apply in_map.
Qed.

Lemma delete_images_in_keeps carId d r :
  NoDup (map Image.id (car_images d)) ->
  In r (car_images d) ->
  Image.car_id r <> carId \/ has_stored_path r = false ->
  In r (car_images
          (snd (delete_images_in (map Image.id (stale_images carId d)) d))).
Proof.
  intros Hnd Hin Hr. simpl. apply filter_In. split; [assumption|].
  apply negb_true_iff. unfold mem_id.
  destruct (existsb (Z.eqb (Image.id r))
                    (map Image.id (stale_images carId d))) eqn:Hex;
    [|reflexivity].
  apply existsb_exists in Hex. destruct Hex as (x & Hx & Heq).
  apply Z.eqb_eq in Heq. apply in_map_iff in Hx.
  destruct Hx as (r' & Hid & Hstale). apply filter_In in Hstale.
  destruct Hstale as [Hsel Hpath]. apply filter_In in Hsel.
  destruct Hsel as [Hin' Hcar]. apply Z.eqb_eq in Hcar.
  assert (r = r')
    by (apply (same_key_same_row Image.id (car_images d)); congruence).
  subst r'. destruct Hr as [Hr|Hr]; congruence.
Qed.

Lemma delete_images_in_nothing d :
  car_images (snd (delete_images_in [] d)) = car_images d.
Proof.
  simpl. induction (car_images d) as [|x l IH]; simpl; [reflexivity|].
  now rewrite IH.
Qed.

(** The images step on an empty patch, when the read of the rows and the
    removal of the rows go through; the second call, to the bucket, is
    answered as the script has it. *)
Lemma reconcileImages_empty carId w :
  answer 0 w = None ->
  (stale_images carId (db w) <> [] -> answer 2 w = None) ->
  exists w3,
    reconcileImages carId [] w = (Return tt, w3) /\
    car_images (db w3) =
      car_images
        (snd (delete_images_in (map Image.id (stale_images carId (db w)))
                               (db w))) /\
    (stale_images carId (db w) <> [] ->
     calls w3 =
       calls w ++
       [ReqSelect TImages;
        ReqStorageRemove (truthy_paths (stale_images carId (db w)));
        ReqDeleteImagesIn (map Image.id (stale_images carId (db w)))] /\
     forall e, answer 1 w = Some e ->
       console w3 =
         console w ++
         [{| log_text := lit "Error deleting images from storage:";
             log_cause := Some (StoreExn e) |}]).
Proof.
  intros H0 H2. unfold reconcileImages.
  rewrite (bind_return _ _ _ _ _
             (request_query _ _ _ _ (answer_script w H0))).
  cbn [error data ok or_default]. rewrite stale_images_as_coded.
  set (w1 := set_faults (tl (faults w)) (record_call (ReqSelect TImages) w)).
  assert (H11 : answer 0 w1 = answer 1 w) by now apply answer_next.
  assert (H12 : answer 1 w1 = answer 2 w) by now apply answer_next.
  destruct (stale_images carId (db w)) as [|img l] eqn:Hs.
  - simpl is_empty. cbv beta iota. exists w1. split; [reflexivity|].
    split; [|easy]. simpl map. now rewrite delete_images_in_nothing.
  - rewrite <- Hs.
    assert (Hne : stale_images carId (db w) <> []) by (rewrite Hs; easy).
    assert (H2' : answer 2 w = None) by (apply H2; easy).
    replace (is_empty (stale_images carId (db w))) with false
      by (rewrite Hs; reflexivity).
    rewrite (stale_paths_nonempty carId (db w) Hne).
    set (paths := truthy_paths (stale_images carId (db w))).
    set (ids := map Image.id (stale_images carId (db w))).
    destruct (answer 1 w) as [e|] eqn:Hbucket.
    + assert (Hf1 : faults w1 = Some e :: tl (faults w1)).
      { unfold answer in H11. destruct (faults w1) as [|x rest]; simpl in *;
          [discriminate|congruence]. }
      set (w2 := record_log
                   {| log_text := lit "Error deleting images from storage:";
                      log_cause := Some (StoreExn e) |}
                   (set_faults (tl (faults w1))
                      (record_call (ReqStorageRemove paths) w1))).
      assert (H20 : answer 0 w2 = None)
        by (rewrite <- H2', <- H12; now apply answer_next).
      unfold bind.
      rewrite (request_failing _ _ _ e (tl (faults w1)) Hf1).
      cbn [error failed]. unfold console_error, console_error_text.
      cbv beta iota. fold w2.
      rewrite (request_write _ _ _ _ (answer_script w2 H20)).
      cbn [error ok]. unfold ret. simpl is_empty. cbv beta iota.
      eexists. split; [reflexivity|]. split; [reflexivity|].
      intros _. simpl. split; [now rewrite <- !app_assoc|].
      intros e' He'. injection He' as <-. reflexivity.
    + set (w2 := set_bucket (storage_remove paths (bucket w1))
                   (set_faults (tl (faults w1))
                      (record_call (ReqStorageRemove paths) w1))).
      assert (H20 : answer 0 w2 = None)
        by (rewrite <- H2', <- H12; now apply answer_next).
      unfold bind.
      rewrite (request_remove _ _ _ _ (answer_script w1 H11)).
      cbn [error ok]. unfold ret at 1. cbv beta iota. fold w2.
      rewrite (request_write _ _ _ _ (answer_script w2 H20)).
      cbn [error ok]. unfold ret. simpl is_empty. cbv beta iota.
      eexists. split; [reflexivity|]. split; [reflexivity|].
      intros _. simpl. split; [now rewrite <- !app_assoc|]. discriminate.
Qed.

Lemma after_images_tail carId updates :
  respects after_images
    (if_present (Patch.features updates) (replaceFeatures carId) ;;
     if_present (Patch.specifications updates) (replaceSpecifications carId)).
Proof.
  unfold replaceFeatures, replaceSpecifications.
  frame_steps; apply after_images_write; intros d; reflexivity.
Qed.

(** C4, as the code has it: on an update whose images patch is empty, once
    the steps before the images went through and the store lets the rows be
    read and removed, no image row of the car with a stored path is left;
    the bucket was asked, before the rows were removed, to remove every
    stored path of the car, and when it refuses, that is written to the
    console and the rows are removed all the same. The rows are removed by
    id: the ids of the image rows being distinct, a row of the car without
    a stored path, and every row of another car, is left in place. The
    steps before the images leave the image rows as they were. *)
Theorem updateCar_empty_images (carId : ID) (updates : Patch.t)
  (w w1 w2 : World) :
  Patch.images updates = Some [] ->
  updateBase toLowerCase carId updates w = (Return tt, w1) ->
  if_present (Patch.pricing updates) (upsertPricing carId) w1 = (Return tt, w2) ->
  answer 0 w2 = None ->
  (stale_images carId (db w2) <> [] -> answer 2 w2 = None) ->
  let w' := snd (updateCar toLowerCase handleSupabaseError carId updates w) in
  car_images (db w2) = car_images (db w) /\
  (forall r, In r (car_images (db w')) -> Image.car_id r = carId ->
             has_stored_path r = false) /\
  (NoDup (map Image.id (car_images (db w2))) ->
   forall r, In r (car_images (db w2)) ->
             Image.car_id r <> carId \/ has_stored_path r = false ->
             In r (car_images (db w'))) /\
  (stale_images carId (db w2) <> [] ->
   (exists later,
      calls w' =
        calls w2 ++
        ReqSelect TImages ::
        ReqStorageRemove (truthy_paths (stale_images carId (db w2))) ::
        ReqDeleteImagesIn (map Image.id (stale_images carId (db w2))) ::
        later) /\
   (forall img p,
      In img (car_images (db w2)) -> Image.car_id img = carId ->
      Image.path (Image.payload img) = Some p -> p <> [] ->
      In p (truthy_paths (stale_images carId (db w2)))) /\
   (forall e, answer 1 w2 = Some e ->
      In {| log_text := lit "Error deleting images from storage:";
            log_cause := Some (StoreExn e) |} (console w'))).
Proof.
  intros Himg Hbase Hpricing Hread Hremove w'.
  destruct (reconcileImages_empty carId w2 Hread Hremove)
    as (w3 & Hrec & Hleft & Hcalls).
  assert (Hafter : after_images w3 w').
  { subst w'. unfold updateCar. rewrite (bind_return _ _ _ _ _ Hbase).
    match goal with
    | |- context [bind (try_catch (updateRelated carId updates) ?h) ?k w1] =>
        assert (Htry : after_images w3
                         (snd (try_catch (updateRelated carId updates) h w1)));
        [|assert (Hk : forall a, respects after_images (k a))
            by (intros a; frame_steps; apply getCarById_respects; exact _)]
    end.
    { apply try_catch_world; unfold updateRelated;
        rewrite (bind_return _ _ _ _ _ Hpricing), Himg; simpl if_present;
        rewrite (bind_return _ _ _ _ _ Hrec); intros a w4 Hrun;
        pose proof (after_images_tail carId updates w3) as Htail;
        rewrite Hrun in Htail; simpl in Htail; [exact Htail|].
      eapply frame_trans; [exact Htail|].
      assert (Hh : respects after_images
                     (console_error "Error updating related car data:" (Some a) ;;
                      @translate handleSupabaseError unit
                        "An unexpected error occurred updating related car data."
                        a))
        by frame_steps.
      apply Hh. }
    apply bind_world.
    - intros a w4 Hrun. rewrite Hrun in Htry. simpl in Htry.
      eapply frame_trans; [exact Htry|apply (Hk a)].
    - intros e w4 Hrun. rewrite Hrun in Htry. exact Htry. }
  destruct Hafter as (Himgs & [later Hlater] & [lines Hlines]).
  split; [|split; [|split]].
  - assert (H1 : respects (same car_images) (updateBase toLowerCase carId updates))
      by (unfold updateBase; frame_steps; apply same_write; intros d;
          reflexivity).
    assert (H2 : respects (same car_images)
                   (if_present (Patch.pricing updates) (upsertPricing carId)))
      by (unfold upsertPricing; frame_steps; apply same_write; intros d;
          unfold upsert_pricing; now destruct (existsb _ _)).
    specialize (H1 w). specialize (H2 w1). rewrite Hbase in H1.
    rewrite Hpricing in H2. unfold same in H1, H2. simpl in H1, H2.
    congruence.
  - intros r Hr. rewrite Himgs, Hleft in Hr.
    now apply (delete_images_in_clears carId (db w2) r).
  - intros Hnd r Hr Hkeep. rewrite Himgs, Hleft.
    now apply delete_images_in_keeps.
  - intros Hne. destruct (Hcalls Hne) as [Hc Hlog]. split; [|split].
    + exists later. rewrite Hlater, Hc, <- app_assoc. reflexivity.
    + intros img p Hin Hcar Hp Hnonempty.
      apply (truthy_paths_In _ img); [|assumption|assumption].
      apply filter_In. unfold has_stored_path. rewrite Hp. split.
      * apply filter_In. split; [assumption|]. now apply Z.eqb_eq.
      * destruct p; easy.
    + intros e He. rewrite Hlines, (Hlog e He). apply in_or_app. left.
      apply in_or_app. right. now left.
Qed.

End UpdateProperties.

Lemma updateCar_keeps_omitted_and_null_witness :
  exists r',
    nth_error
      (cars (db (snd (updateCar ascii_toLowerCase plain_message 1
                                clear_short_description (garage_world []))))) 0
      = Some r' /\
    Car.id r' = 1 /\
    Car.name r' = lit "Tesla Model S" /\
    Car.short_description r' = Some (lit "Car").
Proof.
  destruct (updateCar_keeps_omitted_and_null ascii_toLowerCase plain_message 1
              clear_short_description (garage_world []) 0 model_s eq_refl)
    as (r' & Hnth & Hid & Hname & _ & _ & Hshort & _).
  exists r'. split; [exact Hnth|]. split; [exact Hid|].
  split; [apply Hname; reflexivity|].
  apply Hshort. right. reflexivity.
Defined.

(** C3, the part that fails: an update with [short_description: null] goes
    through and the stored short description of the car is still there. *)
Lemma updateCar_null_does_not_clear :
  returned (fst (updateCar ascii_toLowerCase plain_message 1
                           clear_short_description (garage_world []))) = true /\
  ~ (forall r,
       In r (cars (db (snd (updateCar ascii_toLowerCase plain_message 1
                                      clear_short_description
                                      (garage_world []))))) ->
       Car.id r = 1 -> Car.short_description r = None).
Proof.
  split; [vm_compute; reflexivity|]. intros H.
  assert (Hin : In (apply_update
                      (baseCarUpdatePayload ascii_toLowerCase
                                            clear_short_description) model_s)
                   (cars (db (snd (updateCar ascii_toLowerCase plain_message 1
                                             clear_short_description
                                             (garage_world []))))))
    by (vm_compute; left; reflexivity).
  specialize (H _ Hin eq_refl). discriminate H.
Qed.

Lemma updateCar_empty_images_witness :
  ((forall r,
      In r (car_images
              (db (snd (updateCar ascii_toLowerCase plain_message 1 no_images
                                  (garage_world bucket_offline))))) ->
      Image.car_id r = 1 -> has_stored_path r = false) /\
   (exists later,
      calls (snd (updateCar ascii_toLowerCase plain_message 1 no_images
                            (garage_world bucket_offline))) =
        [] ++
        ReqSelect TImages ::
        ReqStorageRemove (truthy_paths (stale_images 1 garage)) ::
        ReqDeleteImagesIn (map Image.id (stale_images 1 garage)) :: later) /\
   In {| log_text := lit "Error deleting images from storage:";
         log_cause := Some (StoreExn (refused "bucket offline")) |}
      (console (snd (updateCar ascii_toLowerCase plain_message 1 no_images
                               (garage_world bucket_offline))))) /\
  In (image_row 31 2 None None (Some 1))
     (car_images (db (snd (updateCar ascii_toLowerCase plain_message 2
                                     no_images (garage_world []))))).
Proof.
  split.
  - destruct (updateCar_empty_images ascii_toLowerCase plain_message 1
                no_images (garage_world bucket_offline)
                (garage_world bucket_offline) (garage_world bucket_offline)
                eq_refl eq_refl eq_refl eq_refl (fun _ => eq_refl))
      as (_ & Hrows & _ & Hrest).
    split; [exact Hrows|].
    destruct Hrest as (Hcalls & _ & Hlog).
    + intros H. vm_compute in H. discriminate H.
    + split; [exact Hcalls|]. apply Hlog. reflexivity.
  - destruct (updateCar_empty_images ascii_toLowerCase plain_message 2
                no_images (garage_world []) (garage_world [])
                (garage_world []) eq_refl eq_refl eq_refl eq_refl
                (fun _ => eq_refl)) as (_ & _ & Hstay & _).
    apply Hstay.
    + repeat (constructor; [simpl; intuition discriminate|]). constructor.
    + simpl. tauto.
    + right. reflexivity.
Defined.

(** C4, the part that fails: an image row without a stored path survives an
    update whose images patch is empty. *)
Lemma pathless_image_row_survives :
  returned (fst (updateCar ascii_toLowerCase plain_message 2 no_images
                           (garage_world []))) = true /\
  ~ (forall r,
       In r (car_images
               (db (snd (updateCar ascii_toLowerCase plain_message 2 no_images
                                   (garage_world []))))) ->
       Image.car_id r <> 2).
Proof.
  split; [vm_compute; reflexivity|]. intros H.
  apply (H (image_row 31 2 None None (Some 1))); [|reflexivity].
  vm_compute. tauto.
Qed.

(** ** Ordering *)

Section SortBy.

Context {A : Type} (le : A -> A -> bool).

Hypothesis le_total : forall a b, le a b = true \/ le b a = true.
Hypothesis le_trans :
  forall a b c, le a b = true -> le b c = true -> le a c = true.

Lemma insert_by_perm (x : A) (l : list A) :
  Permutation (x :: l) (insert_by le x l).
Proof.
  induction l as [|y l IH]; simpl; [reflexivity|].
  destruct (le x y); [reflexivity|].
  rewrite perm_swap. now apply perm_skip.
Qed.

Lemma sort_by_perm (l : list A) : Permutation l (sort_by le l).
Proof.
  induction l as [|x l IH]; simpl; [reflexivity|].
  rewrite <- insert_by_perm. now apply perm_skip.
Qed.

Lemma insert_by_sorted (x : A) (l : list A) :
  StronglySorted (fun a b => le a b = true) l ->
  StronglySorted (fun a b => le a b = true) (insert_by le x l).
Proof.
  induction 1 as [|y l Hl IH Hy]; simpl.
  - repeat constructor.
  - destruct (le x y) eqn:Hxy.
    + constructor; [now constructor|]. constructor; [assumption|].
      rewrite Forall_forall in *. intros z Hz. eauto.
    + constructor; [assumption|].
      apply (Permutation_Forall (insert_by_perm x l)).
      constructor; [|assumption].
      destruct (le_total x y); congruence.
Qed.

Lemma sort_by_sorted (l : list A) :
  StronglySorted (fun a b => le a b = true) (sort_by le l).
Proof.
  induction l as [|x l IH]; simpl; [constructor|].
  now apply insert_by_sorted.
Qed.

End SortBy.

Lemma StronglySorted_impl {A} (R S : A -> A -> Prop) (l : list A) :
  (forall a b, R a b -> S a b) -> StronglySorted R l -> StronglySorted S l.
Proof.
  intros HRS. induction 1 as [|a l Hl IH Ha]; constructor; [assumption|].
  rewrite Forall_forall in *. auto.
Qed.

Lemma StronglySorted_map {A B} (f : A -> B) (R : B -> B -> Prop) (l : list A) :
  StronglySorted (fun a b => R (f a) (f b)) l -> StronglySorted R (map f l).
Proof.
  induction 1 as [|a l Hl IH Ha]; simpl; constructor; [assumption|].
  rewrite Forall_forall in *. intros b Hb. apply in_map_iff in Hb.
  destruct Hb as (x & <- & Hx). auto.
Qed.

Lemma sort_images_sorted (imgs : list Image.Row) :
  StronglySorted (fun a b => sort_key a <= sort_key b) (sort_images imgs).
Proof.
  unfold sort_images. destruct imgs as [|i imgs]; [constructor|].
  unfold has_sort_order.
  apply (StronglySorted_impl (fun a b => by_sort_order a b = true)).
  - intros a b. unfold by_sort_order. apply Z.leb_le.
  - apply sort_by_sorted; unfold by_sort_order; intros.
    + rewrite !Z.leb_le. lia.
    + rewrite Z.leb_le in *. lia.
Qed.

Lemma sort_images_perm (imgs : list Image.Row) :
  Permutation imgs (sort_images imgs).
Proof.
  unfold sort_images. destruct imgs as [|i imgs]; [reflexivity|].
  unfold has_sort_order. apply sort_by_perm.
Qed.

(** ** Reads *)

Section ReadProperties.

Variable handleSupabaseError : Exn -> jsstring.

Lemma translate_throws {A} text e w :
  exists e', @translate handleSupabaseError A text e w = (Throw e', w).
Proof. unfold translate. destruct (instanceof_Error e); unfold throw; eauto. Qed.

Lemma maybe_single_ok {A} (rows : list A) (r : Reply A) (a : A) :
  maybe_single rows = r -> error r = None -> data r = Some a -> rows = [a].
Proof.
  intros <-. destruct rows as [|x [|y rows]]; simpl; try discriminate.
  intros _ H. now injection H as ->.
Qed.

Lemma request_query_cases {A} req (f : Db -> Reply A) w :
  (exists e rest,
     request req (query f) w =
     (Return (failed e), set_faults rest (record_call req w))) \/
  (exists rest,
     request req (query f) w =
     (Return (f (db w)), set_faults rest (record_call req w))).
Proof.
  destruct (faults w) as [|[e|] rest] eqn:Hf.
  - right. exists []. apply request_query. now right.
  - left. exists e, rest. now apply request_failing.
  - right. exists rest. apply request_query. now left.
Qed.

(** The shape that both aggregate reads have: when it returns a car, the
    query matched one row and the car is that row, assembled. *)
Lemma fetch_returned (sel : Db -> list Joined) (l1 l2 : string) w car w' :
  try_catch
    (r <- request (ReqSelect TCars) (query (fun d => maybe_single (sel d))) ;;
     match error r with
     | Some carError => throw (StoreExn carError)
     | None =>
         match data r with
         | None => ret None
         | Some carData => ret (Some (assemble carData))
         end
     end)
    (fun e => console_error l1 (Some e) ;; translate handleSupabaseError l2 e) w
  = (Return (Some car), w') ->
  exists j, sel (db w) = [j] /\ car = assemble j.
Proof.
  unfold try_catch, bind at 1.
  destruct (request_query_cases (ReqSelect TCars)
              (fun d => maybe_single (sel d)) w) as [(e & rest & ->)|(rest & ->)].
  - cbn [error failed]. unfold throw, bind, console_error, console_error_text.
    match goal with
    | |- context [translate _ ?t ?x ?y] =>
        destruct (@translate_throws (option AppCar) t x y) as [e' ->]
    end. discriminate.
  - destruct (maybe_single (sel (db w))) as [[j|] [e|]] eqn:Hm;
      cbn [error data]; unfold throw, ret, bind, console_error,
        console_error_text;
      try (match goal with
           | |- context [translate _ ?t ?x ?y] =>
               destruct (@translate_throws (option AppCar) t x y) as [e' ->]
           end; discriminate);
      try discriminate.
    intros H. injection H as <- _.
    apply maybe_single_ok with (a := j) in Hm; [|reflexivity|reflexivity].
    now exists j.
Qed.

Lemma getCarById_returned id w car w' :
  getCarById handleSupabaseError id w = (Return (Some car), w') ->
  exists c, In c (cars (db w)) /\ Car.id c = id /\
            car = assemble (join (db w) c).
Proof.
  intros H. apply (fetch_returned (select_by_id id)) in H.
  destruct H as (j & Hsel & ->). unfold select_by_id in Hsel.
  destruct (filter _ (cars (db w))) as [|c [|c' l]] eqn:Hfl; try discriminate.
  injection Hsel as <-.
  assert (Hin : In c (filter (fun c => Car.id c =? id) (cars (db w))))
    by (rewrite Hfl; now left).
  apply filter_In in Hin. destruct Hin as [Hin Hid]. apply Z.eqb_eq in Hid.
  now exists c.
Qed.

Lemma jsstring_eqb_eq (a b : jsstring) : jsstring_eqb a b = true -> a = b.
Proof. unfold jsstring_eqb. now destruct (list_eq_dec Z.eq_dec a b). Qed.

Lemma getCarBySlug_returned slug w car w' :
  getCarBySlug handleSupabaseError slug w = (Return (Some car), w') ->
  exists c, In c (cars (db w)) /\ Car.slug c = slug /\
            car = assemble (join (db w) c).
Proof.
  intros H. apply (fetch_returned (select_by_slug slug)) in H.
  destruct H as (j & Hsel & ->). unfold select_by_slug in Hsel.
  destruct (filter _ (cars (db w))) as [|c [|c' l]] eqn:Hfl; try discriminate.
  injection Hsel as <-.
  assert (Hin : In c (filter (fun c => jsstring_eqb (Car.slug c) slug)
                             (cars (db w))))
    by (rewrite Hfl; now left).
  apply filter_In in Hin. destruct Hin as [Hin Hid].
  apply jsstring_eqb_eq in Hid. now exists c.
Qed.

Lemma aggregate_query_answered {A} (f : Db -> Reply A) w :
  (forall e, hd_error (faults w) <> Some (Some e)) ->
  exists rest,
    request (ReqSelect TCars) (query f) w =
    (Return (f (db w)), set_faults rest (record_call (ReqSelect TCars) w)).
Proof.
  intros Hf. destruct (faults w) as [|[e|] rest] eqn:Hw.
  - exists []. apply request_query. now right.
  - now destruct (Hf e).
  - exists rest. apply request_query. now left.
Qed.

Lemma getCarById_finds id w c :
  (forall e, hd_error (faults w) <> Some (Some e)) ->
  filter (fun c => Car.id c =? id) (cars (db w)) = [c] ->
  fst (getCarById handleSupabaseError id w) =
    Return (Some (assemble (join (db w) c))).
Proof.
  intros Hf Hc.
  destruct (aggregate_query_answered
              (fun d => maybe_single (select_by_id id d)) w Hf) as (rest & Hq).
  unfold getCarById, try_catch. rewrite (bind_return _ _ _ _ _ Hq).
  unfold select_by_id. rewrite Hc. reflexivity.
Qed.

Lemma getCarBySlug_finds slug w c :
  (forall e, hd_error (faults w) <> Some (Some e)) ->
  filter (fun c => jsstring_eqb (Car.slug c) slug) (cars (db w)) = [c] ->
  fst (getCarBySlug handleSupabaseError slug w) =
    Return (Some (assemble (join (db w) c))).
Proof.
  intros Hf Hc.
  destruct (aggregate_query_answered
              (fun d => maybe_single (select_by_slug slug d)) w Hf)
    as (rest & Hq).
  unfold getCarBySlug, try_catch. rewrite (bind_return _ _ _ _ _ Hq).
  unfold select_by_slug. rewrite Hc. reflexivity.
Qed.

(** C6: an aggregate read, by identifier or by slug, returns the image rows
    of the car sorted ascending by sort_order, a missing sort_order counting
    as 0. Both reads do return the car when the store answers and one car
    has the identifier, or the slug; and by either read the rows with
    sort_order 2, 0, 1 come back as 0, 1, 2. *)
Theorem aggregate_read_sorts_images (w : World) (id : ID) (slug : jsstring) :
  (forall car w',
     getCarById handleSupabaseError id w = (Return (Some car), w') ->
     existsb has_sort_order (images car) = true ->
     StronglySorted (fun a b => sort_key a <= sort_key b) (images car) /\
     Permutation (select_images_of (Car.id (base car)) (db w)) (images car)) /\
  (forall car w',
     getCarBySlug handleSupabaseError slug w = (Return (Some car), w') ->
     existsb has_sort_order (images car) = true ->
     StronglySorted (fun a b => sort_key a <= sort_key b) (images car) /\
     Permutation (select_images_of (Car.id (base car)) (db w)) (images car)) /\
  (forall c,
     (forall e, hd_error (faults w) <> Some (Some e)) ->
     filter (fun c => Car.id c =? id) (cars (db w)) = [c] ->
     exists car,
       fst (getCarById handleSupabaseError id w) = Return (Some car) /\
       Car.id (base car) = Car.id c /\
       StronglySorted (fun a b => sort_key a <= sort_key b) (images car) /\
       Permutation (select_images_of (Car.id c) (db w)) (images car)) /\
  (forall c,
     (forall e, hd_error (faults w) <> Some (Some e)) ->
     filter (fun c => jsstring_eqb (Car.slug c) slug) (cars (db w)) = [c] ->
     exists car,
       fst (getCarBySlug handleSupabaseError slug w) = Return (Some car) /\
       Car.slug (base car) = Car.slug c /\
       StronglySorted (fun a b => sort_key a <= sort_key b) (images car) /\
       Permutation (select_images_of (Car.id c) (db w)) (images car)) /\
  match fst (getCarById handleSupabaseError 1 (garage_world [])) with
  | Return (Some car) =>
      map Image.id (select_images_of 1 garage) = [20; 21; 22] /\
      map sort_key (select_images_of 1 garage) = [2; 0; 1] /\
      map Image.id (images car) = [21; 22; 20] /\
      map sort_key (images car) = [0; 1; 2]
  | _ => False
  end /\
  match fst (getCarBySlug handleSupabaseError (lit "tesla-model-s")
                          (garage_world [])) with
  | Return (Some car) =>
      map Image.id (images car) = [21; 22; 20] /\
      map sort_key (images car) = [0; 1; 2]
  | _ => False
  end.
Proof.
  split; [|split; [|split; [|split; [|split]]]].
  - intros car w' Hrun _. apply getCarById_returned in Hrun.
    destruct Hrun as (c & _ & _ & ->). simpl.
    split; [apply sort_images_sorted|apply sort_images_perm].
  - intros car w' Hrun _. apply getCarBySlug_returned in Hrun.
    destruct Hrun as (c & _ & _ & ->). simpl.
    split; [apply sort_images_sorted|apply sort_images_perm].
  - intros c Hf Hc. exists (assemble (join (db w) c)).
    split; [now apply getCarById_finds|]. split; [reflexivity|]. simpl.
    split; [apply sort_images_sorted|apply sort_images_perm].
  - intros c Hf Hc. exists (assemble (join (db w) c)).
    split; [now apply getCarBySlug_finds|]. split; [reflexivity|]. simpl.
    split; [apply sort_images_sorted|apply sort_images_perm].
  - vm_compute. repeat split.
  - vm_compute. repeat split.
Qed.

(** *** The public fleet *)

Lemma fleet_order_iff (a b : Car.Row) :
  fleet_order a b = true <->
  desc_rank (Car.featured a) < desc_rank (Car.featured b) \/
  (desc_rank (Car.featured a) = desc_rank (Car.featured b) /\
   Car.created_at b <= Car.created_at a).
Proof.
  unfold fleet_order.
  rewrite orb_true_iff, andb_true_iff, Z.ltb_lt, Z.eqb_eq, Z.leb_le.
  reflexivity.
Qed.

Lemma fleet_order_total (a b : Car.Row) :
  fleet_order a b = true \/ fleet_order b a = true.
Proof. rewrite !fleet_order_iff. lia. Qed.

Lemma fleet_order_trans (a b c : Car.Row) :
  fleet_order a b = true -> fleet_order b c = true -> fleet_order a c = true.
Proof. rewrite !fleet_order_iff. lia. Qed.

Lemma fleet_order_precedes (a b : Car.Row) :
  fleet_order a b = true -> fleet_precedes a b.
Proof.
  rewrite fleet_order_iff. intros H. split.
  - intros [Ha Hb]. rewrite Ha, Hb in H. simpl in H. lia.
  - intros Hab. rewrite Hab in H. lia.
Qed.

Lemma visible_flags (c : Car.Row) :
  visible c = true -> Car.available c = Some true /\ Car.hidden c = Some false.
Proof.
  unfold visible. rewrite andb_true_iff.
  destruct (Car.available c) as [[|]|], (Car.hidden c) as [[|]|]; simpl;
    intros [H1 H2]; try discriminate; auto.
Qed.

Lemma fleet_returned w out w' :
  getVisibleCarsForFleet handleSupabaseError w = (Return out, w') ->
  out = map fleet_row (select_fleet (db w)).
Proof.
  unfold getVisibleCarsForFleet, try_catch, bind at 1.
  destruct (request_query_cases (ReqSelect TCars)
              (fun d => ok (select_fleet d)) w) as [(e & rest & ->)|(rest & ->)].
  - cbn [error failed]. unfold throw, bind, console_error, console_error_text.
    match goal with
    | |- context [translate _ ?t ?x ?y] =>
        destruct (@translate_throws (list FleetCar) t x y) as [e' ->]
    end. discriminate.
  - cbn [error data ok]. unfold ret. intros H. now injection H as <- _.
Qed.

Lemma fleet_returns w :
  (forall e, hd_error (faults w) <> Some (Some e)) ->
  returned (fst (getVisibleCarsForFleet handleSupabaseError w)) = true.
Proof.
  intros Hf. unfold getVisibleCarsForFleet, try_catch, bind at 1.
  destruct (faults w) as [|[e|] rest] eqn:Hw.
  - now rewrite (request_query _ _ _ [] (or_intror (conj Hw eq_refl))).
  - now destruct (Hf e).
  - now rewrite (request_query _ _ _ rest (or_introl Hw)).
Qed.

(** C8: whatever the database holds, the public fleet listing is made of
    cars that are available and not hidden, every featured car comes before
    every car that is not, and among cars with the same flag the newer comes
    first; when the store answers, the listing is returned. *)
Theorem fleet_visible_and_ordered (w : World) :
  (forall out w',
     getVisibleCarsForFleet handleSupabaseError w = (Return out, w') ->
     exists rows,
       out = map (fun c => fleet_row (join (db w) c)) rows /\
       Permutation (filter visible (cars (db w))) rows /\
       Forall (fun c => In c (cars (db w)) /\
                        Car.available c = Some true /\
                        Car.hidden c = Some false) rows /\
       StronglySorted fleet_precedes rows /\
       StronglySorted
         (fun a b => ~ (fc_isFeatured a = Some false /\
                        fc_isFeatured b = Some true)) out) /\
  ((forall e, hd_error (faults w) <> Some (Some e)) ->
   returned (fst (getVisibleCarsForFleet handleSupabaseError w)) = true).
Proof.
  split; [|apply fleet_returns].
  intros out w' Hrun. apply fleet_returned in Hrun. subst out.
  exists (sort_by fleet_order (filter visible (cars (db w)))).
  assert (Hsorted : StronglySorted fleet_precedes
                      (sort_by fleet_order (filter visible (cars (db w))))).
  { apply (StronglySorted_impl (fun a b => fleet_order a b = true));
      [apply fleet_order_precedes|].
    apply sort_by_sorted; [apply fleet_order_total|apply fleet_order_trans]. }
  split; [unfold select_fleet; now rewrite map_map|].
  split; [apply sort_by_perm|]. split; [|split; [assumption|]].
  - apply (Permutation_Forall (sort_by_perm fleet_order _)).
    apply Forall_forall. intros c Hc. apply filter_In in Hc.
    destruct Hc as [Hin Hv]. split; [assumption|]. now apply visible_flags.
  - unfold select_fleet. rewrite map_map. apply StronglySorted_map.
    apply (StronglySorted_impl fleet_precedes); [|assumption].
    intros a b [H _]. exact H.
Qed.

(** *** Related cars *)

Lemma related_returned carId limit w out w' :
  getRelatedCars handleSupabaseError carId limit w = (Return out, w') ->
  out = [] \/
  exists cat,
    out = map related_row
              (select_related cat carId (or_default limit 3%nat) (db w)).
Proof.
  unfold getRelatedCars, try_catch, bind at 1.
  destruct (request_query_cases (ReqSelect TCars)
              (fun d => maybe_single (select_category carId d)) w)
    as [(e & rest & ->)|(rest & ->)].
  - cbn [error failed]. unfold throw, bind, console_error, console_error_text.
    match goal with
    | |- context [translate _ ?t ?x ?y] =>
        destruct (@translate_throws (list RelatedCar) t x y) as [e' ->]
    end. discriminate.
  - destruct (maybe_single (select_category carId (db w))) as [d [e|]];
      cbn [error data].
    + unfold throw, bind, console_error, console_error_text.
      match goal with
      | |- context [translate _ ?t ?x ?y] =>
          destruct (@translate_throws (list RelatedCar) t x y) as [e' ->]
      end. discriminate.
    + set (category := match d with Some (Some cat) => cat | _ => [] end).
      destruct (is_empty category).
      * unfold ret. intros H. injection H as <- _. now left.
      * unfold bind.
        match goal with
        | |- context [request ?r (query ?f) ?w1] =>
            destruct (request_query_cases r f w1)
              as [(e & rest' & ->)|(rest' & ->)]
        end.
        -- cbn [error failed]. unfold throw, console_error, console_error_text.
           match goal with
           | |- context [translate _ ?t ?x ?y] =>
               destruct (@translate_throws (list RelatedCar) t x y) as [e' ->]
           end. discriminate.
        -- cbn [error data ok]. unfold ret. intros H. injection H as <- _.
           right. now exists category.
Qed.

Lemma filter_none {A} (f : A -> bool) (l : list A) :
  (forall x, In x l -> f x = false) -> filter f l = [].
Proof.
  induction l as [|x l IH]; simpl; intros H; [reflexivity|].
  rewrite (H x) by now left. apply IH. intros y Hy. apply H. now right.
Qed.

Lemma related_not_found carId limit w :
  (forall e, hd_error (faults w) <> Some (Some e)) ->
  (forall c, In c (cars (db w)) -> Car.id c <> carId) \/
  (exists c, filter (fun c => Car.id c =? carId) (cars (db w)) = [c] /\
             truthy_string (Car.category c) = false) ->
  fst (getRelatedCars handleSupabaseError carId limit w) = Return [].
Proof.
  intros Hf Hcar.
  assert (Hcat : exists d,
            maybe_single (select_category carId (db w)) =
              {| data := d; error := None |} /\
            match d with Some (Some cat) => cat | _ => [] end = []).
  { unfold select_category. destruct Hcar as [Hnone|(c & -> & Hc)].
    - replace (filter (fun c => Car.id c =? carId) (cars (db w))) with (@nil Car.Row).
      + exists None. auto.
      + symmetry. apply filter_none. intros c Hc. apply Z.eqb_neq.
        now apply Hnone.
    - simpl. exists (Some (Car.category c)). split; [reflexivity|].
      now destruct (Car.category c) as [[|]|]. }
  destruct Hcat as (d & Hm & Hd).
  assert (Hq : exists rest,
            request (ReqSelect TCars)
                    (query (fun d => maybe_single (select_category carId d))) w =
            (Return (maybe_single (select_category carId (db w))),
             set_faults rest (record_call (ReqSelect TCars) w))).
  { destruct (faults w) as [|[e|] rest] eqn:Hw.
    - exists []. apply request_query. now right.
    - now destruct (Hf e).
    - exists rest. apply request_query. now left. }
  destruct Hq as (rest & Hq).
  unfold getRelatedCars, try_catch. rewrite (bind_return _ _ _ _ _ Hq).
  rewrite Hm. cbn [error data]. rewrite Hd. reflexivity.
Qed.

Lemma firstn_subset {A} (n : nat) (l : list A) (x : A) :
  In x (firstn n l) -> In x l.
Proof.
  intros H. rewrite <- (firstn_skipn n l). apply in_or_app. now left.
Qed.

(** C9: the related listing never contains the car it was asked about and
    holds at most [limit] entries, 3 when no limit is given; and when the
    store answers and the car does not exist or has no category, the
    listing is the empty sequence, not an error. *)
Theorem related_excludes_self_and_is_capped (w : World) (carId : ID)
  (limit : option nat) :
  (forall out w',
     getRelatedCars handleSupabaseError carId limit w = (Return out, w') ->
     Forall (fun o => rc_id o <> carId) out /\
     (List.length out <= or_default limit 3)%nat) /\
  ((forall e, hd_error (faults w) <> Some (Some e)) ->
   (forall c, In c (cars (db w)) -> Car.id c <> carId) \/
   (exists c, filter (fun c => Car.id c =? carId) (cars (db w)) = [c] /\
              truthy_string (Car.category c) = false) ->
   fst (getRelatedCars handleSupabaseError carId limit w) = Return []).
Proof.
  split; [|apply related_not_found].
  intros out w' Hrun. apply related_returned in Hrun.
  destruct Hrun as [->|(cat & ->)]; [split; [constructor|simpl; lia]|].
  unfold select_related. rewrite map_map. split.
  - apply Forall_forall. intros o Ho. apply in_map_iff in Ho.
    destruct Ho as (c & <- & Hc). simpl.
    apply firstn_subset, filter_In in Hc. destruct Hc as [_ Hc].
    rewrite !andb_true_iff in Hc. destruct Hc as [[_ Hid] _].
    apply negb_true_iff in Hid. now apply Z.eqb_neq.
  - rewrite length_map. apply firstn_le_length.
Qed.

End ReadProperties.

Lemma aggregate_read_sorts_images_witness :
  (StronglySorted (fun a b => sort_key a <= sort_key b)
                  (images (assemble (join garage model_s))) /\
   Permutation (select_images_of 1 garage)
               (images (assemble (join garage model_s)))) /\
  (exists car,
     fst (getCarById plain_message 1 (garage_world [])) = Return (Some car) /\
     StronglySorted (fun a b => sort_key a <= sort_key b) (images car) /\
     Permutation (select_images_of 1 garage) (images car)) /\
  (exists car,
     fst (getCarBySlug plain_message (lit "tesla-model-s") (garage_world [])) =
       Return (Some car) /\
     StronglySorted (fun a b => sort_key a <= sort_key b) (images car) /\
     Permutation (select_images_of 1 garage) (images car)).
Proof.
  destruct (aggregate_read_sorts_images plain_message (garage_world []) 1
              (lit "tesla-model-s")) as (Hid & _ & Hfound & Hslug & _).
  split; [|split].
  - apply (Hid (assemble (join garage model_s))
               (set_faults []
                  (record_call (ReqSelect TCars) (garage_world [])))).
    + vm_compute. reflexivity.
    + vm_compute. reflexivity.
  - destruct (Hfound model_s) as (car & Hrun & _ & Hsorted & Hperm).
    + intros e. discriminate.
    + vm_compute. reflexivity.
    + exists car. repeat split; assumption.
  - destruct (Hslug model_s) as (car & Hrun & _ & Hsorted & Hperm).
    + intros e. discriminate.
    + vm_compute. reflexivity.
    + exists car. repeat split; assumption.
Defined.

Lemma fleet_visible_and_ordered_witness :
  returned (fst (getVisibleCarsForFleet plain_message (garage_world []))) = true /\
  exists rows,
    map fleet_row (select_fleet garage) =
      map (fun c => fleet_row (join garage c)) rows /\
    Forall (fun c => Car.available c = Some true /\ Car.hidden c = Some false)
           rows /\
    StronglySorted fleet_precedes rows.
Proof.
  destruct (fleet_visible_and_ordered plain_message (garage_world []))
    as [Hout Hret].
  split.
  - apply Hret. intros e. discriminate.
  - destruct (Hout (map fleet_row (select_fleet garage))
                   (set_faults [] (record_call (ReqSelect TCars)
                                               (garage_world []))))
      as (rows & Hmap & _ & Hvis & Hsorted & _).
    + vm_compute. reflexivity.
    + exists rows. split; [exact Hmap|]. split; [|exact Hsorted].
      apply (Forall_impl _ (fun c H => proj2 H) Hvis).
Defined.

Lemma related_excludes_self_and_is_capped_witness :
  (Forall (fun o => rc_id o <> 1)
          (map related_row (select_related (lit "electric") 1 3 garage)) /\
   (List.length
      (map related_row (select_related (lit "electric") 1%Z 3 garage))
    <= 3)%nat) /\
  fst (getRelatedCars plain_message 99 None (garage_world [])) = Return [].
Proof.
  split.
  - destruct (related_excludes_self_and_is_capped plain_message
                (garage_world []) 1 None) as [Hout _].
    apply (Hout _ (set_faults []
                     (record_call (ReqSelect TCars)
                        (set_faults []
                           (record_call (ReqSelect TCars) (garage_world [])))))).
    vm_compute. reflexivity.
  - destruct (related_excludes_self_and_is_capped plain_message
                (garage_world []) 99 None) as [_ Hnone].
    apply Hnone.
    + intros e. discriminate.
    + left. intros c Hc. simpl in Hc.
      repeat (destruct Hc as [<-|Hc]; [discriminate|]). destruct Hc.
Defined.

(** * Further properties *)

(** ** generateSlug: what it keeps, and its fixed points *)

Lemma is_space_not_word (c : Z) : is_space c = true -> is_word c = false.
Proof.
  unfold is_space, is_word, is_upper, is_lower, is_digit, in_range.
  rewrite !orb_true_iff, !andb_true_iff, !Z.leb_le, !Z.eqb_eq.
  intros H.
  rewrite !orb_false_iff, !andb_false_iff, !Z.leb_gt, !Z.eqb_neq. lia.
Qed.

Lemma is_junk_not_word (c : Z) : is_junk c = true -> is_word c = false.
Proof.
  unfold is_junk. rewrite negb_true_iff, orb_false_iff. tauto.
Qed.

Lemma is_hyphen_not_word (c : Z) : is_hyphen c = true -> is_word c = false.
Proof. intros H. apply is_hyphen_eq in H. now subst. Qed.

Lemma filter_word_flush cls (n : nat) (sub run : jsstring) :
  (forall c, cls c = true -> is_word c = false) ->
  filter is_word sub = [] ->
  Forall (fun c => cls c = true) run ->
  filter is_word (flush_run n sub run) = [].
Proof.
  intros Hcls Hsub Hrun. unfold flush_run. destruct run as [|c run']; [reflexivity|].
  destruct (n <=? List.length (c :: run'))%nat; [assumption|].
  apply filter_none. intros x Hx. rewrite Forall_forall in Hrun. auto.
Qed.

Lemma filter_word_replace cls (n : nat) (sub : jsstring) :
  (forall c, cls c = true -> is_word c = false) ->
  filter is_word sub = [] ->
  forall s run,
    Forall (fun c => cls c = true) run ->
    filter is_word (replace_runs_from cls n sub run s) = filter is_word s.
Proof.
  intros Hcls Hsub s. induction s as [|c s IH]; intros run Hrun; simpl.
  - now apply (filter_word_flush cls).
  - destruct (cls c) eqn:Hc.
    + rewrite (Hcls c Hc). apply IH. apply Forall_app. split; [assumption|].
      now constructor.
    + rewrite filter_app, (filter_word_flush cls n sub run) by assumption.
      simpl. now rewrite (IH [] (Forall_nil _)).
Qed.

Lemma filter_word_trim_start (s : jsstring) :
  filter is_word (trim_start is_hyphen s) = filter is_word s.
Proof.
  induction s as [|c s IH]; simpl; [reflexivity|].
  destruct (is_hyphen c) eqn:Hc; [|reflexivity].
  now rewrite (is_hyphen_not_word c Hc).
Qed.

Lemma filter_word_trim_end (s : jsstring) :
  filter is_word (trim_end is_hyphen s) = filter is_word s.
Proof.
  induction s as [|c s IH]; simpl; [reflexivity|].
  destruct (trim_end is_hyphen s) as [|z l].
  - simpl in IH. rewrite <- IH. destruct (is_hyphen c) eqn:Hc.
    + now rewrite (is_hyphen_not_word c Hc).
    + simpl. now destruct (is_word c).
  - simpl in *. destruct (is_word c); now rewrite IH.
Qed.

Lemma replace_runs_none cls (n : nat) (sub s : jsstring) :
  Forall (fun c => cls c = false) s ->
  replace_runs_from cls n sub [] s = s.
Proof.
  induction 1 as [|c s Hc _ IH]; simpl; [reflexivity|].
  rewrite Hc, IH. reflexivity.
Qed.

Lemma collapse_single_hyphens (s run : jsstring) :
  run = [] \/ run = [45] ->
  has_double_hyphen (run ++ s) = false ->
  replace_runs_from is_hyphen 2 [45] run s = run ++ s.
Proof.
  revert run. induction s as [|c s IH]; intros run Hrun Hd; simpl.
  - rewrite app_nil_r. now destruct Hrun as [-> | ->].
  - destruct (is_hyphen c) eqn:Hc.
    + assert (c = 45) by now apply is_hyphen_eq. subst c.
      destruct Hrun as [-> | ->]; [|discriminate Hd].
      simpl. apply (IH [45]); [now right|exact Hd].
    + assert (Hs : has_double_hyphen s = false).
      { destruct Hrun as [-> | ->]; simpl in Hd; rewrite Hc in Hd;
          simpl in Hd; assumption. }
      rewrite (IH [] (or_introl eq_refl) Hs).
      now destruct Hrun as [-> | ->].
Qed.

Lemma trim_start_id (s : jsstring) :
  starts_with_hyphen s = false -> trim_start is_hyphen s = s.
Proof. destruct s as [|c s]; simpl; [reflexivity|]. now intros ->. Qed.

Lemma trim_end_id (s : jsstring) :
  ends_with_hyphen s = false -> trim_end is_hyphen s = s.
Proof.
  induction s as [|c s IH]; [reflexivity|]. intros H.
  destruct s as [|d s'].
  - simpl in *. now rewrite H.
  - change (ends_with_hyphen (d :: s') = false) in H.
    specialize (IH H). simpl in *. now rewrite IH.
Qed.

Lemma slug_char_facts (c : Z) :
  is_slug_char c = true ->
  is_ascii c = true /\ is_upper c = false /\ is_space c = false /\
  is_junk c = false.
Proof.
  unfold is_slug_char, is_ascii, is_junk, is_word, is_space, is_upper,
    is_lower, is_digit, is_hyphen, in_range.
  rewrite !orb_true_iff, !andb_true_iff, !Z.leb_le, !Z.eqb_eq.
  intros H.
  rewrite negb_false_iff.
  rewrite !orb_false_iff, !andb_false_iff, !Z.leb_gt, !Z.eqb_neq.
  rewrite !orb_true_iff, !andb_true_iff, !Z.leb_le, !Z.eqb_eq. lia.
Qed.

Section SlugFurther.

Variable toLowerCase : jsstring -> jsstring.

Hypothesis toLowerCase_no_upper :
  forall s, forallb (fun c => negb (is_upper c)) (toLowerCase s) = true.
Hypothesis toLowerCase_ascii :
  forall s, forallb is_ascii s = true -> toLowerCase s = map ascii_lower s.

Lemma generateSlug_filter_word (s : jsstring) :
  filter is_word (generateSlug toLowerCase s) = filter is_word (toLowerCase s).
Proof.
  unfold generateSlug, replace_runs.
  rewrite filter_word_trim_end, filter_word_trim_start.
  rewrite (filter_word_replace is_hyphen 2 (lit "-") is_hyphen_not_word eq_refl)
    by constructor.
  rewrite (filter_word_replace is_junk 1 (lit "") is_junk_not_word eq_refl)
    by constructor.
  now rewrite (filter_word_replace is_space 1 (lit "-") is_space_not_word eq_refl)
    by constructor.
Qed.

(** X1: the word characters of a slug are those of the lowercased name, in
    the same order; so the slug is empty exactly when the lowercased name
    has no word character. *)
Theorem generateSlug_keeps_word_characters (s : jsstring) :
  filter is_word (generateSlug toLowerCase s) = filter is_word (toLowerCase s) /\
  (generateSlug toLowerCase s = [] <->
   forallb (fun c => negb (is_word c)) (toLowerCase s) = true).
Proof.
  split; [apply generateSlug_filter_word|].
  assert (Hnone : forall l : jsstring,
            filter is_word l = [] <->
            forallb (fun c => negb (is_word c)) l = true).
  { induction l as [|c l IH]; simpl; [tauto|].
    destruct (is_word c); simpl; [split; discriminate|exact IH]. }
  rewrite <- Hnone, <- generateSlug_filter_word. split; [now intros ->|].
  intros Hw.
  pose proof (generateSlug_chars toLowerCase toLowerCase_no_upper s) as Hch.
  assert (Hhead : starts_with_hyphen (generateSlug toLowerCase s) = false)
    by (unfold generateSlug; apply trim_end_head, trim_start_head).
  destruct (generateSlug toLowerCase s) as [|c l]; [reflexivity|].
  inversion Hch as [|? ? Hc _]; subst. simpl in Hhead, Hw.
  assert (is_word c = true).
  { unfold is_slug_char in Hc. unfold is_word. rewrite Hhead in Hc.
    rewrite orb_false_r in Hc. apply orb_true_iff in Hc.
    destruct Hc as [Hc| ->]; [|apply orb_true_r].
    apply orb_true_iff in Hc. destruct Hc as [-> | ->];
      rewrite ?orb_true_r; reflexivity. }
  rewrite H in Hw. discriminate Hw.
Qed.

Lemma generateSlug_fixed (s : jsstring) :
  forallb is_slug_char s = true ->
  starts_with_hyphen s = false ->
  ends_with_hyphen s = false ->
  has_double_hyphen s = false ->
  generateSlug toLowerCase s = s.
Proof.
  intros Hch Hstart Hend Hdouble.
  rewrite forallb_forall in Hch.
  assert (Hlow : toLowerCase s = s).
  { rewrite toLowerCase_ascii.
    - rewrite <- (map_id s) at 2. apply map_ext_in. intros c Hc.
      unfold ascii_lower.
      now destruct (slug_char_facts c (Hch c Hc)) as (_ & -> & _).
    - apply forallb_forall. intros c Hc.
      now destruct (slug_char_facts c (Hch c Hc)). }
  unfold generateSlug, replace_runs. rewrite Hlow.
  rewrite (replace_runs_none is_space).
  2:{ apply Forall_forall. intros c Hc.
      now destruct (slug_char_facts c (Hch c Hc)) as (_ & _ & ? & _). }
  rewrite (replace_runs_none is_junk).
  2:{ apply Forall_forall. intros c Hc.
      now destruct (slug_char_facts c (Hch c Hc)) as (_ & _ & _ & ?). }
  change (lit "-") with [45].
  rewrite (collapse_single_hyphens s [] (or_introl eq_refl) Hdouble).
  simpl app. now rewrite (trim_start_id s Hstart), (trim_end_id s Hend).
Qed.

(** X2: a string that already has the shape of a slug is its own slug, and
    so the slug of a slug is that slug. *)
Theorem generateSlug_idempotent :
  (forall s,
     forallb is_slug_char s = true ->
     starts_with_hyphen s = false ->
     ends_with_hyphen s = false ->
     has_double_hyphen s = false ->
     generateSlug toLowerCase s = s) /\
  (forall s,
     generateSlug toLowerCase (generateSlug toLowerCase s) =
     generateSlug toLowerCase s).
Proof.
  split; [exact generateSlug_fixed|]. intros s. apply generateSlug_fixed.
  - apply forallb_forall. apply Forall_forall.
    now apply generateSlug_chars.
  - unfold generateSlug. apply trim_end_head, trim_start_head.
  - unfold generateSlug. apply trim_end_tail.
  - unfold generateSlug.
    apply trim_end_no_double, trim_start_no_double, collapse_hyphens_no_double.
Qed.

End SlugFurther.

Lemma generateSlug_keeps_word_characters_witness :
  filter is_word (generateSlug ascii_toLowerCase (lit "Tesla Model S!!")) =
    lit "teslamodels" /\
  generateSlug ascii_toLowerCase (lit " -- !! ") = [].
Proof.
  destruct (generateSlug_keeps_word_characters ascii_toLowerCase
              ascii_toLowerCase_no_upper (lit "Tesla Model S!!")) as [Hw _].
  destruct (generateSlug_keeps_word_characters ascii_toLowerCase
              ascii_toLowerCase_no_upper (lit " -- !! ")) as [_ He].
  split; [rewrite Hw; vm_compute; reflexivity|].
  apply He. vm_compute. reflexivity.
Defined.

Lemma generateSlug_idempotent_witness :
  generateSlug ascii_toLowerCase (lit "tesla-model-s") = lit "tesla-model-s" /\
  generateSlug ascii_toLowerCase
    (generateSlug ascii_toLowerCase (lit "  Rivian  R1T -- 2024 ")) =
  generateSlug ascii_toLowerCase (lit "  Rivian  R1T -- 2024 ").
Proof.
  destruct (generateSlug_idempotent ascii_toLowerCase ascii_toLowerCase_no_upper
              (fun s _ => eq_refl)) as [Hfix Hidem].
  split; [apply Hfix; vm_compute; reflexivity|apply Hidem].
Defined.

(** ** The primary image of a listing row *)

Lemma find_first_sorted {A} (R : A -> A -> Prop) (p : A -> bool) (l : list A)
  (i : A) :
  (forall a, R a a) ->
  StronglySorted R l -> find p l = Some i ->
  forall j, In j l -> p j = true -> R i j.
Proof.
  intros Hrefl Hs. induction Hs as [|a l Hl IH Ha]; simpl; [discriminate|].
  destruct (p a) eqn:Hpa.
  - intros H j [<-|Hj] _; injection H as ->; [apply Hrefl|].
    rewrite Forall_forall in Ha. auto.
  - intros H j [<-|Hj] Hpj; [congruence|]. now apply IH.
Qed.

Lemma find_none_iff {A} (p : A -> bool) (l : list A) :
  (forall j, In j l -> p j = false) -> find p l = None.
Proof.
  induction l as [|a l IH]; simpl; intros H; [reflexivity|].
  rewrite (H a) by now left. apply IH. intros j Hj. apply H. now right.
Qed.

Lemma by_sort_order_sorted (imgs : list Image.Row) :
  StronglySorted (fun a b => sort_key a <= sort_key b)
                 (sort_by by_sort_order imgs).
Proof.
  apply (StronglySorted_impl (fun a b => by_sort_order a b = true)).
  - intros a b. unfold by_sort_order. apply Z.leb_le.
  - apply sort_by_sorted; unfold by_sort_order; intros.
    + rewrite !Z.leb_le. lia.
    + rewrite Z.leb_le in *. lia.
Qed.

(** The image that [primary_image] picks. *)
Lemma primary_image_least (imgs : list Image.Row) :
  (primary_image imgs = None <-> imgs = []) /\
  (forall i,
     primary_image imgs = Some i ->
     In i imgs /\
     (forall j, In j imgs -> flagged j = true ->
                flagged i = true /\ sort_key i <= sort_key j) /\
     ((forall j, In j imgs -> flagged j = false) ->
      forall j, In j imgs -> sort_key i <= sort_key j)).
Proof.
  pose proof (by_sort_order_sorted imgs) as Hsorted.
  pose proof (sort_by_perm by_sort_order imgs) as Hperm.
  unfold primary_image. fold flagged.
  change (fun i => is_true (Image.is_primary (Image.payload i))) with flagged.
  set (sorted := sort_by by_sort_order imgs) in *.
  split.
  - split.
    + destruct (find flagged sorted); [discriminate|].
      destruct sorted as [|a l]; [|discriminate]. intros _.
      now apply Permutation_sym, Permutation_nil in Hperm.
    + intros ->. reflexivity.
  - intros i Hi. destruct (find flagged sorted) as [k|] eqn:Hfind.
    + injection Hi as ->. destruct (find_some _ _ Hfind) as [Hin Hflag].
      split; [now apply (Permutation_in _ (Permutation_sym Hperm))|]. split.
      * intros j Hj Hpj. split; [assumption|].
        apply (find_first_sorted (fun a b => sort_key a <= sort_key b)
                 flagged sorted i); auto.
        -- intros a. lia.
        -- now apply (Permutation_in _ Hperm).
      * intros Hnone. apply (Permutation_in _ (Permutation_sym Hperm)) in Hin.
        rewrite (Hnone i Hin) in Hflag. discriminate.
    + destruct sorted as [|a l] eqn:Hs; [discriminate|]. injection Hi as ->.
      assert (Hin : In i imgs)
        by (apply (Permutation_in _ (Permutation_sym Hperm)); now left).
      split; [assumption|]. split.
      * intros j Hj Hpj. apply (Permutation_in _ Hperm) in Hj.
        pose proof (find_none _ _ Hfind j Hj). congruence.
      * intros _ j Hj. apply (Permutation_in _ Hperm) in Hj.
        apply StronglySorted_inv in Hsorted. destruct Hsorted as [_ Hall].
        destruct Hj as [<-|Hj]; [lia|]. rewrite Forall_forall in Hall. auto.
Qed.

(** ** The other listings *)

Lemma jsstring_eqb_refl (a : jsstring) : jsstring_eqb a a = true.
Proof. unfold jsstring_eqb. now destruct (list_eq_dec Z.eq_dec a a). Qed.

Lemma jsstring_leb_total (a b : jsstring) :
  jsstring_leb a b = true \/ jsstring_leb b a = true.
Proof.
  revert b. induction a as [|x a IH]; intros [|y b]; simpl; auto.
  destruct (Z.lt_trichotomy x y) as [H|[H|H]].
  - left. apply orb_true_iff. left. now apply Z.ltb_lt.
  - subst y. rewrite Z.ltb_irrefl, Z.eqb_refl. simpl. apply IH.
  - right. apply orb_true_iff. left. now apply Z.ltb_lt.
Qed.

Lemma jsstring_leb_trans (a b c : jsstring) :
  jsstring_leb a b = true -> jsstring_leb b c = true -> jsstring_leb a c = true.
Proof.
  revert b c. induction a as [|x a IH]; intros [|y b] [|z c]; simpl; auto;
    try discriminate.
  rewrite !orb_true_iff, !andb_true_iff, !Z.ltb_lt, !Z.eqb_eq.
  intros [H1|[H1 H1']] [H2|[H2 H2']]; try (left; lia).
  right. split; [lia|]. eauto.
Qed.

Lemma mem_jsstring (x : jsstring) (l : list jsstring) :
  existsb (jsstring_eqb x) l = true <-> In x l.
Proof.
  rewrite existsb_exists. split.
  - intros (y & Hy & Heq). apply jsstring_eqb_eq in Heq. now subst.
  - intros H. exists x. split; [assumption|apply jsstring_eqb_refl].
Qed.

Lemma unique_from_In (x : jsstring) (l seen : list jsstring) :
  In x (unique_from seen l) <-> In x l /\ ~ In x seen.
Proof.
  revert seen. induction l as [|y l IH]; intros seen; simpl; [tauto|].
  destruct (existsb (jsstring_eqb y) seen) eqn:Hy.
  - apply mem_jsstring in Hy. rewrite IH. split.
    + intros [H1 H2]. auto.
    + intros [[<-|H1] H2]; [contradiction|auto].
  - assert (Hny : ~ In y seen)
      by (intros H; apply mem_jsstring in H; congruence).
    simpl. rewrite IH. simpl. split.
    + intros [<-|[H1 H2]]; [auto|]. split; [auto|]. intros H. apply H2. now right.
    + intros [[<-|H1] H2]; [now left|].
      destruct (list_eq_dec Z.eq_dec y x) as [->|Hne]; [now left|].
      right. split; [assumption|]. intros [H|H]; auto.
Qed.

Lemma unique_from_NoDup (l seen : list jsstring) : NoDup (unique_from seen l).
Proof.
  revert seen. induction l as [|y l IH]; intros seen; simpl; [constructor|].
  destruct (existsb (jsstring_eqb y) seen); [apply IH|].
  constructor; [|apply IH]. rewrite unique_from_In. intros [_ H].
  apply H. now left.
Qed.

Lemma truthy_strings_In (x : jsstring) (l : list (option jsstring)) :
  In x (truthy_strings l) <-> x <> [] /\ In (Some x) l.
Proof.
  unfold truthy_strings. rewrite in_flat_map. split.
  - intros ([[|c s]|] & Hin & Hx); simpl in Hx; try contradiction.
    destruct Hx as [<-|[]]. split; [discriminate|assumption].
  - intros [Hne Hin]. exists (Some x). split; [assumption|].
    destruct x; [contradiction|now left].
Qed.

Lemma sorted_NoDup_strict {A} (R : A -> A -> Prop) (l : list A) :
  StronglySorted R l -> NoDup l ->
  StronglySorted (fun a b => R a b /\ a <> b) l.
Proof.
  induction 1 as [|a l Hl IH Ha]; intros Hnd; constructor;
    inversion Hnd as [|? ? Hnotin Hnd']; subst; [auto|].
  rewrite Forall_forall in *. intros b Hb. split; [auto|].
  intros ->. contradiction.
Qed.

Section ListingProperties.

Variable handleSupabaseError : Exn -> jsstring.

Lemma getCategories_returned w out w' :
  getCategories handleSupabaseError w = (Return out, w') ->
  out = sort_by jsstring_leb
                (unique (truthy_strings (select_visible_categories (db w)))).
Proof.
  unfold getCategories, try_catch, bind at 1.
  destruct (request_query_cases (ReqSelect TCars)
              (fun d => ok (select_visible_categories d)) w)
    as [(e & rest & ->)|(rest & ->)].
  - cbn [error failed]. unfold throw, bind, console_error, console_error_text.
    match goal with
    | |- context [translate _ ?t ?x ?y] =>
        destruct (translate_throws handleSupabaseError (A := list jsstring) t x y)
          as [e' ->]
    end. discriminate.
  - cbn [error data ok]. unfold ret. intros H. now injection H as <- _.
Qed.

(** X4: the categories come back in strictly ascending order of their code
    units, so without duplicates; the empty string is never one of them; and
    they are exactly the non-empty categories of the cars that are available
    and not hidden. *)
Theorem getCategories_sorted_distinct (w : World) (out : list jsstring)
  (w' : World) :
  getCategories handleSupabaseError w = (Return out, w') ->
  StronglySorted (fun a b => jsstring_leb a b = true /\ a <> b) out /\
  ~ In [] out /\
  (forall cat,
     In cat out <->
     cat <> [] /\
     exists c, In c (cars (db w)) /\ visible c = true /\
               Car.category c = Some cat).
Proof.
  intros Hrun. apply getCategories_returned in Hrun. subst out.
  set (l := unique (truthy_strings (select_visible_categories (db w)))).
  pose proof (sort_by_perm jsstring_leb l) as Hperm.
  assert (Hin : forall cat,
            In cat (sort_by jsstring_leb l) <->
            cat <> [] /\
            exists c, In c (cars (db w)) /\ visible c = true /\
                      Car.category c = Some cat).
  { intros cat. split.
    - intros H. apply (Permutation_in _ (Permutation_sym Hperm)) in H.
      unfold l, unique in H. apply unique_from_In in H. destruct H as [H _].
      apply truthy_strings_In in H. destruct H as [Hne H].
      split; [assumption|]. unfold select_visible_categories in H.
      apply in_map_iff in H. destruct H as (c & Hc & Hin).
      apply filter_In in Hin. destruct Hin as [Hin Hv]. now exists c.
    - intros [Hne (c & Hc & Hv & Hcat)]. apply (Permutation_in _ Hperm).
      unfold l, unique. apply unique_from_In. split; [|tauto].
      apply truthy_strings_In. split; [assumption|].
      unfold select_visible_categories. apply in_map_iff. exists c.
      split; [assumption|]. apply filter_In. now split. }
  split; [|split; [|exact Hin]].
  - apply sorted_NoDup_strict.
    + apply sort_by_sorted; [apply jsstring_leb_total|apply jsstring_leb_trans].
    + apply (Permutation_NoDup Hperm). apply unique_from_NoDup.
  - intros H. apply Hin in H. now destruct H.
Qed.

Lemma getAllCarsForAdminList_returned w out w' :
  getAllCarsForAdminList handleSupabaseError w = (Return out, w') ->
  out = map admin_row (select_admin (db w)).
Proof.
  unfold getAllCarsForAdminList, try_catch, bind at 1.
  destruct (request_query_cases (ReqSelect TCars)
              (fun d => ok (select_admin d)) w) as [(e & rest & ->)|(rest & ->)].
  - cbn [error failed]. unfold throw, bind, console_error, console_error_text.
    match goal with
    | |- context [translate _ ?t ?x ?y] =>
        destruct (translate_throws handleSupabaseError (A := list AdminCar) t x y)
          as [e' ->]
    end. discriminate.
  - cbn [error data ok]. unfold ret. intros H. now injection H as <- _.
Qed.

(** X5: the admin list holds every car of the table once, whatever its
    flags, with the flags and the creation time of the stored row, and the
    newest car comes first. *)
Theorem getAllCarsForAdminList_complete_newest_first (w : World)
  (out : list AdminCar) (w' : World) :
  getAllCarsForAdminList handleSupabaseError w = (Return out, w') ->
  exists rows,
    out = map (fun c => admin_row (join (db w) c)) rows /\
    Permutation (cars (db w)) rows /\
    Forall2 (fun o c => ac_id o = Car.id c /\
                        ac_available o = Car.available c /\
                        ac_featured o = Car.featured c /\
                        ac_hidden o = Car.hidden c /\
                        ac_created_at o = Car.created_at c) out rows /\
    StronglySorted (fun a b => ac_created_at b <= ac_created_at a) out.
Proof.
  intros Hrun. apply getAllCarsForAdminList_returned in Hrun. subst out.
  exists (sort_by newest_first (cars (db w))).
  unfold select_admin. rewrite map_map.
  split; [reflexivity|]. split; [apply sort_by_perm|]. split.
  - induction (sort_by newest_first (cars (db w))) as [|c l IH]; simpl;
      constructor; [simpl; auto|exact IH].
  - apply StronglySorted_map. simpl.
    apply (StronglySorted_impl (fun a b => newest_first a b = true)).
    + intros a b. unfold newest_first. apply Z.leb_le.
    + apply sort_by_sorted; unfold newest_first; intros.
      * rewrite !Z.leb_le. lia.
      * rewrite Z.leb_le in *. lia.
Qed.

End ListingProperties.

Lemma getCategories_sorted_distinct_witness :
  StronglySorted (fun a b => jsstring_leb a b = true /\ a <> b)
                 [lit "electric"; lit "truck"] /\
  ~ In [] [lit "electric"; lit "truck"].
Proof.
  destruct (getCategories_sorted_distinct plain_message (garage_world [])
              [lit "electric"; lit "truck"]
              (set_faults [] (record_call (ReqSelect TCars) (garage_world []))))
    as (Hsorted & Hnonempty & _).
  - vm_compute. reflexivity.
  - split; assumption.
Defined.

Lemma getAllCarsForAdminList_complete_newest_first_witness :
  exists rows,
    map admin_row (select_admin garage) =
      map (fun c => admin_row (join garage c)) rows /\
    Permutation (cars garage) rows /\
    StronglySorted (fun a b => ac_created_at b <= ac_created_at a)
                   (map admin_row (select_admin garage)).
Proof.
  destruct (getAllCarsForAdminList_complete_newest_first plain_message
              (garage_world []) (map admin_row (select_admin garage))
              (set_faults [] (record_call (ReqSelect TCars) (garage_world []))))
    as (rows & Hout & Hperm & _ & Hsorted).
  - vm_compute. reflexivity.
  - exists rows. split; [exact Hout|]. split; [exact Hperm|exact Hsorted].
Defined.

(** ** Reads *)

#[export] Instance untouched_Frame : Frame untouched.
Proof.
  split; unfold untouched; intros; simpl; auto.
  destruct H as [H1 H2], H0 as [H3 H4]. split; congruence.
Qed.

Section ReadFurther.

Variable handleSupabaseError : Exn -> jsstring.

(** X6: no read changes a table or the bucket, whatever the store answers. *)
Theorem reads_write_nothing (w : World) (id : ID) (slug : jsstring)
  (limit : option nat) :
  untouched w (snd (_getBaseCarById handleSupabaseError id w)) /\
  untouched w (snd (_getBaseCarBySlug handleSupabaseError slug w)) /\
  untouched w (snd (getCarById handleSupabaseError id w)) /\
  untouched w (snd (getCarBySlug handleSupabaseError slug w)) /\
  untouched w (snd (getAllCarsForAdminList handleSupabaseError w)) /\
  untouched w (snd (getVisibleCarsForFleet handleSupabaseError w)) /\
  untouched w (snd (getCategories handleSupabaseError w)) /\
  untouched w (snd (getRelatedCars handleSupabaseError id limit w)).
Proof.
  assert (H1 : respects untouched (_getBaseCarById handleSupabaseError id))
    by (unfold _getBaseCarById; frame_steps).
  assert (H2 : respects untouched (_getBaseCarBySlug handleSupabaseError slug))
    by (unfold _getBaseCarBySlug; frame_steps).
  assert (H3 : respects untouched (getCarById handleSupabaseError id))
    by (unfold getCarById; frame_steps).
  assert (H4 : respects untouched (getCarBySlug handleSupabaseError slug))
    by (unfold getCarBySlug; frame_steps).
  assert (H5 : respects untouched (getAllCarsForAdminList handleSupabaseError))
    by (unfold getAllCarsForAdminList; frame_steps).
  assert (H6 : respects untouched (getVisibleCarsForFleet handleSupabaseError))
    by (unfold getVisibleCarsForFleet; frame_steps).
  assert (H7 : respects untouched (getCategories handleSupabaseError))
    by (unfold getCategories; frame_steps).
  assert (H8 : respects untouched (getRelatedCars handleSupabaseError id limit))
    by (unfold getRelatedCars; frame_steps).
  repeat split; first [apply H1|apply H2|apply H3|apply H4|apply H5|apply H6
                      |apply H7|apply H8].
Qed.

Lemma request_query_answered {A} req (f : Db -> Reply A) w :
  (forall e x, faults w <> Some e :: x) ->
  exists rest,
    request req (query f) w =
    (Return (f (db w)), set_faults rest (record_call req w)).
Proof.
  intros Hf. destruct (faults w) as [|[e|] rest] eqn:Hw.
  - exists []. apply request_query. now right.
  - now destruct (Hf e rest).
  - exists rest. apply request_query. now left.
Qed.

Lemma base_read_refused id w e rest :
  faults w = Some e :: rest ->
  exists w',
    _getBaseCarById handleSupabaseError id w =
    (Throw (surfaced handleSupabaseError
              "An unexpected error occurred fetching base car by ID" e), w').
Proof.
  intros Hf. unfold _getBaseCarById, try_catch.
  rewrite (bind_return _ _ _ _ _ (request_failing _ _ _ _ _ Hf)).
  cbn [error failed]. unfold throw, translate, surfaced. simpl.
  destruct (is_Error_instance e); unfold throw; eexists; reflexivity.
Qed.

Lemma base_read_answered id w :
  (forall e x, faults w <> Some e :: x) ->
  exists w',
    (select_base_by_id id (db w) = [] ->
     _getBaseCarById handleSupabaseError id w = (Return None, w')) /\
    (forall c, select_base_by_id id (db w) = [c] ->
     _getBaseCarById handleSupabaseError id w = (Return (Some c), w')) /\
    (forall c c' l, select_base_by_id id (db w) = c :: c' :: l ->
     exists e', _getBaseCarById handleSupabaseError id w = (Throw e', w')).
Proof.
  intros Hf.
  destruct (request_query_answered (ReqSelect TCars)
              (fun d => maybe_single (select_base_by_id id d)) w Hf)
    as [rest Hq].
  exists (set_faults rest (record_call (ReqSelect TCars) w)).
  unfold _getBaseCarById, try_catch. rewrite (bind_return _ _ _ _ _ Hq).
  repeat split.
  - intros ->. reflexivity.
  - intros c ->. reflexivity.
  - intros c c' l ->. simpl. unfold translate. simpl. unfold throw.
    eexists. reflexivity.
Qed.

Lemma aggregate_read_refused id w e rest :
  faults w = Some e :: rest ->
  exists w',
    getCarById handleSupabaseError id w =
      (Throw (surfaced handleSupabaseError
                "An unexpected error occurred fetching car by ID" e), w') /\
    console w' =
      console w ++ [{| log_text := lit "Error in getCarById:";
                       log_cause := Some (StoreExn e) |}].
Proof.
  intros Hf. unfold getCarById, try_catch.
  rewrite (bind_return _ _ _ _ _ (request_failing _ _ _ _ _ Hf)).
  cbn [error failed]. unfold throw, translate, surfaced, bind, console_error,
    console_error_text. simpl.
  destruct (is_Error_instance e); unfold throw; eexists; split; reflexivity.
Qed.

Lemma aggregate_read_answered id w :
  (forall e x, faults w <> Some e :: x) ->
  exists w',
    console w' = console w /\
    (select_base_by_id id (db w) = [] ->
     getCarById handleSupabaseError id w = (Return None, w')) /\
    (forall c, select_base_by_id id (db w) = [c] ->
     getCarById handleSupabaseError id w =
       (Return (Some (assemble (join (db w) c))), w')) /\
    (forall c c' l, select_base_by_id id (db w) = c :: c' :: l ->
     exists e' w'', getCarById handleSupabaseError id w = (Throw e', w'')).
Proof.
  intros Hf.
  destruct (request_query_answered (ReqSelect TCars)
              (fun d => maybe_single (select_by_id id d)) w Hf)
    as [rest Hq].
  exists (set_faults rest (record_call (ReqSelect TCars) w)).
  unfold getCarById, try_catch. rewrite (bind_return _ _ _ _ _ Hq).
  unfold select_by_id, select_base_by_id.
  split; [reflexivity|]. repeat split.
  - intros ->. reflexivity.
  - intros c ->. reflexivity.
  - intros c c' l ->. simpl. unfold translate, bind, console_error,
      console_error_text. simpl. unfold throw. do 2 eexists. reflexivity.
Qed.

(** X7: the aggregate read and the base read of the same identifier agree:
    both throw, or both find nothing, or the aggregate read returns the row
    of the base read with its three flags resolved to their defaults
    (available to true, featured and hidden to false) and nothing else of
    the row changed. *)
Theorem aggregate_read_extends_base_read (w : World) (id : ID) :
  match fst (_getBaseCarById handleSupabaseError id w),
        fst (getCarById handleSupabaseError id w) with
  | Return None, Return None => True
  | Return (Some c), Return (Some car) =>
      Car.available (base car) = Some (or_default (Car.available c) true) /\
      Car.featured (base car) = Some (or_default (Car.featured c) false) /\
      Car.hidden (base car) = Some (or_default (Car.hidden c) false) /\
      Car.id (base car) = Car.id c /\ Car.slug (base car) = Car.slug c /\
      Car.name (base car) = Car.name c /\
      Car.category (base car) = Car.category c /\
      Car.description (base car) = Car.description c /\
      Car.short_description (base car) = Car.short_description c /\
      Car.created_at (base car) = Car.created_at c /\
      Car.created_by (base car) = Car.created_by c
  | Throw _, Throw _ => True
  | _, _ => False
  end.
Proof.
  destruct (faults w) as [|[e|] rest] eqn:Hw.
  2:{ destruct (base_read_refused id w e rest Hw) as [w1 ->].
      destruct (aggregate_read_refused id w e rest Hw) as (w2 & -> & _).
      exact I. }
  all: assert (Hf : forall e x, faults w <> Some e :: x)
         by (rewrite Hw; discriminate);
       destruct (base_read_answered id w Hf) as (w1 & Hb0 & Hb1 & Hb2);
       destruct (aggregate_read_answered id w Hf) as (w2 & _ & Ha0 & Ha1 & Ha2);
       destruct (select_base_by_id id (db w)) as [|c [|c' l]];
       [rewrite Hb0, Ha0 by reflexivity; exact I
       |rewrite (Hb1 c), (Ha1 c) by reflexivity; simpl; repeat split
       |destruct (Hb2 c c' l eq_refl) as [e1 ->];
        destruct (Ha2 c c' l eq_refl) as (e2 & w3 & ->); exact I].
Qed.

(** X8: an aggregate read of an identifier that no car has, when the store
    answers, returns null and writes nothing to the console. *)
Theorem getCarById_not_found (w : World) (id : ID) :
  (forall e x, faults w <> Some e :: x) ->
  (forall c, In c (cars (db w)) -> Car.id c <> id) ->
  fst (getCarById handleSupabaseError id w) = Return None /\
  console (snd (getCarById handleSupabaseError id w)) = console w.
Proof.
  intros Hf Hnone.
  destruct (aggregate_read_answered id w Hf) as (w2 & Hc & Ha0 & _).
  rewrite Ha0; [auto|].
  apply filter_none. intros c Hin. apply Z.eqb_neq. now apply Hnone.
Qed.

(** X9: when the store refuses the query of an aggregate read, the read
    throws one error whose message is the translation of the store's error,
    or the fixed message of the operation when that error is not an Error
    instance, and writes one line to the console. *)
Theorem getCarById_store_error (w : World) (id : ID) (e : StoreError)
  (rest : list (option StoreError)) :
  faults w = Some e :: rest ->
  fst (getCarById handleSupabaseError id w) =
    Throw (surfaced handleSupabaseError
             "An unexpected error occurred fetching car by ID" e) /\
  console (snd (getCarById handleSupabaseError id w)) =
    console w ++ [{| log_text := lit "Error in getCarById:";
                     log_cause := Some (StoreExn e) |}].
Proof.
  intros Hf. destruct (aggregate_read_refused id w e rest Hf) as (w' & -> & Hc).
  auto.
Qed.

End ReadFurther.

Lemma getCarById_not_found_witness :
  fst (getCarById plain_message 99 (garage_world [])) = Return None /\
  console (snd (getCarById plain_message 99 (garage_world []))) = [].
Proof.
  apply (getCarById_not_found plain_message (garage_world []) 99).
  - intros e x. discriminate.
  - intros c Hc. simpl in Hc.
    repeat (destruct Hc as [<-|Hc]; [discriminate|]). destruct Hc.
Defined.

Lemma getCarById_store_error_witness :
  fst (getCarById plain_message 1
                  (garage_world [Some (refused "connection lost")])) =
    Throw (JsError (lit "An unexpected error occurred fetching car by ID")) /\
  List.length
    (console (snd (getCarById plain_message 1
                     (garage_world [Some (refused "connection lost")])))) = 1%nat.
Proof.
  destruct (getCarById_store_error plain_message
              (garage_world [Some (refused "connection lost")]) 1
              (refused "connection lost") [] eq_refl) as [Hout Hlog].
  split; [exact Hout|]. now rewrite Hlog.
Defined.

(** ** Related cars: who is listed *)

Section RelatedFurther.

Variable handleSupabaseError : Exn -> jsstring.

Lemma related_returned_with_category carId limit w out w' :
  getRelatedCars handleSupabaseError carId limit w = (Return out, w') ->
  out = [] \/
  exists ref cat,
    In ref (cars (db w)) /\ Car.id ref = carId /\
    Car.category ref = Some cat /\
    out = map related_row
              (select_related cat carId (or_default limit 3%nat) (db w)).
Proof.
  unfold getRelatedCars, try_catch, bind at 1.
  destruct (request_query_cases (ReqSelect TCars)
              (fun d => maybe_single (select_category carId d)) w)
    as [(e & rest & ->)|(rest & ->)].
  - cbn [error failed]. unfold throw, bind, console_error, console_error_text.
    match goal with
    | |- context [translate _ ?t ?x ?y] =>
        destruct (translate_throws handleSupabaseError (A := list RelatedCar)
                    t x y) as [e' ->]
    end. discriminate.
  - destruct (maybe_single (select_category carId (db w))) as [d [e|]] eqn:Hm;
      cbn [error data].
    + unfold throw, bind, console_error, console_error_text.
      match goal with
      | |- context [translate _ ?t ?x ?y] =>
          destruct (translate_throws handleSupabaseError (A := list RelatedCar)
                      t x y) as [e' ->]
      end. discriminate.
    + destruct d as [[cat|]|];
        try (unfold ret; intros H; injection H as <- _; now left).
      destruct (is_empty cat) eqn:Hcat;
        [unfold ret; intros H; injection H as <- _; now left|].
      unfold bind.
      match goal with
      | |- context [request ?r (query ?f) ?w1] =>
          destruct (request_query_cases r f w1)
            as [(e & rest' & ->)|(rest' & ->)]
      end.
      * cbn [error failed]. unfold throw, console_error, console_error_text.
        match goal with
        | |- context [translate _ ?t ?x ?y] =>
            destruct (translate_throws handleSupabaseError
                        (A := list RelatedCar) t x y) as [e' ->]
        end. discriminate.
      * cbn [error data ok]. unfold ret. intros H. injection H as <- _.
        right.
        apply maybe_single_ok with (a := Some cat) in Hm;
          [|reflexivity|reflexivity].
        unfold select_category in Hm.
        destruct (filter _ (cars (db w))) as [|ref [|ref' l]] eqn:Hfl;
          try discriminate.
        injection Hm as Href.
        assert (Hin : In ref (filter (fun c => Car.id c =? carId) (cars (db w))))
          by (rewrite Hfl; now left).
        apply filter_In in Hin. destruct Hin as [Hin Hid].
        apply Z.eqb_eq in Hid. exists ref, cat. auto.
Qed.

(** X10: every entry of the related listing is a car of the table that is
    available, not hidden, and of the same category as the car the listing
    was asked for. *)
Theorem getRelatedCars_same_category_and_visible (w : World) (carId : ID)
  (limit : option nat) (out : list RelatedCar) (w' : World) :
  getRelatedCars handleSupabaseError carId limit w = (Return out, w') ->
  Forall (fun o =>
            exists ref c,
              In ref (cars (db w)) /\ Car.id ref = carId /\
              In c (cars (db w)) /\ Car.id c = rc_id o /\
              Car.available c = Some true /\ Car.hidden c = Some false /\
              Car.category c = Car.category ref /\
              rc_category o = Car.category ref) out.
Proof.
  intros Hrun. apply related_returned_with_category in Hrun.
  destruct Hrun as [->|(ref & cat & Hin & Hid & Hcat & ->)]; [constructor|].
  unfold select_related. rewrite map_map. apply Forall_forall. intros o Ho.
  apply in_map_iff in Ho. destruct Ho as (c & <- & Hc).
  apply firstn_subset, filter_In in Hc. destruct Hc as [Hcin Hc].
  rewrite !andb_true_iff in Hc. destruct Hc as [[Hsame _] Hv].
  apply visible_flags in Hv. destruct Hv as [Hav Hhid].
  assert (Hc' : Car.category c = Some cat).
  { unfold same_category in Hsame. destruct (Car.category c); [|discriminate].
    apply jsstring_eqb_eq in Hsame. now subst. }
  exists ref, c. simpl. rewrite Hcat. auto 10.
Qed.

End RelatedFurther.

Lemma getRelatedCars_same_category_and_visible_witness :
  Forall (fun o =>
            exists ref c,
              In ref (cars garage) /\ Car.id ref = 1 /\
              In c (cars garage) /\ Car.id c = rc_id o /\
              Car.available c = Some true /\ Car.hidden c = Some false /\
              Car.category c = Car.category ref /\
              rc_category o = Car.category ref)
         (map related_row (select_related (lit "electric") 1 3 garage)).
Proof.
  apply (getRelatedCars_same_category_and_visible plain_message
           (garage_world []) 1 None _
           (set_faults []
              (record_call (ReqSelect TCars)
                 (set_faults []
                    (record_call (ReqSelect TCars) (garage_world [])))))).
  vm_compute. reflexivity.
Defined.

(** ** Calls that go through *)

Lemma calm_tail w f rest : calm w -> faults w = f :: rest -> f = None /\ Forall (eq None) rest.
Proof.
  unfold calm. intros H Hf. rewrite Hf in H. inversion H; subst. auto.
Qed.

Lemma request_write_calm {A} req (f : Db -> A * Db) w :
  calm w ->
  exists w',
    request req (write f) w = (Return (ok (fst (f (db w)))), w') /\
    calm w' /\ db w' = snd (f (db w)) /\ bucket w' = bucket w /\
    console w' = console w /\ calls w' = calls w ++ [req].
Proof.
  intros Hc. destruct (faults w) as [|x rest] eqn:Hf.
  - rewrite (request_write _ _ _ [] (or_intror (conj Hf eq_refl))).
    eexists. split; [reflexivity|]. unfold calm. simpl. repeat split.
    constructor.
  - destruct (calm_tail w x rest Hc Hf) as [-> Hrest].
    rewrite (request_write _ _ _ rest (or_introl Hf)).
    eexists. split; [reflexivity|]. unfold calm. simpl. repeat split.
    assumption.
Qed.

Lemma request_query_calm {A} req (f : Db -> Reply A) w :
  calm w ->
  exists w',
    request req (query f) w = (Return (f (db w)), w') /\
    calm w' /\ db w' = db w /\ bucket w' = bucket w /\
    console w' = console w /\ calls w' = calls w ++ [req].
Proof.
  intros Hc. destruct (faults w) as [|x rest] eqn:Hf.
  - rewrite (request_query _ _ _ [] (or_intror (conj Hf eq_refl))).
    eexists. split; [reflexivity|]. unfold calm. simpl. repeat split.
    constructor.
  - destruct (calm_tail w x rest Hc Hf) as [-> Hrest].
    rewrite (request_query _ _ _ rest (or_introl Hf)).
    eexists. split; [reflexivity|]. unfold calm. simpl. repeat split.
    assumption.
Qed.

Lemma request_remove_calm req paths w :
  calm w ->
  exists w',
    request req (remove_objects paths) w = (Return (ok tt), w') /\
    calm w' /\ db w' = db w /\
    bucket w' = storage_remove paths (bucket w) /\
    console w' = console w /\ calls w' = calls w ++ [req].
Proof.
  intros Hc. destruct (faults w) as [|x rest] eqn:Hf.
  - rewrite request_unscripted by assumption. simpl.
    eexists. split; [reflexivity|]. unfold calm. simpl. rewrite Hf.
    repeat split. constructor.
  - destruct (calm_tail w x rest Hc Hf) as [-> Hrest].
    rewrite (request_passing _ _ _ _ Hf). simpl.
    eexists. split; [reflexivity|]. unfold calm. simpl. repeat split.
    assumption.
Qed.

(** ** createCar: the run without a refusal *)

Section CreateFurther.

Variable toLowerCase : jsstring -> jsstring.
Variable handleSupabaseError : Exn -> jsstring.

Lemma insertRelated_calm newCar carData w :
  calm w ->
  exists w',
    insertRelated newCar carData w =
      (Return (fst (related_inserted newCar carData (db w))), w') /\
    calm w' /\ db w' = snd (related_inserted newCar carData (db w)) /\
    bucket w' = bucket w /\ console w' = console w.
Proof.
  intros Hc. unfold insertRelated, related_inserted.
  (* pricing *)
  assert (H1 : exists w1,
            (match Upsert.pricing carData with
             | Some p =>
                 r <- request (ReqInsertPricing (Car.id newCar) p)
                              (write (insert_pricing (Car.id newCar) p)) ;;
                 match error r with
                 | Some e =>
                     throw (JsError (lit "Pricing insert failed: " ++ message e))
                 | None => ret (data r)
                 end
             | None => ret None
             end) w =
            (Return (fst (pricing_inserted (Car.id newCar) carData (db w))), w1) /\
            calm w1 /\
            db w1 = snd (pricing_inserted (Car.id newCar) carData (db w)) /\
            bucket w1 = bucket w /\ console w1 = console w).
  { unfold pricing_inserted. destruct (Upsert.pricing carData) as [p|].
    - destruct (request_write_calm (ReqInsertPricing (Car.id newCar) p)
                  (insert_pricing (Car.id newCar) p) w Hc)
        as (w1 & Hr & Hc1 & Hd & Hb & Hl & _).
      rewrite (bind_return _ _ _ _ _ Hr). exists w1. auto.
    - exists w. auto. }
  destruct H1 as (w1 & Hr1 & Hc1 & Hd1 & Hb1 & Hl1).
  rewrite (bind_return _ _ _ _ _ Hr1).
  destruct (pricing_inserted (Car.id newCar) carData (db w)) as [p d1].
  simpl in Hd1 |- *.
  (* images *)
  assert (H2 : exists w2,
            (if is_empty (Upsert.images carData) then ret []
             else
               r <- request (ReqInsertImages (Car.id newCar)
                                             (Upsert.images carData))
                            (write (insert_images (Car.id newCar)
                                                  (Upsert.images carData))) ;;
               match error r with
               | Some e =>
                   throw (JsError (lit "Images insert failed: " ++ message e))
               | None => ret (or_default (data r) [])
               end) w1 =
            (Return (fst (images_inserted (Car.id newCar) carData d1)), w2) /\
            calm w2 /\
            db w2 = snd (images_inserted (Car.id newCar) carData d1) /\
            bucket w2 = bucket w /\ console w2 = console w).
  { unfold images_inserted. destruct (is_empty (Upsert.images carData)).
    - exists w1. rewrite Hd1. auto.
    - destruct (request_write_calm
                  (ReqInsertImages (Car.id newCar) (Upsert.images carData))
                  (insert_images (Car.id newCar) (Upsert.images carData)) w1 Hc1)
        as (w2 & Hr & Hc2 & Hd & Hb & Hl & _).
      rewrite (bind_return _ _ _ _ _ Hr). exists w2. rewrite <- Hd1.
      repeat split; auto; congruence. }
  destruct H2 as (w2 & Hr2 & Hc2 & Hd2 & Hb2 & Hl2).
  rewrite (bind_return _ _ _ _ _ Hr2).
  destruct (images_inserted (Car.id newCar) carData d1) as [i d2].
  simpl in Hd2 |- *.
  (* features *)
  assert (H3 : exists w3,
            (if is_empty (Upsert.features carData) then ret []
             else
               r <- request (ReqInsertFeatures (Car.id newCar)
                                               (Upsert.features carData))
                            (write (insert_features (Car.id newCar)
                                                    (Upsert.features carData))) ;;
               match error r with
               | Some e =>
                   throw (JsError (lit "Features insert failed: " ++ message e))
               | None => ret (or_default (data r) [])
               end) w2 =
            (Return (fst (features_inserted (Car.id newCar) carData d2)), w3) /\
            calm w3 /\
            db w3 = snd (features_inserted (Car.id newCar) carData d2) /\
            bucket w3 = bucket w /\ console w3 = console w).
  { unfold features_inserted. destruct (is_empty (Upsert.features carData)).
    - exists w2. rewrite Hd2. auto.
    - destruct (request_write_calm
                  (ReqInsertFeatures (Car.id newCar) (Upsert.features carData))
                  (insert_features (Car.id newCar) (Upsert.features carData))
                  w2 Hc2)
        as (w3 & Hr & Hc3 & Hd & Hb & Hl & _).
      rewrite (bind_return _ _ _ _ _ Hr). exists w3. rewrite <- Hd2.
      repeat split; auto; congruence. }
  destruct H3 as (w3 & Hr3 & Hc3 & Hd3 & Hb3 & Hl3).
  rewrite (bind_return _ _ _ _ _ Hr3).
  destruct (features_inserted (Car.id newCar) carData d2) as [f d3].
  simpl in Hd3 |- *.
  (* specifications *)
  assert (H4 : exists w4,
            (if is_empty (Upsert.specifications carData) then ret []
             else
               r <- request (ReqInsertSpecifications (Car.id newCar)
                               (Upsert.specifications carData))
                            (write (insert_specifications (Car.id newCar)
                                      (Upsert.specifications carData))) ;;
               match error r with
               | Some e =>
                   throw (JsError (lit "Specifications insert failed: "
                                   ++ message e))
               | None => ret (or_default (data r) [])
               end) w3 =
            (Return (fst (specifications_inserted (Car.id newCar) carData d3)),
             w4) /\
            calm w4 /\
            db w4 = snd (specifications_inserted (Car.id newCar) carData d3) /\
            bucket w4 = bucket w /\ console w4 = console w).
  { unfold specifications_inserted.
    destruct (is_empty (Upsert.specifications carData)).
    - exists w3. rewrite Hd3. auto.
    - destruct (request_write_calm
                  (ReqInsertSpecifications (Car.id newCar)
                     (Upsert.specifications carData))
                  (insert_specifications (Car.id newCar)
                     (Upsert.specifications carData)) w3 Hc3)
        as (w4 & Hr & Hc4 & Hd & Hb & Hl & _).
      rewrite (bind_return _ _ _ _ _ Hr). exists w4. rewrite <- Hd3.
      repeat split; auto; congruence. }
  destruct H4 as (w4 & Hr4 & Hc4 & Hd4 & Hb4 & Hl4).
  rewrite (bind_return _ _ _ _ _ Hr4).
  destruct (specifications_inserted (Car.id newCar) carData d3) as [s d4].
  simpl in Hd4 |- *. exists w4. auto.
Qed.

Lemma createCar_calm carData userId w :
  Upsert.name carData <> [] -> calm w ->
  exists w',
    createCar toLowerCase handleSupabaseError carData userId w =
      (Return (fst (related_inserted
                      (new_car (db w) (baseCarPayload toLowerCase carData userId))
                      carData
                      (snd (insert_car (baseCarPayload toLowerCase carData userId)
                                       (db w))))), w') /\
    calm w' /\
    db w' = snd (related_inserted
                   (new_car (db w) (baseCarPayload toLowerCase carData userId))
                   carData
                   (snd (insert_car (baseCarPayload toLowerCase carData userId)
                                    (db w)))) /\
    bucket w' = bucket w /\ console w' = console w.
Proof.
  intros Hname Hc.
  assert (Hne : is_empty (Upsert.name carData) = false)
    by (destruct (Upsert.name carData); easy).
  unfold createCar. rewrite Hne.
  destruct (request_write_calm
              (ReqInsertCar (baseCarPayload toLowerCase carData userId))
              (insert_car (baseCarPayload toLowerCase carData userId)) w Hc)
    as (w1 & Hr & Hc1 & Hd & Hb & Hl & _).
  rewrite (bind_return _ _ _ _ _ Hr). cbn [error data ok fst insert_car].
  destruct (insertRelated_calm
              (new_car (db w) (baseCarPayload toLowerCase carData userId))
              carData w1 Hc1) as (w2 & Hr2 & Hc2 & Hd2 & Hb2 & Hl2).
  rewrite (try_catch_return _ _ _ _ _ Hr2). rewrite Hd in *.
  exists w2. repeat split; auto; congruence.
Qed.

Lemma numbered_payloads {A B} (mk : ID -> A -> B) (payload : B -> A)
  (n : ID) (ps : list A) :
  (forall i p, payload (mk i p) = p) ->
  map payload (map (fun '(i, p) => mk i p) (number_from n ps)) = ps.
Proof.
  intros H. revert n. induction ps as [|p ps IH]; intros n; simpl;
    [reflexivity|].
  now rewrite H, IH.
Qed.

Lemma numbered_Forall {A B} (mk : ID -> A -> B) (P : B -> Prop) (n : ID)
  (ps : list A) :
  (forall i p, P (mk i p)) ->
  Forall P (map (fun '(i, p) => mk i p) (number_from n ps)).
Proof.
  intros H. revert n. induction ps as [|p ps IH]; intros n; simpl;
    constructor; auto.
Qed.

Lemma is_empty_nil {A} (l : list A) : is_empty l = true -> l = [].
Proof. now destruct l. Qed.

(** What the related inserts that went through leave in the tables. *)
Lemma related_inserted_tables newCar carData d :
  exists p i f s d',
    related_inserted newCar carData d =
      ({| base := newCar; pricing := p; images := sort_images i;
          features := f; specifications := s |}, d') /\
    cars d' = cars d /\
    car_pricing d' = car_pricing d ++ option_list p /\
    car_images d' = car_images d ++ i /\
    car_features d' = car_features d ++ f /\
    car_specifications d' = car_specifications d ++ s /\
    option_map Pricing.payload p = Upsert.pricing carData /\
    map Image.payload i = Upsert.images carData /\
    map Feature.payload f = Upsert.features carData /\
    map Specification.payload s = Upsert.specifications carData /\
    Forall (fun r => Pricing.car_id r = Car.id newCar) (option_list p) /\
    Forall (fun r => Image.car_id r = Car.id newCar) i /\
    Forall (fun r => Feature.car_id r = Car.id newCar) f /\
    Forall (fun r => Specification.car_id r = Car.id newCar) s.
Proof.
  unfold related_inserted, pricing_inserted, images_inserted,
    features_inserted, specifications_inserted.
  destruct (Upsert.pricing carData) as [p|];
    destruct (is_empty (Upsert.images carData)) eqn:Hi;
    destruct (is_empty (Upsert.features carData)) eqn:Hf;
    destruct (is_empty (Upsert.specifications carData)) eqn:Hs;
    try apply is_empty_nil in Hi; try apply is_empty_nil in Hf;
    try apply is_empty_nil in Hs;
    cbn [fst snd insert_pricing insert_images insert_features
         insert_specifications];
    do 5 eexists; (split; [reflexivity|]);
    cbn [cars car_pricing car_images car_features car_specifications
         advance set_pricing set_images set_features set_specifications
         option_list option_map Pricing.payload];
    rewrite ?app_nil_r, ?Hi, ?Hf, ?Hs;
    repeat split;
    try reflexivity;
    try (symmetry; assumption);
    try (apply numbered_payloads; reflexivity);
    try (apply numbered_Forall; reflexivity);
    try (repeat constructor).
Qed.

Lemma calm_answers w : calm w -> forall e x, faults w <> Some e :: x.
Proof.
  intros Hc e x Hf. destruct (calm_tail w _ _ Hc Hf) as [H _]. discriminate.
Qed.

Lemma filter_all {A} (f : A -> bool) (l : list A) :
  Forall (fun x => f x = true) l -> filter f l = l.
Proof.
  induction 1 as [|x l Hx _ IH]; simpl; [reflexivity|]. now rewrite Hx, IH.
Qed.

Lemma filter_fresh {A} (key : A -> ID) (n : ID) (l new : list A) :
  Forall (fun r => key r < n) l ->
  Forall (fun r => key r = n) new ->
  filter (fun r => key r =? n) (l ++ new) = new.
Proof.
  intros Hl Hnew. rewrite filter_app.
  rewrite (filter_none (fun r => key r =? n) l).
  - apply filter_all. apply (Forall_impl _ (P := fun r => key r = n));
      [|assumption]. intros r ->. apply Z.eqb_refl.
  - rewrite Forall_forall in Hl. intros r Hr. apply Z.eqb_neq.
    specialize (Hl r Hr). lia.
Qed.

(** X11: a create whose calls all go through returns the aggregate it
    wrote: the root row with the name, the slug of the name and the flags
    resolved, appended to the cars table; the pricing, features and
    specifications as given; the images as given, sorted by sort order; and
    every related row is in its table, tagged with the identifier of the new
    car. Nothing is written to the console. *)
Theorem createCar_success (carData : Upsert.t) (userId : field ID) (w : World) :
  Upsert.name carData <> [] -> calm w ->
  exists car w',
    createCar toLowerCase handleSupabaseError carData userId w =
      (Return car, w') /\
    Car.name (base car) = Upsert.name carData /\
    Car.slug (base car) = generateSlug toLowerCase (Upsert.name carData) /\
    Car.available (base car) =
      Some (nullish (Upsert.available carData) true) /\
    Car.featured (base car) = Some (nullish (Upsert.featured carData) false) /\
    Car.hidden (base car) = Some (nullish (Upsert.hidden carData) false) /\
    cars (db w') = cars (db w) ++ [base car] /\
    option_map Pricing.payload (pricing car) = Upsert.pricing carData /\
    Permutation (Upsert.images carData) (map Image.payload (images car)) /\
    StronglySorted (fun a b => sort_key a <= sort_key b) (images car) /\
    map Feature.payload (features car) = Upsert.features carData /\
    map Specification.payload (specifications car) =
      Upsert.specifications carData /\
    Forall (fun r => Pricing.car_id r = Car.id (base car) /\
                     In r (car_pricing (db w'))) (option_list (pricing car)) /\
    Forall (fun r => Image.car_id r = Car.id (base car) /\
                     In r (car_images (db w'))) (images car) /\
    Forall (fun r => Feature.car_id r = Car.id (base car) /\
                     In r (car_features (db w'))) (features car) /\
    Forall (fun r => Specification.car_id r = Car.id (base car) /\
                     In r (car_specifications (db w'))) (specifications car) /\
    console w' = console w.
Proof.
  intros Hname Hc.
  destruct (createCar_calm carData userId w Hname Hc)
    as (w' & Hrun & _ & Hdb & _ & Hlog).
  set (newCar := new_car (db w) (baseCarPayload toLowerCase carData userId)) in *.
  destruct (related_inserted_tables newCar carData
              (snd (insert_car (baseCarPayload toLowerCase carData userId) (db w))))
    as (p & i & f & s & d' & Hrel & Hcars & Hp & Hi & Hf & Hs & Hpp & Hip & Hfp
        & Hsp & Hpc & Hic & Hfc & Hsc).
  rewrite Hrel in Hrun, Hdb. simpl in Hrun, Hdb. subst d'.
  eexists. exists w'. split; [exact Hrun|]. cbn [base pricing images features
    specifications].
  assert (Hwith : forall {A} (P : A -> Prop) (old new : list A),
            Forall P new ->
            Forall (fun r => P r /\ In r (old ++ new)) new).
  { intros A P old new H. rewrite Forall_forall in *. intros r Hr.
    split; [auto|]. apply in_or_app. now right. }
  repeat split; try reflexivity; try assumption.
  - rewrite <- Hip. apply Permutation_map. apply sort_images_perm.
  - apply sort_images_sorted.
  - rewrite Hp. now apply Hwith.
  - rewrite Hi. apply (Permutation_Forall (sort_images_perm i)).
    now apply Hwith.
  - rewrite Hf. now apply Hwith.
  - rewrite Hs. now apply Hwith.
Qed.

(** X12: when the identifiers the store hands out are fresh, a create whose
    calls all go through can be read back: the aggregate read of the new
    identifier returns the very aggregate the create returned. *)
Theorem createCar_then_getCarById (carData : Upsert.t) (userId : field ID)
  (w : World) :
  Upsert.name carData <> [] -> calm w -> fresh (db w) ->
  exists car w',
    createCar toLowerCase handleSupabaseError carData userId w =
      (Return car, w') /\
    fst (getCarById handleSupabaseError (Car.id (base car)) w') =
      Return (Some car).
Proof.
  intros Hname Hc (Fc & Fp & Fi & Ff & Fs).
  destruct (createCar_calm carData userId w Hname Hc)
    as (w' & Hrun & Hc' & Hdb & _ & _).
  set (newCar := new_car (db w) (baseCarPayload toLowerCase carData userId)) in *.
  destruct (related_inserted_tables newCar carData
              (snd (insert_car (baseCarPayload toLowerCase carData userId) (db w))))
    as (p & i & f & s & d' & Hrel & Hcars & Hp & Hi & Hf & Hs & _ & _ & _
        & _ & Hpc & Hic & Hfc & Hsc).
  rewrite Hrel in Hrun, Hdb. simpl in Hrun, Hdb. subst d'.
  eexists. exists w'. split; [exact Hrun|]. cbn [base].
  destruct (aggregate_read_answered handleSupabaseError (Car.id newCar) w'
              (calm_answers w' Hc')) as (w'' & _ & _ & Hone & _).
  assert (Hid : Car.id newCar = next_id (db w)) by reflexivity.
  assert (Hsel : select_base_by_id (Car.id newCar) (db w') = [newCar]).
  { unfold select_base_by_id. rewrite Hcars. simpl cars. rewrite Hid.
    apply (filter_fresh Car.id); [assumption|]. now constructor. }
  rewrite (Hone newCar Hsel). simpl fst. do 2 f_equal.
  unfold assemble, join. cbn [j_car j_pricing j_images j_features
    j_specifications].
  rewrite Hp, Hi, Hf, Hs. simpl car_pricing. simpl car_images.
  simpl car_features. simpl car_specifications. rewrite Hid in *.
  rewrite (filter_fresh Pricing.car_id), (filter_fresh Image.car_id),
    (filter_fresh Feature.car_id), (filter_fresh Specification.car_id)
    by assumption.
  f_equal. unfold embed_pricing.
  destruct (pricing_one_to_one (db w')); destruct p; reflexivity.
Qed.

End CreateFurther.

Lemma createCar_success_witness :
  exists car w',
    createCar ascii_toLowerCase plain_message tesla Undefined
              (world_of empty_db []) = (Return car, w') /\
    Car.slug (base car) = lit "tesla-model-s" /\
    cars (db w') = [base car] /\
    map Feature.payload (features car) = [[(lit "seats", lit "5")]].
Proof.
  destruct (createCar_success ascii_toLowerCase plain_message tesla Undefined
              (world_of empty_db []))
    as (car & w' & Hrun & _ & Hslug & _ & _ & _ & Hcars & _ & _ & _ & Hfeat & _).
  - discriminate.
  - constructor.
  - exists car, w'. split; [exact Hrun|]. split; [|split; assumption].
    rewrite Hslug. vm_compute. reflexivity.
Defined.

Lemma createCar_then_getCarById_witness :
  exists car w',
    createCar ascii_toLowerCase plain_message tesla Undefined
              (garage_world []) = (Return car, w') /\
    fst (getCarById plain_message (Car.id (base car)) w') = Return (Some car).
Proof.
  apply (createCar_then_getCarById ascii_toLowerCase plain_message tesla
           Undefined (garage_world [])).
  - discriminate.
  - constructor.
  - unfold fresh. simpl. repeat split; repeat constructor.
Defined.

(** ** createCar: the root insert refused *)

Section CreateRefused.

Variable toLowerCase : jsstring -> jsstring.
Variable handleSupabaseError : Exn -> jsstring.

(** X13: when the store refuses the root insert, the create throws the
    store's own error, untranslated; it has made that one call and no other,
    so there is nothing to clean up, and the tables are as before. *)
Theorem createCar_root_insert_refused (carData : Upsert.t) (userId : field ID)
  (w : World) (e : StoreError) (rest : list (option StoreError)) :
  Upsert.name carData <> [] ->
  faults w = Some e :: rest ->
  exists w',
    createCar toLowerCase handleSupabaseError carData userId w =
      (Throw (StoreExn e), w') /\
    calls w' =
      calls w ++ [ReqInsertCar (baseCarPayload toLowerCase carData userId)] /\
    db w' = db w /\ bucket w' = bucket w /\
    console w' =
      console w ++ [{| log_text := lit "Error creating base car:";
                       log_cause := Some (StoreExn e) |}].
Proof.
  intros Hname Hf.
  assert (Hne : is_empty (Upsert.name carData) = false)
    by (destruct (Upsert.name carData); easy).
  unfold createCar. rewrite Hne.
  rewrite (bind_return _ _ _ _ _ (request_failing _ _ _ _ _ Hf)).
  cbn [error data failed]. unfold bind, console_error, console_error_text, throw.
  simpl. eexists. repeat split.
Qed.

End CreateRefused.

Lemma createCar_root_insert_refused_witness :
  exists w',
    createCar ascii_toLowerCase plain_message tesla Undefined
              (garage_world [Some (refused "duplicate slug")]) =
      (Throw (StoreExn (refused "duplicate slug")), w') /\
    db w' = garage.
Proof.
  destruct (createCar_root_insert_refused ascii_toLowerCase plain_message tesla
              Undefined (garage_world [Some (refused "duplicate slug")])
              (refused "duplicate slug") [])
    as (w' & Hrun & _ & Hdb & _).
  - discriminate.
  - reflexivity.
  - exists w'. split; assumption.
Defined.

(** ** updateCar: what a failure leaves, and renaming *)

Section UpdateFurther.

Variable toLowerCase : jsstring -> jsstring.
Variable handleSupabaseError : Exn -> jsstring.

Lemma throws_errors_ret {A} (a : A) : throws_errors (ret a).
Proof. intros w e w'. discriminate. Qed.

Lemma throws_errors_throw {A} e :
  instanceof_Error e = true -> throws_errors (@throw A e).
Proof. intros He w e' w' H. injection H as <- _. exact He. Qed.

Lemma throws_errors_bind {A B} (m : M A) (f : A -> M B) :
  throws_errors m -> (forall a, throws_errors (f a)) ->
  throws_errors (bind m f).
Proof.
  intros Hm Hf w e w'. unfold bind.
  destruct (m w) as [[a|e1] w1] eqn:Hrun.
  - apply Hf.
  - intros H. injection H as <- <-. now apply (Hm w e1 w1).
Qed.

Lemma throws_errors_request {A} req (run : World -> Reply A * World) :
  throws_errors (request req run).
Proof.
  intros w e w'. destruct (request_returns req run w) as (r & w1 & ->).
  discriminate.
Qed.

Lemma throws_errors_console text cause : throws_errors (console_error text cause).
Proof. intros w e w'. discriminate. Qed.

Ltac throws_steps :=
  repeat first
    [ apply @throws_errors_ret
    | apply @throws_errors_throw; reflexivity
    | apply @throws_errors_request
    | apply @throws_errors_console
    | apply @throws_errors_bind; [|intros ?]
    | match goal with
      | |- throws_errors (match ?x with _ => _ end) => destruct x
      | |- throws_errors (if_present ?x _) => destruct x; simpl
      end ].

Lemma updateRelated_throws_errors carId updates :
  throws_errors (updateRelated carId updates).
Proof.
  unfold updateRelated, upsertPricing, reconcileImages, replaceFeatures,
    replaceSpecifications.
  throws_steps.
Qed.

(** X14: an update has no rollback. When the patch of the root record went
    through and a later step on the related data throws, the update throws
    the translation of that error, makes no further call, and the cars table
    keeps the patch. *)
Theorem updateCar_no_rollback (carId : ID) (updates : Patch.t)
  (w w1 w2 : World) (err : Exn) :
  updateBase toLowerCase carId updates w = (Return tt, w1) ->
  updateRelated carId updates w1 = (Throw err, w2) ->
  exists w3,
    updateCar toLowerCase handleSupabaseError carId updates w =
      (Throw (JsError (handleSupabaseError err)), w3) /\
    cars (db w3) = cars (db w1) /\
    calls w3 = calls w2 /\
    console w3 =
      console w2 ++ [{| log_text := lit "Error updating related car data:";
                        log_cause := Some err |}].
Proof.
  intros Hbase Hrel.
  pose proof (updateRelated_throws_errors carId updates w1 err w2 Hrel) as Herr.
  pose proof (updateRelated_same_cars carId updates w1) as Hcars.
  rewrite Hrel in Hcars. unfold same in Hcars. simpl in Hcars.
  unfold updateCar. rewrite (bind_return _ _ _ _ _ Hbase).
  unfold bind at 1. rewrite (try_catch_throw _ _ _ _ _ Hrel).
  unfold bind, console_error, console_error_text, translate. simpl.
  rewrite Herr. unfold throw. eexists. repeat split. exact Hcars.
Qed.

Lemma updateCar_after_base carId updates w w1 :
  updateBase toLowerCase carId updates w = (Return tt, w1) ->
  cars (db (snd (updateCar toLowerCase handleSupabaseError carId updates w))) =
  cars (db w1).
Proof.
  intros Hbase. unfold updateCar. rewrite (bind_return _ _ _ _ _ Hbase).
  match goal with
  | |- context [bind ?m ?k w1] =>
      assert (Hrest : respects (same cars) (bind m k))
  end.
  { frame_apply @respects_bind;
      [frame_apply @respects_try_catch;
         [apply updateRelated_same_cars|intros; frame_steps]
      |intros; frame_steps]. }
  apply (Hrest w1).
Qed.

Lemma updateBase_applied carId updates w :
  (0 < keys_length (baseCarUpdatePayload toLowerCase updates))%nat ->
  (forall e x, faults w <> Some e :: x) ->
  exists w1,
    updateBase toLowerCase carId updates w = (Return tt, w1) /\
    cars (db w1) = patched toLowerCase carId updates (cars (db w)).
Proof.
  intros Hkeys Hf. unfold updateBase.
  apply Nat.ltb_lt in Hkeys. rewrite Hkeys.
  destruct (faults w) as [|[e|] rest] eqn:Hw.
  - rewrite (bind_return _ _ _ _ _
               (request_write _ _ _ [] (or_intror (conj Hw eq_refl)))).
    eexists. split; reflexivity.
  - now destruct (Hf e rest).
  - rewrite (bind_return _ _ _ _ _ (request_write _ _ _ rest (or_introl Hw))).
    eexists. split; reflexivity.
Qed.

(** X15: an update that gives a name, when the store accepts the patch of
    the root record, leaves every row of that car with the new name and with
    the slug of the new name, whatever happens in the later steps. *)
Theorem updateCar_rename_sets_slug (carId : ID) (updates : Patch.t) (w : World)
  (n : jsstring) :
  Patch.name updates = Some n ->
  (forall e x, faults w <> Some e :: x) ->
  forall r,
    In r (cars (db (snd (updateCar toLowerCase handleSupabaseError carId
                                   updates w)))) ->
    Car.id r = carId ->
    Car.name r = n /\ Car.slug r = generateSlug toLowerCase n.
Proof.
  intros Hname Hf r Hr Hid.
  destruct (updateBase_applied carId updates w) as (w1 & Hbase & Hcars);
    [unfold keys_length; simpl; rewrite Hname; simpl; lia|assumption|].
  rewrite (updateCar_after_base carId updates w w1 Hbase), Hcars in Hr.
  unfold patched in Hr. apply in_map_iff in Hr. destruct Hr as (r0 & <- & _).
  destruct (Car.id r0 =? carId) eqn:Hr0.
  - simpl. rewrite Hname. simpl. auto.
  - apply Z.eqb_neq in Hr0. contradiction.
Qed.

(** X16: an update of an identifier that no car has is not refused at the
    start: when all its steps went through, the re-read finds nothing and
    the update throws "Failed to fetch updated car <id> after update.",
    untranslated. *)
Theorem updateCar_missing_car (carId : ID) (updates : Patch.t)
  (w w1 w2 : World) :
  updateBase toLowerCase carId updates w = (Return tt, w1) ->
  updateRelated carId updates w1 = (Return tt, w2) ->
  (forall e x, faults w2 <> Some e :: x) ->
  (forall c, In c (cars (db w2)) -> Car.id c <> carId) ->
  fst (updateCar toLowerCase handleSupabaseError carId updates w) =
    Throw (JsError (lit "Failed to fetch updated car " ++ id_text carId
                    ++ lit " after update.")).
Proof.
  intros Hbase Hrel Hf Hnone.
  unfold updateCar. rewrite (bind_return _ _ _ _ _ Hbase).
  rewrite (bind_return _ _ _ _ _ (try_catch_return _ _ _ _ _ Hrel)).
  destruct (aggregate_read_answered handleSupabaseError carId w2 Hf)
    as (w3 & _ & Hmiss & _).
  rewrite (bind_return _ _ _ _ _ (Hmiss
             (filter_none _ _ (fun c Hc => proj2 (Z.eqb_neq _ _) (Hnone c Hc))))).
  reflexivity.
Qed.

End UpdateFurther.

Lemma updateCar_no_rollback_witness :
  exists w3,
    updateCar ascii_toLowerCase plain_message 1 feature_and_promote
              (garage_world [None; Some (refused "car_features is locked")]) =
      (Throw (JsError (lit "Failed to delete old features: car_features is locked")),
       w3) /\
    nth_error (cars (db w3)) 0 =
      Some (apply_update (baseCarUpdatePayload ascii_toLowerCase
                                               feature_and_promote) model_s).
Proof.
  destruct (updateCar_no_rollback ascii_toLowerCase plain_message 1
              feature_and_promote
              (garage_world [None; Some (refused "car_features is locked")])
              (snd (updateBase ascii_toLowerCase 1 feature_and_promote
                      (garage_world [None; Some (refused "car_features is locked")])))
              (snd (updateRelated 1 feature_and_promote
                      (snd (updateBase ascii_toLowerCase 1 feature_and_promote
                              (garage_world
                                 [None; Some (refused "car_features is locked")])))))
              (JsError (lit "Failed to delete old features: car_features is locked")))
    as (w3 & Hrun & Hcars & _).
  - vm_compute. reflexivity.
  - vm_compute. reflexivity.
  - exists w3. split; [exact Hrun|]. rewrite Hcars. vm_compute. reflexivity.
Defined.

Lemma updateCar_rename_sets_slug_witness :
  Forall (fun r =>
            Car.id r = 1 ->
            Car.name r = lit "Model S Plaid" /\
            Car.slug r = generateSlug ascii_toLowerCase (lit "Model S Plaid"))
         (cars (db (snd (updateCar ascii_toLowerCase plain_message 1
                                   rename_plaid (garage_world []))))).
Proof.
  apply Forall_forall.
  apply (updateCar_rename_sets_slug ascii_toLowerCase plain_message 1
           rename_plaid (garage_world []) (lit "Model S Plaid")).
  - reflexivity.
  - intros e x. discriminate.
Defined.

Lemma updateCar_missing_car_witness :
  fst (updateCar ascii_toLowerCase plain_message 99 rename_plaid
                 (garage_world [])) =
    Throw (JsError (lit "Failed to fetch updated car " ++ id_text 99
                    ++ lit " after update.")).
Proof.
  apply (updateCar_missing_car ascii_toLowerCase plain_message 99 rename_plaid
           (garage_world [])
           (snd (updateBase ascii_toLowerCase 99 rename_plaid (garage_world [])))
           (snd (updateRelated 99 rename_plaid
                   (snd (updateBase ascii_toLowerCase 99 rename_plaid
                           (garage_world [])))))).
  - vm_compute. reflexivity.
  - vm_compute. reflexivity.
  - intros e x. vm_compute. discriminate.
  - intros c Hc. vm_compute in Hc.
    repeat (destruct Hc as [<-|Hc]; [discriminate|]). destruct Hc.
Defined.

(** ** Calls that go through, counted *)

Lemma calm_passes n w : calm w -> passes n w.
Proof.
  unfold calm, passes. intros H. rewrite Forall_forall in *. intros x Hx.
  apply H. now apply firstn_subset in Hx.
Qed.

Lemma passes_head n w :
  passes (S n) w ->
  (faults w = [] \/ faults w = None :: tl (faults w)) /\
  Forall (eq None) (firstn n (tl (faults w))).
Proof.
  unfold passes. destruct (faults w) as [|x rest]; simpl.
  - intros _. split; [now left|]. now rewrite firstn_nil.
  - intros H. inversion H; subst. split; [now right|assumption].
Qed.

Lemma request_write_passes {A} req (f : Db -> A * Db) w n :
  passes (S n) w ->
  exists w',
    request req (write f) w = (Return (ok (fst (f (db w)))), w') /\
    passes n w' /\ faults w' = tl (faults w) /\
    db w' = snd (f (db w)) /\ bucket w' = bucket w /\
    console w' = console w /\ calls w' = calls w ++ [req].
Proof.
  intros Hp. destruct (passes_head n w Hp) as [[Hf|Hf] Hrest].
  - rewrite (request_write _ _ _ [] (or_intror (conj Hf eq_refl))).
    eexists. split; [reflexivity|]. unfold passes. simpl. rewrite Hf. simpl.
    rewrite firstn_nil. repeat split. constructor.
  - rewrite (request_write _ _ _ _ (or_introl Hf)).
    eexists. split; [reflexivity|]. unfold passes. simpl. repeat split.
    assumption.
Qed.

Lemma request_query_passes {A} req (f : Db -> Reply A) w n :
  passes (S n) w ->
  exists w',
    request req (query f) w = (Return (f (db w)), w') /\
    passes n w' /\ faults w' = tl (faults w) /\
    db w' = db w /\ bucket w' = bucket w /\
    console w' = console w /\ calls w' = calls w ++ [req].
Proof.
  intros Hp. destruct (passes_head n w Hp) as [[Hf|Hf] Hrest].
  - rewrite (request_query _ _ _ [] (or_intror (conj Hf eq_refl))).
    eexists. split; [reflexivity|]. unfold passes. simpl. rewrite Hf. simpl.
    rewrite firstn_nil. repeat split. constructor.
  - rewrite (request_query _ _ _ _ (or_introl Hf)).
    eexists. split; [reflexivity|]. unfold passes. simpl. repeat split.
    assumption.
Qed.

(** ** deleteCar: its endings *)

Section DeleteFurther.

Variable handleSupabaseError : Exn -> jsstring.

Lemma deleteRelated_passes carId w n :
  passes (4 + n) w ->
  exists l w',
    deleteRelated carId w = (Return l, w') /\
    passes n w' /\ faults w' = skipn 4 (faults w) /\
    db w' = related_deleted carId (db w) /\ bucket w' = bucket w /\
    console w' = console w /\
    calls w' =
      calls w ++ [ReqDeleteOf TPricing carId; ReqDeleteOf TFeatures carId;
                  ReqDeleteOf TSpecifications carId; ReqDeleteOf TImages carId].
Proof.
  intros Hp. unfold deleteRelated. simpl promise_all.
  destruct (request_write_passes (ReqDeleteOf TPricing carId)
              (delete_of TPricing carId) w (3 + n) Hp)
    as (w1 & Hr1 & Hp1 & Hf1 & Hd1 & Hb1 & Hl1 & Hc1).
  destruct (request_write_passes (ReqDeleteOf TFeatures carId)
              (delete_of TFeatures carId) w1 (2 + n) Hp1)
    as (w2 & Hr2 & Hp2 & Hf2 & Hd2 & Hb2 & Hl2 & Hc2).
  destruct (request_write_passes (ReqDeleteOf TSpecifications carId)
              (delete_of TSpecifications carId) w2 (1 + n) Hp2)
    as (w3 & Hr3 & Hp3 & Hf3 & Hd3 & Hb3 & Hl3 & Hc3).
  destruct (request_write_passes (ReqDeleteOf TImages carId)
              (delete_of TImages carId) w3 n Hp3)
    as (w4 & Hr4 & Hp4 & Hf4 & Hd4 & Hb4 & Hl4 & Hc4).
  do 2 eexists. split.
  - apply try_catch_return.
    unfold bind, ret. rewrite Hr1. cbv beta iota. rewrite Hr2. cbv beta iota.
    rewrite Hr3. cbv beta iota. rewrite Hr4. reflexivity.
  - split; [assumption|]. split.
    + rewrite Hf4, Hf3, Hf2, Hf1. now destruct (faults w) as [|? [|? [|? [|? ?]]]].
    + unfold related_deleted. rewrite Hd4, Hd3, Hd2, Hd1.
      split; [reflexivity|]. split; [congruence|]. split; [congruence|].
      rewrite Hc4, Hc3, Hc2, Hc1, <- !app_assoc. reflexivity.
Qed.

(** The first five calls of a delete that go through leave the rest of the
    delete to run on the tables without the related rows. *)
Lemma deleteCar_front carId w n :
  passes (5 + n) w ->
  exists w5,
    passes n w5 /\ faults w5 = skipn 5 (faults w) /\
    db w5 = related_deleted carId (db w) /\ bucket w5 = bucket w /\
    console w5 = console w /\
    calls w5 =
      calls w ++ [ReqSelect TImages;
                  ReqDeleteOf TPricing carId; ReqDeleteOf TFeatures carId;
                  ReqDeleteOf TSpecifications carId; ReqDeleteOf TImages carId] /\
    deleteCar handleSupabaseError carId w =
      try_catch
        (c <- request (ReqDeleteCar carId) (write (delete_car carId)) ;;
         match error c with
         | Some carDeleteError =>
             console_error "Error deleting main car record:"
                           (Some (StoreExn carDeleteError)) ;;
             throw (StoreExn carDeleteError)
         | None =>
             deleteStoredImages (stored_paths carId (db w)) ;;
             ret true
         end)
        (fun e =>
           console_error_text
             (lit "Error deleting car " ++ id_text carId ++ lit ":") (Some e) ;;
           translate handleSupabaseError
                     "An unexpected error occurred deleting car" e) w5.
Proof.
  intros Hp.
  destruct (request_query_passes (ReqSelect TImages)
              (fun d => ok (select_images_of carId d)) w (4 + n) Hp)
    as (w1 & Hr1 & Hp1 & Hf1 & Hd1 & Hb1 & Hl1 & Hc1).
  destruct (deleteRelated_passes carId w1 n Hp1)
    as (l & w5 & Hr & Hp5 & Hf5 & Hd5 & Hb5 & Hl5 & Hc5).
  exists w5. split; [assumption|]. split.
  { rewrite Hf5, Hf1. now destruct (faults w). }
  split; [now rewrite Hd5, Hd1|]. split; [congruence|]. split; [congruence|].
  split; [rewrite Hc5, Hc1, <- app_assoc; reflexivity|].
  unfold deleteCar, try_catch. rewrite (bind_return _ _ _ _ _ Hr1).
  cbn [error data ok or_default]. rewrite (bind_return _ _ _ _ _ Hr).
  reflexivity.
Qed.

Lemma storage_remove_nothing (b : list jsstring) : storage_remove [] b = b.
Proof. unfold storage_remove. apply filter_all. now apply Forall_forall. Qed.

Lemma deleteStoredImages_passes paths w :
  passes 1 w ->
  exists w',
    deleteStoredImages paths w = (Return tt, w') /\
    db w' = db w /\ bucket w' = storage_remove paths (bucket w) /\
    console w' = console w /\
    calls w' = calls w ++ (if is_empty paths then []
                           else [ReqStorageRemove paths]).
Proof.
  intros Hp. unfold deleteStoredImages. destruct paths as [|p paths].
  - exists w. unfold is_empty. rewrite storage_remove_nothing, app_nil_r.
    auto.
  - unfold is_empty.
    destruct (passes_head 0 w Hp) as [[Hf|Hf] _].
    + unfold bind. rewrite (request_unscripted _ _ _ Hf).
      simpl. eexists. repeat split.
    + unfold bind. rewrite (request_passing _ _ _ _ Hf).
      simpl. eexists. repeat split.
Qed.

Lemma deleteStoredImages_refused paths w e rest :
  paths <> [] -> faults w = Some e :: rest ->
  exists w',
    deleteStoredImages paths w = (Return tt, w') /\
    db w' = db w /\ bucket w' = bucket w /\
    console w' =
      console w ++
      [{| log_text :=
            lit "Error deleting images from storage after DB deletion:";
          log_cause := Some (StoreExn e) |}].
Proof.
  intros Hpaths Hf. unfold deleteStoredImages.
  destruct paths as [|p paths]; [contradiction|]. unfold is_empty.
  unfold bind. rewrite (request_failing _ _ _ _ _ Hf). simpl.
  eexists. repeat split.
Qed.

Lemma deleteCar_calm carId w :
  passes 7 w ->
  exists w',
    deleteCar handleSupabaseError carId w = (Return true, w') /\
    db w' = snd (delete_car carId (related_deleted carId (db w))) /\
    bucket w' = storage_remove (stored_paths carId (db w)) (bucket w) /\
    console w' = console w /\
    calls w' =
      calls w ++
      [ReqSelect TImages;
       ReqDeleteOf TPricing carId; ReqDeleteOf TFeatures carId;
       ReqDeleteOf TSpecifications carId; ReqDeleteOf TImages carId;
       ReqDeleteCar carId] ++
      (if is_empty (stored_paths carId (db w)) then []
       else [ReqStorageRemove (stored_paths carId (db w))]).
Proof.
  intros Hp.
  destruct (deleteCar_front carId w 2 Hp)
    as (w5 & Hp5 & _ & Hd5 & Hb5 & Hl5 & Hc5 & ->).
  destruct (request_write_passes (ReqDeleteCar carId) (delete_car carId) w5 1 Hp5)
    as (w6 & Hr6 & Hp6 & _ & Hd6 & Hb6 & Hl6 & Hc6).
  destruct (deleteStoredImages_passes (stored_paths carId (db w)) w6 Hp6)
    as (w7 & Hr7 & Hd7 & Hb7 & Hl7 & Hc7).
  exists w7. split.
  - apply try_catch_return. rewrite (bind_return _ _ _ _ _ Hr6).
    cbn [error ok]. rewrite (bind_return _ _ _ _ _ Hr7). reflexivity.
  - split; [now rewrite Hd7, Hd6, Hd5|]. split; [now rewrite Hb7, Hb6, Hb5|].
    split; [congruence|].
    rewrite Hc7, Hc6, Hc5, <- !app_assoc. reflexivity.
Qed.

Lemma deleted_tables carId d :
  cars (snd (delete_car carId (related_deleted carId d))) =
    filter (fun r => negb (Car.id r =? carId)) (cars d) /\
  car_pricing (snd (delete_car carId (related_deleted carId d))) =
    filter (fun r => negb (Pricing.car_id r =? carId)) (car_pricing d) /\
  car_images (snd (delete_car carId (related_deleted carId d))) =
    filter (fun r => negb (Image.car_id r =? carId)) (car_images d) /\
  car_features (snd (delete_car carId (related_deleted carId d))) =
    filter (fun r => negb (Feature.car_id r =? carId)) (car_features d) /\
  car_specifications (snd (delete_car carId (related_deleted carId d))) =
    filter (fun r => negb (Specification.car_id r =? carId))
           (car_specifications d).
Proof. repeat split. Qed.

(** X17: a delete whose calls all go through returns [true] and leaves each
    of the five tables without the rows of the car and with every other row,
    in order; the bucket loses the stored paths of the car's images and
    nothing else; nothing is written to the console. *)
Theorem deleteCar_cascades (carId : ID) (w : World) :
  calm w ->
  exists w',
    deleteCar handleSupabaseError carId w = (Return true, w') /\
    cars (db w') = filter (fun r => negb (Car.id r =? carId)) (cars (db w)) /\
    car_pricing (db w') =
      filter (fun r => negb (Pricing.car_id r =? carId)) (car_pricing (db w)) /\
    car_images (db w') =
      filter (fun r => negb (Image.car_id r =? carId)) (car_images (db w)) /\
    car_features (db w') =
      filter (fun r => negb (Feature.car_id r =? carId)) (car_features (db w)) /\
    car_specifications (db w') =
      filter (fun r => negb (Specification.car_id r =? carId))
             (car_specifications (db w)) /\
    (forall p, In p (bucket w') <->
               In p (bucket w) /\ ~ In p (stored_paths carId (db w))) /\
    console w' = console w.
Proof.
  intros Hc.
  destruct (deleteCar_calm carId w (calm_passes 7 w Hc))
    as (w' & Hrun & Hd & Hb & Hl & _).
  destruct (deleted_tables carId (db w)) as (T1 & T2 & T3 & T4 & T5).
  exists w'. rewrite Hd.
  do 6 (split; [assumption|]). split; [|assumption].
  intros p. rewrite Hb. unfold storage_remove. rewrite filter_In.
  rewrite negb_true_iff. unfold mem_path.
  destruct (existsb (jsstring_eqb p) (stored_paths carId (db w))) eqn:Hm.
  - apply mem_jsstring in Hm. split; [intros [_ H]; discriminate|tauto].
  - split; [|tauto]. intros [Hin _]. split; [assumption|].
    intros Hp. apply mem_jsstring in Hp. congruence.
Qed.

Lemma unknown_car_deleted carId d :
  unknown_car carId d -> snd (delete_car carId (related_deleted carId d)) = d.
Proof.
  intros (U1 & U2 & U3 & U4 & U5).
  assert (Hkeep : forall {A} (key : A -> ID) (l : list A),
            Forall (fun r => key r <> carId) l ->
            filter (fun r => negb (key r =? carId)) l = l).
  { intros A key l H. apply filter_all.
    apply (Forall_impl _ (P := fun r => key r <> carId)); [|assumption].
    intros r Hr. apply negb_true_iff. now apply Z.eqb_neq. }
  destruct d. unfold related_deleted, delete_car, delete_of, set_cars,
    set_pricing, set_images, set_features, set_specifications. simpl in *.
  now rewrite (Hkeep _ Car.id), (Hkeep _ Pricing.car_id),
    (Hkeep _ Image.car_id), (Hkeep _ Feature.car_id),
    (Hkeep _ Specification.car_id).
Qed.

(** X18: deleting a car that no row is, or refers to, succeeds when the
    store answers: the read and the five deletes find nothing, the bucket is not
    called,
    and tables, bucket and console are as before. *)
Theorem deleteCar_unknown_car (carId : ID) (w : World) :
  calm w -> unknown_car carId (db w) ->
  exists w',
    deleteCar handleSupabaseError carId w = (Return true, w') /\
    db w' = db w /\ bucket w' = bucket w /\ console w' = console w /\
    calls w' =
      calls w ++
      [ReqSelect TImages;
       ReqDeleteOf TPricing carId; ReqDeleteOf TFeatures carId;
       ReqDeleteOf TSpecifications carId; ReqDeleteOf TImages carId;
       ReqDeleteCar carId].
Proof.
  intros Hc Hu.
  destruct (deleteCar_calm carId w (calm_passes 7 w Hc))
    as (w' & Hrun & Hd & Hb & Hl & Hcalls).
  assert (Hpaths : stored_paths carId (db w) = []).
  { unfold stored_paths, select_images_of.
    destruct Hu as (_ & _ & U3 & _).
    rewrite (filter_none (fun r => Image.car_id r =? carId)); [reflexivity|].
    rewrite Forall_forall in U3. intros r Hr. apply Z.eqb_neq. auto. }
  rewrite Hpaths in *. rewrite storage_remove_nothing in Hb.
  simpl in Hcalls.
  exists w'. rewrite Hd, (unknown_car_deleted carId (db w) Hu). auto.
Qed.

(** X19: the removal of the stored objects is best effort. When the six
    calls to the tables went through and the bucket refuses, the delete
    still returns [true]: the rows are gone, the objects stay, and the
    refusal is written to the console. *)
Theorem deleteCar_storage_refused (carId : ID) (w : World) (e : StoreError)
  (rest : list (option StoreError)) :
  passes 6 w -> skipn 6 (faults w) = Some e :: rest ->
  stored_paths carId (db w) <> [] ->
  exists w',
    deleteCar handleSupabaseError carId w = (Return true, w') /\
    db w' = snd (delete_car carId (related_deleted carId (db w))) /\
    bucket w' = bucket w /\
    console w' =
      console w ++
      [{| log_text :=
            lit "Error deleting images from storage after DB deletion:";
          log_cause := Some (StoreExn e) |}].
Proof.
  intros Hp Hskip Hpaths.
  destruct (deleteCar_front carId w 1 Hp)
    as (w5 & Hp5 & Hf5 & Hd5 & Hb5 & Hl5 & _ & ->).
  destruct (request_write_passes (ReqDeleteCar carId) (delete_car carId) w5 0 Hp5)
    as (w6 & Hr6 & _ & Hf6 & Hd6 & Hb6 & Hl6 & _).
  assert (Hf : faults w6 = Some e :: rest).
  { rewrite Hf6, Hf5, <- Hskip.
    now destruct (faults w) as [|? [|? [|? [|? [|? [|? ?]]]]]]. }
  destruct (deleteStoredImages_refused _ w6 e rest Hpaths Hf)
    as (w7 & Hr7 & Hd7 & Hb7 & Hl7).
  exists w7. split.
  - apply try_catch_return. rewrite (bind_return _ _ _ _ _ Hr6).
    cbn [error ok]. rewrite (bind_return _ _ _ _ _ Hr7). reflexivity.
  - rewrite Hd7, Hb7, Hl7, Hd6, Hd5, Hb6, Hb5, Hl6, Hl5. auto.
Qed.

(** X20: when the read of the image rows is refused, the delete stops
    there: it throws the translated error, has made that one call, and has
    deleted nothing. *)
Theorem deleteCar_fetch_refused (carId : ID) (w : World) (e : StoreError)
  (rest : list (option StoreError)) :
  faults w = Some e :: rest ->
  exists w',
    deleteCar handleSupabaseError carId w =
      (Throw (surfaced handleSupabaseError
                "An unexpected error occurred deleting car" e), w') /\
    db w' = db w /\ bucket w' = bucket w /\
    calls w' = calls w ++ [ReqSelect TImages].
Proof.
  intros Hf. unfold deleteCar, try_catch.
  rewrite (bind_return _ _ _ _ _ (request_failing _ _ _ _ _ Hf)).
  cbn [error failed]. unfold bind, console_error, console_error_text, throw,
    translate, surfaced. simpl.
  destruct (is_Error_instance e); unfold throw; eexists; repeat split.
Qed.

(** X21: a delete is not atomic. When the related rows have been deleted
    and the store then refuses the delete of the root record, the delete
    throws the translated error; the car row stays, without its pricing,
    images, features and specifications, and the bucket is as before. *)
Theorem deleteCar_root_delete_refused (carId : ID) (w : World)
  (e : StoreError) (rest : list (option StoreError)) :
  passes 5 w -> skipn 5 (faults w) = Some e :: rest ->
  exists w',
    deleteCar handleSupabaseError carId w =
      (Throw (surfaced handleSupabaseError
                "An unexpected error occurred deleting car" e), w') /\
    db w' = related_deleted carId (db w) /\
    cars (db w') = cars (db w) /\
    Forall (fun r => Pricing.car_id r <> carId) (car_pricing (db w')) /\
    Forall (fun r => Image.car_id r <> carId) (car_images (db w')) /\
    Forall (fun r => Feature.car_id r <> carId) (car_features (db w')) /\
    Forall (fun r => Specification.car_id r <> carId)
           (car_specifications (db w')) /\
    bucket w' = bucket w.
Proof.
  intros Hp Hskip.
  destruct (deleteCar_front carId w 0 Hp)
    as (w5 & _ & Hf5 & Hd5 & Hb5 & _ & _ & ->).
  rewrite Hskip in Hf5.
  assert (Hgone : forall {A} (key : A -> ID) (l : list A),
            Forall (fun r => key r <> carId)
                   (filter (fun r => negb (key r =? carId)) l)).
  { intros A key l. apply Forall_forall. intros r Hr. apply filter_In in Hr.
    destruct Hr as [_ Hr]. apply negb_true_iff in Hr. now apply Z.eqb_neq. }
  unfold try_catch.
  rewrite (bind_return _ _ _ _ _ (request_failing _ _ _ _ _ Hf5)).
  cbn [error failed]. unfold bind, console_error, console_error_text, throw,
    translate, surfaced. simpl.
  destruct (is_Error_instance e); unfold throw; eexists;
    (split; [reflexivity|]); simpl; rewrite Hd5, Hb5;
    (split; [reflexivity|]); (split; [reflexivity|]);
    repeat split; try apply Hgone.
Qed.

End DeleteFurther.

Lemma deleteCar_cascades_witness :
  exists w',
    deleteCar plain_message 1 (garage_world []) = (Return true, w') /\
    List.length (cars (db w')) = 5%nat /\
    car_pricing (db w') = [] /\
    bucket w' = [lit "cars/2/a.png"].
Proof.
  destruct (deleteCar_cascades plain_message 1 (garage_world []))
    as (w' & Hrun & Hc & Hp & _ & _ & _ & _ & _); [constructor|].
  assert (Hb : bucket w' = [lit "cars/2/a.png"]).
  { pose proof Hrun as H. vm_compute in H. injection H as <-. reflexivity. }
  exists w'. split; [exact Hrun|]. rewrite Hc, Hp. repeat split.
  exact Hb.
Defined.

Lemma deleteCar_unknown_car_witness :
  exists w',
    deleteCar plain_message 99 (garage_world []) = (Return true, w') /\
    db w' = garage /\ List.length (calls w') = 6%nat.
Proof.
  destruct (deleteCar_unknown_car plain_message 99 (garage_world []))
    as (w' & Hrun & Hdb & _ & _ & Hcalls).
  - constructor.
  - unfold unknown_car. simpl. repeat split; repeat constructor; discriminate.
  - exists w'. split; [exact Hrun|]. split; [exact Hdb|]. now rewrite Hcalls.
Defined.

Lemma deleteCar_storage_refused_witness :
  exists w',
    deleteCar plain_message 1
      (garage_world [None; None; None; None; None; None;
                     Some (refused "bucket offline")]) = (Return true, w') /\
    bucket w' = bucket (garage_world []) /\
    List.length (console w') = 1%nat.
Proof.
  destruct (deleteCar_storage_refused plain_message 1
              (garage_world [None; None; None; None; None; None;
                             Some (refused "bucket offline")])
              (refused "bucket offline") [])
    as (w' & Hrun & _ & Hb & Hl).
  - repeat constructor.
  - reflexivity.
  - vm_compute. discriminate.
  - exists w'. split; [exact Hrun|]. split; [exact Hb|]. now rewrite Hl.
Defined.

Lemma deleteCar_fetch_refused_witness :
  exists w',
    deleteCar plain_message 1 (garage_world [Some (refused "timeout")]) =
      (Throw (JsError (lit "An unexpected error occurred deleting car")), w') /\
    db w' = garage.
Proof.
  destruct (deleteCar_fetch_refused plain_message 1
              (garage_world [Some (refused "timeout")]) (refused "timeout") []
              eq_refl) as (w' & Hrun & Hdb & _).
  exists w'. split; assumption.
Defined.

Lemma deleteCar_root_delete_refused_witness :
  exists w',
    deleteCar plain_message 1
      (garage_world [None; None; None; None; None;
                     Some (refused "cars is locked")]) =
      (Throw (JsError (lit "An unexpected error occurred deleting car")), w') /\
    cars (db w') = cars garage /\
    Forall (fun r => Pricing.car_id r <> 1) (car_pricing (db w')).
Proof.
  destruct (deleteCar_root_delete_refused plain_message 1
              (garage_world [None; None; None; None; None;
                             Some (refused "cars is locked")])
              (refused "cars is locked") [])
    as (w' & Hrun & _ & Hcars & Hp & _).
  - repeat constructor.
  - reflexivity.
  - exists w'. split; [exact Hrun|]. split; assumption.
Defined.

(** ** updateCar and the bucket *)

#[export] Instance keeps_Frame (P : jsstring -> Prop) : Frame (keeps P).
Proof.
  split; unfold keeps; intros; simpl; try (split; [apply incl_refl|auto]).
  destruct H as [I1 K1], H0 as [I2 K2]. split.
  - eapply incl_tran; eassumption.
  - intros p Hin HP. apply K2; [apply K1|]; assumption.
Qed.

Lemma keeps_write {A} (P : jsstring -> Prop) req (f : Db -> A * Db) :
  respects (keeps P) (request req (write f)).
Proof.
  frame_apply respects_request. intros w. unfold keeps, write.
  destruct (f (db w)). simpl. split; [apply incl_refl|auto].
Qed.

Lemma keeps_remove_objects (P : jsstring -> Prop) req paths :
  (forall p, In p paths -> ~ P p) ->
  respects (keeps P) (request req (remove_objects paths)).
Proof.
  intros Hpaths. frame_apply respects_request. intros w.
  unfold keeps, remove_objects, storage_remove. simpl. split.
  - intros p Hp. apply filter_In in Hp. tauto.
  - intros p Hin HP. apply filter_In. split; [assumption|].
    apply negb_true_iff. unfold mem_path.
    destruct (existsb (jsstring_eqb p) paths) eqn:Hm; [|reflexivity].
    apply mem_jsstring in Hm. destruct (Hpaths p Hm HP).
Qed.

Lemma has_path_In (paths : list (option jsstring)) (p : jsstring) :
  In (Some p) paths -> has_path paths (Some p) = true.
Proof.
  intros Hin. unfold has_path. apply existsb_exists. exists (Some p).
  split; [assumption|]. simpl. apply jsstring_eqb_refl.
Qed.

Lemma truthy_paths_source (imgs : list Image.Row) (p : jsstring) :
  In p (truthy_paths imgs) ->
  exists img, In img imgs /\ Image.path (Image.payload img) = Some p.
Proof.
  unfold truthy_paths. rewrite in_flat_map. intros (img & Hin & Hp).
  exists img. split; [assumption|].
  destruct (Image.path (Image.payload img)) as [[|c s]|]; simpl in Hp;
    try contradiction.
  destruct Hp as [<-|[]]. reflexivity.
Qed.

Lemma keeps_unlisted_removed incoming (existing : list Image.Row) req :
  respects
    (keeps (fun p => In (Some p) (map Image.path incoming)))
    (request req
       (remove_objects
          (truthy_paths
             (filter (fun img =>
                        truthy_string (Image.path (Image.payload img)) &&
                        negb (has_path (map Image.path incoming)
                                       (Image.path (Image.payload img))))
                     existing)))).
Proof.
  apply keeps_remove_objects. intros p Hp Hlisted.
  apply truthy_paths_source in Hp. destruct Hp as (img & Himg & Hpath).
  apply filter_In in Himg. destruct Himg as [_ Himg].
  apply andb_true_iff in Himg. destruct Himg as [_ Himg].
  apply negb_true_iff in Himg.
  rewrite Hpath, (has_path_In _ _ Hlisted) in Himg. discriminate.
Qed.

Section UpdateBucket.

Variable toLowerCase : jsstring -> jsstring.
Variable handleSupabaseError : Exn -> jsstring.

Lemma updateCar_keeps carId updates :
  respects (keeps (listed updates))
           (updateCar toLowerCase handleSupabaseError carId updates).
Proof.
  unfold updateCar, updateBase, updateRelated, upsertPricing, replaceFeatures,
    replaceSpecifications, getCarById, listed.
  cbv zeta.
  destruct (Patch.images updates) as [incoming|]; simpl if_present.
  - frame_steps; first [apply keeps_write | apply keeps_unlisted_removed].
  - frame_steps; apply keeps_write.
Qed.

(** X22: whatever the store answers, an update adds no object to the
    bucket and removes none whose path the images of the patch name; when
    the patch has no images, the bucket stays as it is. *)
Theorem updateCar_keeps_listed_objects (carId : ID) (updates : Patch.t)
  (w : World) (p : jsstring) :
  let w' := snd (updateCar toLowerCase handleSupabaseError carId updates w) in
  (In p (bucket w') -> In p (bucket w)) /\
  (In p (bucket w) -> listed updates p -> In p (bucket w')).
Proof.
  destruct (updateCar_keeps carId updates w) as [Hincl Hkeep].
  split; [apply Hincl|apply Hkeep].
Qed.

End UpdateBucket.

(** ** Runs of several calls that meet no refusal *)

Section Calmly.

Context (R : World -> World -> Prop) `{Frame R}.

Lemma calmly_ret {A} (a : A) : calmly R (fun _ => True) (ret a).
Proof. intros w Hc. exists a, w. repeat split; [assumption|apply frame_refl]. Qed.

Lemma calmly_bind {A B} (Q : A -> Prop) (Q' : B -> Prop) (m : M A)
  (f : A -> M B) :
  calmly R Q m -> (forall a, Q a -> calmly R Q' (f a)) ->
  calmly R Q' (bind m f).
Proof.
  intros Hm Hf w Hc. destruct (Hm w Hc) as (a & w1 & Hrun & Ha & Hc1 & R1).
  destruct (Hf a Ha w1 Hc1) as (b & w2 & Hrun2 & Hb & Hc2 & R2).
  exists b, w2. rewrite (bind_return _ _ _ _ _ Hrun).
  repeat split; try assumption. eapply frame_trans; eassumption.
Qed.

Lemma calmly_request {A} req (run : World -> Reply A * World) :
  (forall w, R w (snd (run w))) ->
  (forall w, faults (snd (run w)) = faults w) ->
  (forall w, error (fst (run w)) = None) ->
  calmly R answered (request req run).
Proof.
  intros HR Hfaults Hok w Hc. destruct (faults w) as [|x rest] eqn:Hf.
  - rewrite (request_unscripted _ _ _ Hf). eexists. eexists.
    split; [reflexivity|]. split; [apply Hok|]. split.
    + unfold calm. rewrite Hfaults. simpl. rewrite Hf. constructor.
    + eapply frame_trans; [apply frame_call|apply HR].
  - destruct (calm_tail w x rest Hc Hf) as [-> Hrest].
    rewrite (request_passing _ _ _ _ Hf). eexists. eexists.
    split; [reflexivity|]. split; [apply Hok|]. split.
    + unfold calm. rewrite Hfaults. simpl. assumption.
    + eapply frame_trans; [apply frame_call|].
      eapply frame_trans; [apply frame_faults|apply HR].
Qed.

Lemma calmly_query {A} req (f : Db -> Reply A) :
  (forall d, error (f d) = None) ->
  calmly R answered (request req (query f)).
Proof.
  intros Hf. apply calmly_request; intros w; simpl;
    [apply frame_refl|reflexivity|apply Hf].
Qed.

Lemma calmly_write {A} req (f : Db -> A * Db) :
  (forall w, R w (snd (write f w))) ->
  calmly R answered (request req (write f)).
Proof.
  intros Hf. apply calmly_request; [assumption|..]; intros w; unfold write;
    now destruct (f (db w)).
Qed.

Lemma calmly_remove_objects req paths :
  (forall w, R w (snd (remove_objects paths w))) ->
  calmly R answered (request req (remove_objects paths)).
Proof. intros Hf. apply calmly_request; [assumption|..]; reflexivity. Qed.

End Calmly.

Lemma same_write_step {X A} (proj : Db -> X) (f : Db -> A * Db) :
  (forall d, proj (snd (f d)) = proj d) ->
  forall w, same proj w (snd (write f w)).
Proof.
  intros Hf w. unfold same, write. specialize (Hf (db w)).
  now destruct (f (db w)).
Qed.

(** Breaks a run without refusal into its calls; [wr] shows that a write
    respects the relation. *)
Ltac calm_steps wr :=
  repeat first
    [ frame_apply @calmly_ret
    | frame_apply @calmly_query; [intros ?; reflexivity]
    | frame_apply @calmly_write; [solve [wr]]
    | frame_apply @calmly_remove_objects; [solve [wr]]
    | eapply @calmly_bind;
        [match goal with |- Frame _ => exact _ end| |intros ? ?]
    | match goal with
      | H : answered ?r |- context [error ?r] =>
          unfold answered in H; rewrite H; cbv beta iota
      | |- calmly _ _ (if ?b then _ else _) => destruct b
      | |- calmly _ _ (if_present ?x _) => destruct x; simpl if_present
      end ].

(** ** updateCar: features and specifications are replaced *)

Lemma upsert_images_features car ps d :
  car_features (snd (upsert_images car ps d)) = car_features d.
Proof.
  simpl. revert d. induction ps as [|p ps IH]; intros d; simpl; [reflexivity|].
  rewrite IH. unfold upsert_image. now destruct (existsb _ _).
Qed.

Lemma upsert_images_specifications car ps d :
  car_specifications (snd (upsert_images car ps d)) = car_specifications d.
Proof.
  simpl. revert d. induction ps as [|p ps IH]; intros d; simpl; [reflexivity|].
  rewrite IH. unfold upsert_image. now destruct (existsb _ _).
Qed.

Lemma filter_out_in {A} (f : A -> bool) (l : list A) :
  filter f (filter (fun x => negb (f x)) l) = [].
Proof.
  induction l as [|x l IH]; simpl; [reflexivity|].
  destruct (f x) eqn:Hx; simpl; [assumption|]. now rewrite Hx.
Qed.

Lemma filter_out_out {A} (f : A -> bool) (l : list A) :
  filter (fun x => negb (f x)) (filter (fun x => negb (f x)) l) =
  filter (fun x => negb (f x)) l.
Proof.
  induction l as [|x l IH]; simpl; [reflexivity|].
  destruct (f x) eqn:Hx; simpl; [assumption|]. rewrite Hx. simpl.
  now rewrite IH.
Qed.

Lemma numbered_rows {A B} (mk : ID * A -> B) (key : B -> ID)
  (payload : B -> A) (carId : ID) :
  (forall i a, key (mk (i, a)) = carId) ->
  (forall i a, payload (mk (i, a)) = a) ->
  forall ps n,
    filter (fun r => key r =? carId) (map mk (number_from n ps)) =
      map mk (number_from n ps) /\
    filter (fun r => negb (key r =? carId)) (map mk (number_from n ps)) = [] /\
    map payload (map mk (number_from n ps)) = ps.
Proof.
  intros Hkey Hpay. induction ps as [|a ps IH]; intros n; simpl.
  - repeat split.
  - rewrite Hkey, Z.eqb_refl, Hpay. simpl.
    destruct (IH (n + 1)) as (-> & -> & ->). repeat split.
Qed.

Lemma features_replaced carId incoming d :
  let d1 := snd (delete_of TFeatures carId d) in
  let d2 := if is_empty incoming then d1
            else snd (insert_features carId incoming d1) in
  map Feature.payload (features_of carId d2) = incoming /\
  features_of_others carId d2 = features_of_others carId d.
Proof.
  unfold features_of, features_of_others.
  destruct incoming as [|a ps]; cbv zeta; unfold is_empty.
  - simpl. now rewrite filter_out_in, filter_out_out.
  - destruct (numbered_rows
                (fun '(i, p) => {| Feature.id := i; Feature.car_id := carId;
                                   Feature.payload := p |})
                Feature.car_id Feature.payload carId
                (fun _ _ => eq_refl) (fun _ _ => eq_refl) (a :: ps)
                (next_id (snd (delete_of TFeatures carId d))))
      as (Hin & Hout & Hpay).
    unfold insert_features. cbn [snd car_features advance set_features].
    rewrite !filter_app, Hin, Hout, app_nil_r. cbn [delete_of snd car_features
      set_features]. rewrite filter_out_in, filter_out_out. simpl app.
    split; [exact Hpay|reflexivity].
Qed.

Lemma specifications_replaced carId incoming d :
  let d1 := snd (delete_of TSpecifications carId d) in
  let d2 := if is_empty incoming then d1
            else snd (insert_specifications carId incoming d1) in
  map Specification.payload (specifications_of carId d2) = incoming /\
  specifications_of_others carId d2 = specifications_of_others carId d.
Proof.
  unfold specifications_of, specifications_of_others.
  destruct incoming as [|a ps]; cbv zeta; unfold is_empty.
  - simpl. now rewrite filter_out_in, filter_out_out.
  - destruct (numbered_rows
                (fun '(i, p) => {| Specification.id := i;
                                   Specification.car_id := carId;
                                   Specification.payload := p |})
                Specification.car_id Specification.payload carId
                (fun _ _ => eq_refl) (fun _ _ => eq_refl) (a :: ps)
                (next_id (snd (delete_of TSpecifications carId d))))
      as (Hin & Hout & Hpay).
    unfold insert_specifications.
    cbn [snd car_specifications advance set_specifications].
    rewrite !filter_app, Hin, Hout, app_nil_r.
    cbn [delete_of snd car_specifications set_specifications].
    rewrite filter_out_in, filter_out_out. simpl app.
    split; [exact Hpay|reflexivity].
Qed.

Ltac bucket_only := intros ?; reflexivity.

Lemma replaceFeatures_calm carId incoming w :
  calm w ->
  exists w',
    replaceFeatures carId incoming w = (Return tt, w') /\ calm w' /\
    map Feature.payload (features_of carId (db w')) = incoming /\
    features_of_others carId (db w') = features_of_others carId (db w) /\
    car_specifications (db w') = car_specifications (db w).
Proof.
  intros Hc. unfold replaceFeatures.
  destruct (request_write_calm (ReqDeleteOf TFeatures carId)
              (delete_of TFeatures carId) w Hc)
    as (w1 & Hr1 & Hc1 & Hd1 & _).
  rewrite (bind_return _ _ _ _ _ Hr1). cbn [error ok].
  pose proof (features_replaced carId incoming (db w)) as Hrep.
  cbv zeta in Hrep. destruct (is_empty incoming).
  - exists w1. rewrite Hd1. repeat split; try assumption; apply Hrep.
  - destruct (request_write_calm (ReqInsertFeatures carId incoming)
                (insert_features carId incoming) w1 Hc1)
      as (w2 & Hr2 & Hc2 & Hd2 & _).
    rewrite (bind_return _ _ _ _ _ Hr2). cbn [error ok].
    exists w2. rewrite Hd2, Hd1. repeat split; try assumption; apply Hrep.
Qed.

Lemma replaceSpecifications_calm carId incoming w :
  calm w ->
  exists w',
    replaceSpecifications carId incoming w = (Return tt, w') /\ calm w' /\
    map Specification.payload (specifications_of carId (db w')) = incoming /\
    specifications_of_others carId (db w') =
      specifications_of_others carId (db w) /\
    car_features (db w') = car_features (db w).
Proof.
  intros Hc. unfold replaceSpecifications.
  destruct (request_write_calm (ReqDeleteOf TSpecifications carId)
              (delete_of TSpecifications carId) w Hc)
    as (w1 & Hr1 & Hc1 & Hd1 & _).
  rewrite (bind_return _ _ _ _ _ Hr1). cbn [error ok].
  pose proof (specifications_replaced carId incoming (db w)) as Hrep.
  cbv zeta in Hrep. destruct (is_empty incoming).
  - exists w1. rewrite Hd1. repeat split; try assumption; apply Hrep.
  - destruct (request_write_calm (ReqInsertSpecifications carId incoming)
                (insert_specifications carId incoming) w1 Hc1)
      as (w2 & Hr2 & Hc2 & Hd2 & _).
    rewrite (bind_return _ _ _ _ _ Hr2). cbn [error ok].
    exists w2. rewrite Hd2, Hd1. repeat split; try assumption; apply Hrep.
Qed.

Lemma pricing_step_calmly {X} (proj : Db -> list X) carId updates :
  (forall p d, proj (snd (upsert_pricing carId p d)) = proj d) ->
  calmly (same proj) (fun _ => True)
         (if_present (Patch.pricing updates) (upsertPricing carId)).
Proof.
  intros Hp. unfold upsertPricing.
  calm_steps ltac:(apply same_write_step; intros ?; apply Hp).
Qed.

Lemma images_step_calmly {X} (proj : Db -> list X) carId updates :
  (forall ids d, proj (snd (delete_images_in ids d)) = proj d) ->
  (forall ps d, proj (snd (upsert_images carId ps d)) = proj d) ->
  calmly (same proj) (fun _ => True)
         (if_present (Patch.images updates) (reconcileImages carId)).
Proof.
  intros Hd Hu. unfold reconcileImages. cbv zeta.
  calm_steps ltac:(first [ apply same_write_step; intros ?;
                           first [apply Hd | apply Hu]
                         | bucket_only ]).
Qed.

Lemma upsert_pricing_features car p d :
  car_features (snd (upsert_pricing car p d)) = car_features d.
Proof. unfold upsert_pricing. now destruct (existsb _ _). Qed.

Lemma upsert_pricing_specifications car p d :
  car_specifications (snd (upsert_pricing car p d)) = car_specifications d.
Proof. unfold upsert_pricing. now destruct (existsb _ _). Qed.

Lemma updateRelated_features_calm carId updates incoming w :
  calm w -> Patch.features updates = Some incoming ->
  exists w',
    updateRelated carId updates w = (Return tt, w') /\ calm w' /\
    map Feature.payload (features_of carId (db w')) = incoming /\
    features_of_others carId (db w') = features_of_others carId (db w).
Proof.
  intros Hc Hf. unfold updateRelated. rewrite Hf. cbn [if_present].
  destruct (pricing_step_calmly car_features carId updates
              (upsert_pricing_features carId) w Hc)
    as ([] & w1 & Hr1 & _ & Hc1 & S1).
  rewrite (bind_return _ _ _ _ _ Hr1).
  destruct (images_step_calmly car_features carId updates
              (fun _ _ => eq_refl) (upsert_images_features carId) w1 Hc1)
    as ([] & w2 & Hr2 & _ & Hc2 & S2).
  rewrite (bind_return _ _ _ _ _ Hr2).
  destruct (replaceFeatures_calm carId incoming w2 Hc2)
    as (w3 & Hr3 & Hc3 & F1 & F2 & _).
  rewrite (bind_return _ _ _ _ _ Hr3).
  unfold same in S1, S2. unfold features_of_others in F2.
  rewrite S2, S1 in F2.
  destruct (Patch.specifications updates) as [given|]; cbn [if_present].
  - destruct (replaceSpecifications_calm carId given w3 Hc3)
      as (w4 & Hr4 & Hc4 & _ & _ & S4).
    exists w4. unfold features_of, features_of_others. rewrite S4.
    repeat split; assumption.
  - exists w3. repeat split; assumption.
Qed.

Lemma updateRelated_specifications_calm carId updates incoming w :
  calm w -> Patch.specifications updates = Some incoming ->
  exists w',
    updateRelated carId updates w = (Return tt, w') /\ calm w' /\
    map Specification.payload (specifications_of carId (db w')) = incoming /\
    specifications_of_others carId (db w') =
      specifications_of_others carId (db w).
Proof.
  intros Hc Hf. unfold updateRelated. rewrite Hf. cbn [if_present].
  destruct (pricing_step_calmly car_specifications carId updates
              (upsert_pricing_specifications carId) w Hc)
    as ([] & w1 & Hr1 & _ & Hc1 & S1).
  rewrite (bind_return _ _ _ _ _ Hr1).
  destruct (images_step_calmly car_specifications carId updates
              (fun _ _ => eq_refl) (upsert_images_specifications carId) w1 Hc1)
    as ([] & w2 & Hr2 & _ & Hc2 & S2).
  rewrite (bind_return _ _ _ _ _ Hr2).
  unfold same in S1, S2.
  assert (Hfeat : exists w3,
             if_present (Patch.features updates) (replaceFeatures carId) w2 =
               (Return tt, w3) /\ calm w3 /\
             car_specifications (db w3) = car_specifications (db w2)).
  { destruct (Patch.features updates) as [given|]; cbn [if_present].
    - destruct (replaceFeatures_calm carId given w2 Hc2)
        as (w3 & Hr3 & Hc3 & _ & _ & S3).
      exists w3. repeat split; assumption.
    - exists w2. repeat split; assumption. }
  destruct Hfeat as (w3 & Hr3 & Hc3 & S3).
  rewrite (bind_return _ _ _ _ _ Hr3).
  destruct (replaceSpecifications_calm carId incoming w3 Hc3)
    as (w4 & Hr4 & Hc4 & F1 & F2 & _).
  exists w4. unfold specifications_of_others in F2.
  rewrite S3, S2, S1 in F2. repeat split; assumption.
Qed.

Section UpdateReplaces.

Variable toLowerCase : jsstring -> jsstring.
Variable handleSupabaseError : Exn -> jsstring.

Lemma updateBase_calmly {X} (proj : Db -> list X) carId updates :
  (forall p d, proj (snd (update_car carId p d)) = proj d) ->
  calmly (same proj) (fun _ => True) (updateBase toLowerCase carId updates).
Proof.
  intros Hp. unfold updateBase. cbv zeta.
  calm_steps ltac:(apply same_write_step; intros ?; apply Hp).
Qed.

Lemma updateCar_after_related {X} (proj : Db -> list X) carId updates w w1 w2 :
  updateBase toLowerCase carId updates w = (Return tt, w1) ->
  updateRelated carId updates w1 = (Return tt, w2) ->
  proj (db (snd (updateCar toLowerCase handleSupabaseError carId updates w))) =
  proj (db w2).
Proof.
  intros Hr1 Hr2. unfold updateCar.
  rewrite (bind_return _ _ _ _ _ Hr1).
  rewrite (bind_return _ _ _ _ _ (try_catch_return _ _ _ _ _ Hr2)).
  assert (Hlast : respects (same proj)
            (updatedCar <- getCarById handleSupabaseError carId ;;
             match updatedCar with
             | Some car => ret car
             | None =>
                 throw (JsError (lit "Failed to fetch updated car "
                                 ++ id_text carId ++ lit " after update."))
             end)).
  { frame_apply @respects_bind;
      [apply getCarById_respects; exact _|intros [c|]; frame_steps]. }
  apply Hlast.
Qed.

(** X23: an update that gives features, when the store refuses nothing,
    replaces the features of the car by the given ones, in their order, and
    leaves the feature rows of the other cars as they were; this holds
    whether or not a car of that id exists. *)
Theorem updateCar_replaces_features (carId : ID) (updates : Patch.t)
  (incoming : list Attrs) (w : World) :
  calm w -> Patch.features updates = Some incoming ->
  let w' := snd (updateCar toLowerCase handleSupabaseError carId updates w) in
  map Feature.payload (features_of carId (db w')) = incoming /\
  features_of_others carId (db w') = features_of_others carId (db w).
Proof.
  intros Hc Hf.
  destruct (updateBase_calmly car_features carId updates
              (fun _ _ => eq_refl) w Hc) as ([] & w1 & Hr1 & _ & Hc1 & S1).
  destruct (updateRelated_features_calm carId updates incoming w1 Hc1 Hf)
    as (w2 & Hr2 & _ & F1 & F2).
  cbv zeta. unfold features_of, features_of_others in *.
  rewrite (updateCar_after_related car_features carId updates w w1 w2 Hr1 Hr2).
  unfold same in S1. rewrite S1 in F2. split; assumption.
Qed.

(** X24: an update that gives specifications, when the store refuses
    nothing, replaces the specifications of the car by the given ones, in
    their order, and leaves the rows of the other cars as they were. *)
Theorem updateCar_replaces_specifications (carId : ID) (updates : Patch.t)
  (incoming : list Attrs) (w : World) :
  calm w -> Patch.specifications updates = Some incoming ->
  let w' := snd (updateCar toLowerCase handleSupabaseError carId updates w) in
  map Specification.payload (specifications_of carId (db w')) = incoming /\
  specifications_of_others carId (db w') =
    specifications_of_others carId (db w).
Proof.
  intros Hc Hf.
  destruct (updateBase_calmly car_specifications carId updates
              (fun _ _ => eq_refl) w Hc) as ([] & w1 & Hr1 & _ & Hc1 & S1).
  destruct (updateRelated_specifications_calm carId updates incoming w1 Hc1 Hf)
    as (w2 & Hr2 & _ & F1 & F2).
  cbv zeta. unfold specifications_of, specifications_of_others in *.
  rewrite (updateCar_after_related car_specifications carId updates w w1 w2
             Hr1 Hr2).
  unfold same in S1. rewrite S1 in F2. split; assumption.
Qed.

End UpdateReplaces.

Lemma updateCar_keeps_listed_objects_witness :
  In (lit "cars/1/a.png")
     (bucket (snd (updateCar ascii_toLowerCase plain_message 1 keep_first_image
                             (garage_world [])))).
Proof.
  pose proof (updateCar_keeps_listed_objects ascii_toLowerCase plain_message 1
                keep_first_image (garage_world []) (lit "cars/1/a.png")) as H.
  cbv zeta in H. destruct H as [_ H]. apply H.
  - left. reflexivity.
  - left. reflexivity.
Defined.

Lemma updateCar_replaces_features_witness :
  map Feature.payload
      (features_of 1
         (db (snd (updateCar ascii_toLowerCase plain_message 1
                             feature_and_promote (garage_world []))))) =
    [[(lit "autopilot", lit "yes")]].
Proof.
  apply (updateCar_replaces_features ascii_toLowerCase plain_message 1
           feature_and_promote [[(lit "autopilot", lit "yes")]]
           (garage_world [])).
  - constructor.
  - reflexivity.
Defined.

Lemma updateCar_replaces_specifications_witness :
  map Specification.payload
      (specifications_of 1
         (db (snd (updateCar ascii_toLowerCase plain_message 1 respecify
                             (garage_world []))))) =
    [[(lit "range", lit "400")]].
Proof.
  apply (updateCar_replaces_specifications ascii_toLowerCase plain_message 1
           respecify [[(lit "range", lit "400")]] (garage_world [])).
  - constructor.
  - reflexivity.
Defined.

(** ** The primary image of a listing row *)

Lemma primary_image_url_shows (imgs : list Image.Row) :
  shows_primary_of imgs (primary_image_url imgs).
Proof.
  destruct (primary_image_least imgs) as [Hnone Hsome].
  unfold shows_primary_of, primary_image_url.
  destruct (primary_image imgs) as [i|]; simpl.
  - split.
    + split; [discriminate|]. intros Himgs. apply Hnone in Himgs.
      discriminate.
    + intros _. exists i. destruct (Hsome i eq_refl) as (Hin & Hfl & Hall).
      split; [assumption|]. split; [reflexivity|]. split; assumption.
  - split.
    + split; [intros _; now apply Hnone|reflexivity].
    + intros Hne. destruct Hne. now apply Hnone.
Qed.

Lemma admin_rows_show d cs :
  Forall (fun row => shows_primary_of (select_images_of (ac_id row) d)
                                      (ac_primary_image_url row))
         (map admin_row (map (join d) cs)).
Proof.
  apply Forall_forall. intros row Hrow. apply in_map_iff in Hrow.
  destruct Hrow as (j & <- & Hj). apply in_map_iff in Hj.
  destruct Hj as (c & <- & _). apply primary_image_url_shows.
Qed.

Lemma fleet_rows_show d cs :
  Forall (fun row => shows_primary_of (select_images_of (fc_id row) d)
                                      (fc_primaryImageUrl row))
         (map fleet_row (map (join d) cs)).
Proof.
  apply Forall_forall. intros row Hrow. apply in_map_iff in Hrow.
  destruct Hrow as (j & <- & Hj). apply in_map_iff in Hj.
  destruct Hj as (c & <- & _). apply primary_image_url_shows.
Qed.

Lemma related_rows_show d cs :
  Forall (fun row => shows_primary_of (select_images_of (rc_id row) d)
                                      (rc_primaryImageUrl row))
         (map related_row (map (join d) cs)).
Proof.
  apply Forall_forall. intros row Hrow. apply in_map_iff in Hrow.
  destruct Hrow as (j & <- & Hj). apply in_map_iff in Hj.
  destruct Hj as (c & <- & _). apply primary_image_url_shows.
Qed.

Section PrimaryImage.

Variable handleSupabaseError : Exn -> jsstring.

Lemma listings_answered w :
  answer 0 w = None ->
  fst (getAllCarsForAdminList handleSupabaseError w) =
    Return (map admin_row (select_admin (db w))) /\
  fst (getVisibleCarsForFleet handleSupabaseError w) =
    Return (map fleet_row (select_fleet (db w))).
Proof.
  intros H0. split.
  - unfold getAllCarsForAdminList, try_catch.
    now rewrite (bind_return _ _ _ _ _
                   (request_query _ _ _ _ (answer_script w H0))).
  - unfold getVisibleCarsForFleet, try_catch.
    now rewrite (bind_return _ _ _ _ _
                   (request_query _ _ _ _ (answer_script w H0))).
Qed.

Lemma getRelatedCars_answered carId limit w c cat :
  answer 0 w = None -> answer 1 w = None ->
  filter (fun c => Car.id c =? carId) (cars (db w)) = [c] ->
  Car.category c = Some cat -> cat <> [] ->
  fst (getRelatedCars handleSupabaseError carId limit w) =
    Return (map related_row
                (select_related cat carId (or_default limit 3%nat) (db w))).
Proof.
  intros H0 H1 Hc Hcat Hne. unfold getRelatedCars, try_catch. cbv zeta.
  rewrite (bind_return _ _ _ _ _
             (request_query _ _ _ _ (answer_script w H0))).
  unfold select_category. rewrite Hc.
  change (map Car.category [c]) with [Car.category c]. rewrite Hcat.
  cbn [maybe_single error data ok].
  destruct cat as [|x cat]; [contradiction|]. unfold is_empty.
  assert (H1' : answer 0 (set_faults (tl (faults w))
                            (record_call (ReqSelect TCars) w)) = None)
    by (rewrite <- H1; now apply answer_next).
  rewrite (bind_return _ _ _ _ _
             (request_query _ _ _ _ (answer_script _ H1'))).
  reflexivity.
Qed.

(** X3: every row of the admin list, of the public fleet and of the
    related listing shows the primary image of its car: no url exactly when
    the car has no image, and otherwise the url of one of the car's images,
    the flagged one with the least sort order when one is flagged, and the
    one with the least sort order of all when none is. The listings are
    returned when the store answers. *)
Theorem primary_image_resolution (w : World) (carId : ID)
  (limit : option nat) :
  (forall rows w',
     getAllCarsForAdminList handleSupabaseError w = (Return rows, w') ->
     Forall (fun row => shows_primary_of (select_images_of (ac_id row) (db w))
                                         (ac_primary_image_url row)) rows) /\
  (forall rows w',
     getVisibleCarsForFleet handleSupabaseError w = (Return rows, w') ->
     Forall (fun row => shows_primary_of (select_images_of (fc_id row) (db w))
                                         (fc_primaryImageUrl row)) rows) /\
  (forall rows w',
     getRelatedCars handleSupabaseError carId limit w = (Return rows, w') ->
     Forall (fun row => shows_primary_of (select_images_of (rc_id row) (db w))
                                         (rc_primaryImageUrl row)) rows) /\
  (answer 0 w = None ->
   fst (getAllCarsForAdminList handleSupabaseError w) =
     Return (map admin_row (select_admin (db w))) /\
   fst (getVisibleCarsForFleet handleSupabaseError w) =
     Return (map fleet_row (select_fleet (db w)))) /\
  (forall c cat,
     answer 0 w = None -> answer 1 w = None ->
     filter (fun c => Car.id c =? carId) (cars (db w)) = [c] ->
     Car.category c = Some cat -> cat <> [] ->
     fst (getRelatedCars handleSupabaseError carId limit w) =
       Return (map related_row
                   (select_related cat carId (or_default limit 3%nat)
                                   (db w)))).
Proof.
  split; [|split; [|split; [|split]]].
  - intros rows w' Hrun.
    apply getAllCarsForAdminList_returned in Hrun. subst rows.
    apply admin_rows_show.
  - intros rows w' Hrun. apply fleet_returned in Hrun. subst rows.
    apply fleet_rows_show.
  - intros rows w' Hrun. apply related_returned in Hrun.
    destruct Hrun as [->|(cat & ->)]; [constructor|apply related_rows_show].
  - apply listings_answered.
  - intros c cat. apply getRelatedCars_answered.
Qed.

End PrimaryImage.

Lemma primary_image_resolution_witness :
  fst (getVisibleCarsForFleet plain_message (garage_world [])) =
    Return (map fleet_row (select_fleet garage)) /\
  Forall (fun row => shows_primary_of (select_images_of (fc_id row) garage)
                                      (fc_primaryImageUrl row))
         (map fleet_row (select_fleet garage)) /\
  fst (getRelatedCars plain_message 1 None (garage_world [])) =
    Return (map related_row (select_related (lit "electric") 1 3 garage)).
Proof.
  destruct (primary_image_resolution plain_message (garage_world []) 1 None)
    as (_ & Hfleet & _ & Hret & Hrelated).
  destruct (Hret eq_refl) as [_ Hrun].
  split; [exact Hrun|]. split.
  - apply (Hfleet _ (snd (getVisibleCarsForFleet plain_message
                                                 (garage_world [])))).
    apply injective_projections; [exact Hrun|reflexivity].
  - apply (Hrelated model_s (lit "electric")); try reflexivity.
    vm_compute. discriminate.
Defined.
